(** * A shallow embedding of [graph.h]: the directed-graph store, its
      structural transforms, depth-first search and the strongly connected
      components computation.

    The C++ class template [Graph<NodeType>] keeps a [std::set] of nodes and
    two [std::map]s from a node to a [std::vector] of neighbours.  Sets and
    maps are embedded as [gset] and [gmap]; the vectors as lists.  The
    ascending iteration order of [std::set] and [std::map] is made explicit
    by sorting the elements with the node order.  Exceptions are values of
    the [result] type, and the two mutating methods ([add_node], [add_edge])
    are state transformers that also return the graph as it stands when an
    exception leaves the method. *)

From stdpp Require Import base decidable option list sorting numbers strings pretty relations gmap fin_sets fin_maps.

Set Default Proof Using "Type*".
Set Warnings "-clear-no-such-hyp,-notation-for-abbreviation".
Open Scope Z_scope.

(* ================================================================== *)
(** ** Exceptions and results *)
(* ================================================================== *)

(** What can leave a method other than a value.  [logic_error] carries the
    message of the [throw] in the source (without the trailing newline);
    [out_of_range] is what [std::map::at] throws on a missing key;
    [assertion_failure] is a failed [assert]. *)
Inductive exception :=
  | logic_error (what : string)
  | out_of_range
  | assertion_failure.

Definition DuplicateNode : exception :=
  logic_error "Trying to insert node that already exists in node_set_".
Definition UnknownFromNode : exception :=
  logic_error "from_node doesn't exist in node_set_".
Definition UnknownToNode : exception :=
  logic_error "to_node doesn't exist in node_set_".
Definition IncompatibleNodeSets : exception :=
  logic_error "Graph union is only supported on graphs with identical node sets".

(** [OutOfFuel] belongs to the embedding only: [dfs_visit] and the loop of
    [scc] are defined by recursion on a fuel counter.  On well-formed
    graphs the fuel their callers hand out is never exhausted
    ([dfs_visit_returns], [scc_loop_returns]). *)
Inductive result (A : Type) :=
  | Ok (a : A)
  | Throw (e : exception)
  | OutOfFuel.
Arguments Ok {A} a.
Arguments Throw {A} e.
Arguments OutOfFuel {A}.

Global Instance result_ret : MRet result := λ A a, Ok a.
Global Instance result_bind : MBind result := λ A B f r,
  match r with
  | Ok a => f a
  | Throw e => Throw e
  | OutOfFuel => OutOfFuel
  end.
Global Instance result_fmap : FMap result := λ A B f r,
  match r with
  | Ok a => Ok (f a)
  | Throw e => Throw e
  | OutOfFuel => OutOfFuel
  end.

(** [m.at(k)] of a [std::map]. *)
Definition map_at `{Countable K} {V} (m : gmap K V) (k : K) : result V :=
  match m !! k with
  | Some v => Ok v
  | None => Throw out_of_range
  end.

(** A range-based [for] loop whose body may throw, threading the loop
    state [s]. *)
Fixpoint for_each {A S} (body : A → S → result S) (l : list A) (s : S) : result S :=
  match l with
  | [] => Ok s
  | x :: l' => s' ← body x s; for_each body l' s'
  end.

(* ================================================================== *)
(** ** [std::sort] *)
(* ================================================================== *)

(** [std::sort] with a comparator [comp]: the result is a permutation that
    is ordered by [comp].  It is embedded as an insertion sort; when no two
    distinct elements of the input are equivalent under [comp] (the case at
    every call in [graph.h]) every sorting algorithm returns this list. *)
Section std_sort.
Context {A : Type} (comp : A → A → bool).

Fixpoint sort_insert (x : A) (l : list A) : list A :=
  match l with
  | [] => [x]
  | y :: l' => if comp y x then y :: sort_insert x l' else x :: y :: l'
  end.

Definition std_sort (l : list A) : list A := foldr sort_insert [] l.
End std_sort.

(** The comparator handed to [dfs] by [scc] reads a map with [at] and so may
    throw; this variant propagates the exception of a comparison. *)
Section std_sort_with.
Context {A : Type} (comp : A → A → result bool).

Fixpoint sort_insert_with (x : A) (l : list A) : result (list A) :=
  match l with
  | [] => Ok [x]
  | y :: l' =>
      b ← comp y x;
      if b : bool then l'' ← sort_insert_with x l'; Ok (y :: l'')
      else Ok (x :: y :: l')
  end.

Fixpoint std_sort_with (l : list A) : result (list A) :=
  match l with
  | [] => Ok []
  | x :: l' => s ← std_sort_with l'; sort_insert_with x s
  end.
End std_sort_with.

(* ================================================================== *)
(** ** The node type *)
(* ================================================================== *)

(** What the template asks of [NodeType]: [operator<] (a strict total
    order, used by [std::set], [std::map], [std::less] and [std::sort]),
    [operator==] (Leibniz equality here) and a default constructor, whose
    value [NodeType()] marks "no parent" in the depth-first search. *)
Class Node (NodeType : Type) `{Countable NodeType} := {
  node_lt : relation NodeType;
  node_lt_dec :: RelDecision node_lt;
  node_lt_strict :: StrictOrder node_lt;
  node_lt_trichotomy :: Trichotomy node_lt;
  node_default : NodeType
}.

Section graph.
Context `{Node NodeType}.

Definition node_ltb (a b : NodeType) : bool := bool_decide (node_lt a b).

(** Iteration over a [std::set<NodeType>]: ascending order. *)
Definition set_iter (s : gset NodeType) : list NodeType :=
  std_sort node_ltb (elements s).

(** Iteration over a [std::map<NodeType, V>]: ascending key order. *)
Definition map_iter {V} (m : gmap NodeType V) : list (NodeType * V) :=
  std_sort (λ p q, node_ltb p.1 q.1) (map_to_list m).

(** The order of the entries of a map: by key. *)
Definition key_lt {V} : relation (NodeType * V) := λ p q, node_lt p.1 q.1.

(* ================================================================ *)
(** ** The graph store *)
(* ================================================================ *)

Record Graph := mkGraph {
  node_set_ : gset NodeType;
  succ_map_ : gmap NodeType (list NodeType);
  pred_map_ : gmap NodeType (list NodeType);
  node_printer_ : NodeType → string
}.

(** [Graph(node_printer)] *)
Definition Graph_new (node_printer : NodeType → string) : Graph :=
  mkGraph ∅ ∅ ∅ node_printer.

(** A non-const method: from the graph before the call to the outcome and
    the graph after it (also when the outcome is an exception). *)
Definition mutator (A : Type) : Type := Graph → result A * Graph.

Definition mut_ret {A} (a : A) : mutator A := λ g, (Ok a, g).
Definition mut_bind {A B} (m : mutator A) (f : A → mutator B) : mutator B :=
  λ g, match m g with
       | (Ok a, g') => f a g'
       | (Throw e, g') => (Throw e, g')
       | (OutOfFuel, g') => (OutOfFuel, g')
       end.
Definition throw {A} (e : exception) : mutator A := λ g, (Throw e, g).
Definition get_graph : mutator Graph := λ g, (Ok g, g).

(** [succ_map_.at(k)] and [pred_map_.at(k)], read. *)
Definition succ_at (k : NodeType) : mutator (list NodeType) :=
  λ g, (map_at (succ_map_ g) k, g).
Definition pred_at (k : NodeType) : mutator (list NodeType) :=
  λ g, (map_at (pred_map_ g) k, g).

(** [succ_map_.at(k)] and [pred_map_.at(k)], updated in place by [f]. *)
Definition succ_update (k : NodeType) (f : list NodeType → list NodeType) : mutator unit :=
  λ g, match succ_map_ g !! k with
       | Some l => (Ok (), mkGraph (node_set_ g) (<[k := f l]> (succ_map_ g))
                                   (pred_map_ g) (node_printer_ g))
       | None => (Throw out_of_range, g)
       end.
Definition pred_update (k : NodeType) (f : list NodeType → list NodeType) : mutator unit :=
  λ g, match pred_map_ g !! k with
       | Some l => (Ok (), mkGraph (node_set_ g) (succ_map_ g)
                                   (<[k := f l]> (pred_map_ g)) (node_printer_ g))
       | None => (Throw out_of_range, g)
       end.

Notation "x <- m ;; k" := (mut_bind m (λ x, k))
  (at level 100, m at next level, right associativity).
Notation "m ;;; k" := (mut_bind m (λ _, k))
  (at level 100, right associativity).

(** [void add_node(const NodeType & node)] *)
Definition add_node (node : NodeType) : mutator unit :=
  λ g,
    if decide (node ∈ node_set_ g) then (Throw DuplicateNode, g)
    else (Ok (), mkGraph ({[node]} ∪ node_set_ g)
                         (<[node := []]> (succ_map_ g))
                         (<[node := []]> (pred_map_ g))
                         (node_printer_ g)).

(** [void add_edge(const NodeType & from_node, const NodeType & to_node)].
    The [assert] is the one of a build without [NDEBUG].  The warning
    written to [std::cout] when the edge exists is not part of the graph
    and is left out. *)
Definition add_edge (from_node to_node : NodeType) : mutator unit :=
  g <- get_graph;;
  if decide (from_node ∉ node_set_ g) then throw UnknownFromNode else
  if decide (to_node ∉ node_set_ g) then throw UnknownToNode else
  succs <- succ_at from_node;;
  if decide (to_node ∈ succs) then
    preds <- pred_at to_node;;
    if decide (from_node ∈ preds) then mut_ret () else throw assertion_failure
  else
    succ_update from_node (λ l, l ++ [to_node]);;;
    pred_update to_node (λ l, l ++ [from_node]);;;
    succ_update from_node (std_sort node_ltb);;;
    pred_update to_node (std_sort node_ltb).

(** Running a mutator on a local object of a const method: an exception
    propagates and the object is lost. *)
Definition exec {A} (m : mutator A) (g : Graph) : result Graph :=
  match m g with
  | (Ok _, g') => Ok g'
  | (Throw e, _) => Throw e
  | (OutOfFuel, _) => OutOfFuel
  end.

(* ================================================================ *)
(** ** Equality, edge lookup and the structural transforms *)
(* ================================================================ *)

(** [bool operator==(const Graph & b) const]: the printer is not
    compared. *)
Definition graph_eqb (a b : Graph) : bool :=
  bool_decide (node_set_ a = node_set_ b) &&
  bool_decide (succ_map_ a = succ_map_ b) &&
  bool_decide (pred_map_ a = pred_map_ b).

(** [bool exists_edge(const NodeType & a, const NodeType & b) const]:
    [and] evaluates its right operand only when the left one holds. *)
Definition exists_edge (a b : NodeType) (g : Graph) : result bool :=
  succs ← map_at (succ_map_ g) a;
  if decide (b ∈ succs) then
    preds ← map_at (pred_map_ g) b;
    Ok (bool_decide (a ∈ preds))
  else Ok false.

(** [Graph copy_and_clear() const] *)
Definition copy_and_clear (g : Graph) : result Graph :=
  for_each
    (λ node copy,
       exec (succ_update node (λ _, []);;; pred_update node (λ _, [])) copy)
    (set_iter (node_set_ g)) g.

(** [Graph transpose() const]: the reversed edges are appended to the
    vectors of the cleared copy, without sorting. *)
Definition transpose (g : Graph) : result Graph :=
  transpose_graph ← copy_and_clear g;
  for_each
    (λ node transpose_graph,
       for_each
         (λ neighbor transpose_graph,
            exec (succ_update neighbor (λ l, l ++ [node.1]);;;
                  pred_update node.1 (λ l, l ++ [neighbor])) transpose_graph)
         node.2 transpose_graph)
    (map_iter (succ_map_ g)) transpose_graph.

(** [Graph operator+(const Graph & b) const] *)
Definition graph_union (a b : Graph) : result Graph :=
  if decide (node_set_ a ≠ node_set_ b) then Throw IncompatibleNodeSets else
  res ← copy_and_clear a;
  for_each
    (λ graph res,
       for_each
         (λ node res,
            for_each (λ neighbor res, exec (add_edge node.1 neighbor) res)
                     node.2 res)
         (map_iter (succ_map_ graph)) res)
    [a; b] res.

(* ================================================================ *)
(** ** Depth-first search *)
(* ================================================================ *)

Inductive Color := WHITE | BLACK | GRAY.

Global Instance Color_eq_dec : EqDecision Color.
Proof. solve_decision. Defined.

(** The logical clock is a C++ [int]; a traversal of [n] nodes advances it
    by [2 * n], which is taken to fit. *)
Record DfsProps := mkDfsProps {
  parent : NodeType;
  discovery_time : Z;
  finish_time : Z;
  color : Color
}.

Abbreviation DfsPropMap := (gmap NodeType DfsProps).
Abbreviation DfsResult := (Z * list NodeType * DfsPropMap)%type.

Definition set_parent (x : NodeType) (p : DfsProps) : DfsProps :=
  mkDfsProps x (discovery_time p) (finish_time p) (color p).
Definition set_discovery_time (t : Z) (p : DfsProps) : DfsProps :=
  mkDfsProps (parent p) t (finish_time p) (color p).
Definition set_finish_time (t : Z) (p : DfsProps) : DfsProps :=
  mkDfsProps (parent p) (discovery_time p) t (color p).
Definition set_color (c : Color) (p : DfsProps) : DfsProps :=
  mkDfsProps (parent p) (discovery_time p) (finish_time p) c.

(** [dfs_prop_map.at(k).field = ...] *)
Definition props_update (k : NodeType) (f : DfsProps → DfsProps)
    (m : DfsPropMap) : result DfsPropMap :=
  p ← map_at m k; Ok (<[k := f p]> m).

(** [DfsPropMap init_dfs_map() const] *)
Definition init_dfs_map (g : Graph) : DfsPropMap :=
  foldl (λ ret node, <[node := mkDfsProps node_default (-1) (-1) WHITE]> ret)
        ∅ (set_iter (node_set_ g)).

(** The [for] loop of [dfs_visit] over the successors of [node]; [visit]
    stands for the recursive call.  The loop state is the clock, the
    vector [ret] and the property map. *)
Definition visit_successors
    (visit : NodeType → DfsPropMap → Z → result DfsResult)
    (node : NodeType) (succs : list NodeType) (s : DfsResult) : result DfsResult :=
  for_each
    (λ neighbor '(time, ret, m),
       p ← map_at m neighbor;
       if decide (color p = WHITE) then
         m ← props_update neighbor (set_parent node) m;
         '(time, child_vec, m) ← visit neighbor m time;
         Ok (time, ret ++ child_vec, m)
       else Ok (time, ret, m))
    succs s.

(** [DfsResult dfs_visit(node, dfs_prop_map, passed_time) const], by
    recursion on fuel.  The map is passed by reference in the source; the
    map after the call is the third component of the result. *)
Fixpoint dfs_visit_rec (fuel : nat) (g : Graph) (node : NodeType)
    (dfs_prop_map : DfsPropMap) (passed_time : Z) : result DfsResult :=
  match fuel with
  | O => OutOfFuel
  | S fuel' =>
      let time := passed_time + 1 in
      m ← props_update node (set_discovery_time time) dfs_prop_map;
      m ← props_update node (set_color GRAY) m;
      succs ← map_at (succ_map_ g) node;
      '(time, ret, m) ←
        visit_successors (dfs_visit_rec fuel' g) node succs (time, [node], m);
      m ← props_update node (set_color BLACK) m;
      let time := time + 1 in
      m ← props_update node (set_finish_time time) m;
      Ok (time, ret, m)
  end.

(** A call from outside: every nested call turns a white entry of the
    map gray, so the nesting depth is at most the size of the map. *)
Definition dfs_visit (g : Graph) (node : NodeType)
    (dfs_prop_map : DfsPropMap) (passed_time : Z) : result DfsResult :=
  dfs_visit_rec (S (size dfs_prop_map)) g node dfs_prop_map passed_time.

(** [std::less<NodeType>()] *)
Definition std_less (a b : NodeType) : result bool := Ok (node_ltb a b).

(** [DfsPropMap dfs(const Comparator & comparator) const] *)
Definition dfs (comparator : NodeType → NodeType → result bool)
    (g : Graph) : result DfsPropMap :=
  let dfs_prop_map := init_dfs_map g in
  node_vector ← std_sort_with comparator (set_iter (node_set_ g));
  '(_, dfs_prop_map) ←
    for_each
      (λ node '(passed_time, m),
         p ← map_at m node;
         if decide (color p = WHITE) then
           '(passed_time, _, m) ← dfs_visit g node m passed_time;
           Ok (passed_time, m)
         else Ok (passed_time, m))
      node_vector (0, dfs_prop_map);
  Ok dfs_prop_map.

(** [auto dfs_forest(const Comparator & comparator) const] *)
Definition dfs_forest (comparator : NodeType → NodeType → result bool)
    (g : Graph) : result Graph :=
  let ret := Graph_new (node_printer_ g) in
  dfs_map ← dfs comparator g;
  ret ← for_each (λ pair ret, exec (add_node pair.1) ret) (map_iter dfs_map) ret;
  for_each
    (λ pair ret,
       if decide (parent pair.2 ≠ node_default)
       then exec (add_edge (parent pair.2) pair.1) ret
       else Ok ret)
    (map_iter dfs_map) ret.

(* ================================================================ *)
(** ** Strongly connected components *)
(* ================================================================ *)

(** [node_vector.erase(std::remove(begin, end, visited), end)] *)
Definition erase_remove (visited : NodeType) (node_vector : list NodeType) : list NodeType :=
  filter (λ x, x ≠ visited) node_vector.

(** The [while] loop of [scc].  Every round erases at least the front
    node, so the length of the initial [node_vector] is enough fuel.
    [this] is the graph [scc] was called on: its [init_dfs_map] is the
    one the loop uses. *)
Fixpoint scc_loop (fuel : nat) (this rev_dfs_forest : Graph)
    (node_vector : list NodeType) (sccs : list (list NodeType))
    : result (list (list NodeType)) :=
  match node_vector with
  | [] => Ok sccs
  | front_node :: _ =>
      match fuel with
      | O => OutOfFuel
      | S fuel' =>
          let dfs_prop_map := init_dfs_map this in
          '(_, visited_nodes, _) ←
            dfs_visit rev_dfs_forest front_node dfs_prop_map 0;
          let node_vector :=
            foldl (λ nv visited, erase_remove visited nv) node_vector visited_nodes in
          scc_loop fuel' this rev_dfs_forest node_vector (sccs ++ [visited_nodes])
      end
  end.

(** The comparator [scc] hands to [dfs_forest]:
    [dfs_map.at(n1).finish_time > dfs_map.at(n2).finish_time]. *)
Definition by_finish_time (dfs_map : DfsPropMap) (n1 n2 : NodeType) : result bool :=
  p1 ← map_at dfs_map n1;
  p2 ← map_at dfs_map n2;
  Ok (bool_decide (finish_time p1 > finish_time p2)).

(** [auto scc() const] *)
Definition scc (g : Graph) : result (list (list NodeType)) :=
  dfs_map ← dfs std_less g;
  graph_transpose ← transpose g;
  rev_dfs_forest ← dfs_forest (by_finish_time dfs_map) graph_transpose;
  let node_vector := set_iter (node_set_ rev_dfs_forest) in
  scc_loop (length node_vector) g rev_dfs_forest node_vector [].

(* ================================================================ *)
(** ** Well-formed graphs *)
(* ================================================================ *)

(** [b] is in the successor vector of [a]; [a] is in the predecessor
    vector of [b]. *)
Definition has_succ (g : Graph) (a b : NodeType) : Prop :=
  ∃ l, succ_map_ g !! a = Some l ∧ b ∈ l.
Definition has_pred (g : Graph) (b a : NodeType) : Prop :=
  ∃ l, pred_map_ g !! b = Some l ∧ a ∈ l.

(** The invariant of the store: the node set is the key domain of both
    maps, the two maps mirror each other, and every vector is strictly
    ascending (hence free of duplicates). *)
Record wf (g : Graph) : Prop := mk_wf {
  wf_succ_dom : dom (succ_map_ g) = node_set_ g;
  wf_pred_dom : dom (pred_map_ g) = node_set_ g;
  wf_mirror : ∀ a b, has_succ g a b ↔ has_pred g b a;
  wf_succ_sorted : ∀ a l, succ_map_ g !! a = Some l → StronglySorted node_lt l;
  wf_pred_sorted : ∀ b l, pred_map_ g !! b = Some l → StronglySorted node_lt l
}.

(** [evolves g g']: a client holding [g] can hold [g'] after a sequence
    of [add_node] and [add_edge] calls (the graph after a call is the
    second component, also when the call throws). *)
Inductive evolves (g : Graph) : Graph → Prop :=
  | evolves_refl : evolves g g
  | evolves_add_node g' node :
      evolves g g' → evolves g (add_node node g').2
  | evolves_add_edge g' from_node to_node :
      evolves g g' → evolves g (add_edge from_node to_node g').2.

(** The graphs built by [add_node] and [add_edge] calls on a new graph. *)
Definition built (g : Graph) : Prop :=
  ∃ node_printer, evolves (Graph_new node_printer) g.

(* ================================================================ *)
(** ** The pre-order reading of [dfs_visit] *)
(* ================================================================ *)

(** The white entries of a property map. *)
Definition whites (m : DfsPropMap) : gset NodeType :=
  dom (filter (λ kp, color kp.2 = WHITE) m).

(** [successor_calls g node succs m t rets m' t']: going through the vector
    [succs] in order, from the map [m] and the clock [t]: a successor that
    is white in the current map gets [node] as parent and is visited by a
    call of [dfs_visit], which returns its sequence and the new clock and
    map; any other successor is passed over.  [rets] lists the sequences
    returned by the calls, in order; [m'] and [t'] are the map and the
    clock at the end. *)
Inductive successor_calls (g : Graph) (node : NodeType) :
    list NodeType → DfsPropMap → Z → list (list NodeType) → DfsPropMap → Z → Prop :=
  | calls_done m t : successor_calls g node [] m t [] m t
  | calls_white neighbor succs m t p t1 child_vec m1 rets m2 t2 :
      m !! neighbor = Some p → color p = WHITE →
      dfs_visit g neighbor (<[neighbor := set_parent node p]> m) t
        = Ok (t1, child_vec, m1) →
      successor_calls g node succs m1 t1 rets m2 t2 →
      successor_calls g node (neighbor :: succs) m t (child_vec :: rets) m2 t2
  | calls_other neighbor succs m t p rets m2 t2 :
      m !! neighbor = Some p → color p ≠ WHITE →
      successor_calls g node succs m t rets m2 t2 →
      successor_calls g node (neighbor :: succs) m t rets m2 t2.

(** What [dfs_visit g node m t] is to return: [node] is stamped with the
    discovery time [t + 1] and turned gray, its successors are gone through
    as above, then [node] is turned black and stamped with the finish time,
    the clock after one more tick.  The sequence is [node] followed by the
    sequences of the calls, concatenated in order. *)
Definition visit_result (g : Graph) (node : NodeType) (m : DfsPropMap) (t : Z)
    (r : DfsResult) : Prop :=
  ∃ p succs rets t' m2 p2,
    m !! node = Some p ∧ succ_map_ g !! node = Some succs ∧
    successor_calls g node succs
      (<[node := set_color GRAY (set_discovery_time (t + 1) p)]> m) (t + 1)
      rets m2 t' ∧
    m2 !! node = Some p2 ∧
    r = (t' + 1, node :: concat rets,
         <[node := set_finish_time (t' + 1) (set_color BLACK p2)]> m2).

(* ================================================================ *)
(** ** Notions used to state the claims about [scc] *)
(* ================================================================ *)




(** [b] is reachable from [a] along edges of [g]. *)
Definition reachable (g : Graph) : relation NodeType := rtc (has_succ g).

(** The number of components a node appears in. *)
Definition component_count (sccs : list (list NodeType)) (n : NodeType) : nat :=
  length (filter (λ c, n ∈ c) sccs).

(** [sccs] is the decomposition of [g] into strongly connected components:
    every node of [g] is in exactly one component, the components hold
    nodes of [g] only, and two nodes share a component exactly when each
    is reachable from the other. *)
Definition is_scc_partition (g : Graph) (sccs : list (list NodeType)) : Prop :=
  (∀ n, n ∈ node_set_ g → component_count sccs n = 1%nat) ∧
  (∀ c n, c ∈ sccs → n ∈ c → n ∈ node_set_ g) ∧
  (∀ a b, a ∈ node_set_ g → b ∈ node_set_ g →
     (∃ c, c ∈ sccs ∧ a ∈ c ∧ b ∈ c) ↔ reachable g a b ∧ reachable g b a).

(* ================================================================ *)
(** ** What a visit leaves behind *)
(* ================================================================ *)

(** A step along an edge of [g] into the set [W]. *)
Definition white_step (g : Graph) (W : gset NodeType) : relation NodeType :=
  λ x y, has_succ g x y ∧ y ∈ W.

(** The outcome [(t', ret, m')] of a visit of [n] from the map [m] and the
    clock [t]: the sequence starts with [n] and has no duplicates; its
    nodes other than [n] were white; they are now black, stamped inside
    [(t, t']] with distinct finish times, and each but [n] has its parent
    in the sequence, at the other end of an edge; every other entry of
    the map is as it was; the nodes of the sequence are reachable from [n]
    through nodes that were white, and none of their successors is white
    any more. *)
Record visit_post (g : Graph) (n : NodeType) (m : DfsPropMap) (t t' : Z)
    (ret : list NodeType) (m' : DfsPropMap) : Prop := mk_visit_post {
  vp_head : ∃ vs, ret = n :: vs;
  vp_dom : dom m' = dom m;
  vp_frame : ∀ k, k ∉ ret → m' !! k = m !! k;
  vp_stamps : ∀ k, k ∈ ret →
    ∃ p', m' !! k = Some p' ∧ color p' = BLACK ∧
          t < discovery_time p' ∧ discovery_time p' < finish_time p' ∧
          finish_time p' ≤ t';
  vp_origin : ∀ k, k ∈ ret → k ≠ n → k ∈ whites m;
  vp_NoDup : NoDup ret;
  vp_root_parent : ∀ p p', m !! n = Some p → m' !! n = Some p' → parent p' = parent p;
  vp_parents : ∀ k p', k ∈ ret → k ≠ n → m' !! k = Some p' →
    parent p' ∈ ret ∧ has_succ g (parent p') k;
  vp_finish_inj : ∀ k1 k2 p1 p2, k1 ∈ ret → k2 ∈ ret →
    m' !! k1 = Some p1 → m' !! k2 = Some p2 →
    finish_time p1 = finish_time p2 → k1 = k2;
  vp_reach : ∀ k, k ∈ ret → rtc (white_step g (whites m ∖ {[n]})) n k;
  vp_closed : ∀ x y, x ∈ ret → has_succ g x y → y ∉ whites m'
}.

(** The same for the loop of [dfs_visit] over the vector [l] of successors
    of [node], from the state [(t, ret, m)] to the state [(t', ret', m')]:
    [ext] is what the loop appends to [ret]. *)
Record loop_post (g : Graph) (node : NodeType) (l : list NodeType)
    (m : DfsPropMap) (t t' : Z) (ext : list NodeType) (m' : DfsPropMap)
    : Prop := mk_loop_post {
  lp_clock : t ≤ t';
  lp_dom : dom m' = dom m;
  lp_frame : ∀ k, k ∉ ext → m' !! k = m !! k;
  lp_stamps : ∀ k, k ∈ ext →
    ∃ p', m' !! k = Some p' ∧ color p' = BLACK ∧
          t < discovery_time p' ∧ discovery_time p' < finish_time p' ∧
          finish_time p' ≤ t';
  lp_origin : ∀ k, k ∈ ext → k ∈ whites m;
  lp_NoDup : NoDup ext;
  lp_parents : ∀ k p', k ∈ ext → m' !! k = Some p' →
    (parent p' = node ∨ parent p' ∈ ext) ∧ has_succ g (parent p') k;
  lp_finish_inj : ∀ k1 k2 p1 p2, k1 ∈ ext → k2 ∈ ext →
    m' !! k1 = Some p1 → m' !! k2 = Some p2 →
    finish_time p1 = finish_time p2 → k1 = k2;
  lp_reach : ∀ k, k ∈ ext →
    ∃ x, x ∈ l ∧ x ∈ whites m ∧ rtc (white_step g (whites m)) x k;
  lp_closed : ∀ x y, x ∈ ext → has_succ g x y → y ∉ whites m';
  lp_processed : ∀ y, y ∈ l → y ∉ whites m'
}.

(** What holds of the clock [t] and the property map [m] between two
    visits of the outer loop of [dfs]: every node has an entry, which is
    either the initial one or that of a finished node, stamped inside
    [(0, t]] and with a parent that is [NodeType()] or the source of an edge
    into the node; finished nodes have distinct finish times; and the
    clock has made two ticks for every finished node. *)
Record dfs_inv (g : Graph) (t : Z) (m : DfsPropMap) : Prop := mk_dfs_inv {
  di_dom : dom m = node_set_ g;
  di_entries : ∀ k p, m !! k = Some p →
    p = mkDfsProps node_default (-1) (-1) WHITE ∨
    (color p = BLACK ∧ 0 < discovery_time p ∧ discovery_time p < finish_time p ∧
     finish_time p ≤ t ∧ (parent p = node_default ∨ has_succ g (parent p) k));
  di_finish_inj : ∀ k1 k2 p1 p2, m !! k1 = Some p1 → m !! k2 = Some p2 →
    color p1 = BLACK → color p2 = BLACK →
    finish_time p1 = finish_time p2 → k1 = k2;
  di_clock : t = 2 * Z.of_nat (size (node_set_ g ∖ whites m))
}.

(* ================================================================ *)
(** ** Discovery and finish times *)
(* ================================================================ *)

(** The interval from discovery to finish of [q] lies inside that of [p];
    the two intervals lie apart. *)
Definition stamps_inside (p q : DfsProps) : Prop :=
  discovery_time p ≤ discovery_time q ∧ finish_time q ≤ finish_time p.
Definition stamps_apart (p q : DfsProps) : Prop :=
  finish_time p < discovery_time q ∨ finish_time q < discovery_time p.

(** [a] was discovered before [b], by the entries of [m]. *)
Definition discovered_before (m : DfsPropMap) : relation NodeType :=
  λ a b, ∀ pa pb, m !! a = Some pa → m !! b = Some pb →
                  discovery_time pa < discovery_time pb.

(** The interval of the entry [p] lies strictly inside that of the entry
    of its parent. *)
Definition inside_parent (m : DfsPropMap) (p : DfsProps) : Prop :=
  ∃ pp, m !! parent p = Some pp ∧
        discovery_time pp < discovery_time p ∧ finish_time p < finish_time pp.

(** How the stamps of the nodes [ret] finished by a visit, or by the loop
    over the successors, relate in the map [m'] it leaves, [m] being the
    map it started from: two intervals are nested or apart; a node whose
    interval lies inside that of another is reachable from it; and an
    edge from one of the nodes leads to a node that was not white
    before, or to one of the nodes that finished earlier or whose
    interval encloses that of the source. *)
Record visit_times (g : Graph) (m : DfsPropMap) (ret : list NodeType)
    (m' : DfsPropMap) : Prop := mk_visit_times {
  vt_paren : ∀ k1 k2 p1 p2, k1 ∈ ret → k2 ∈ ret →
    m' !! k1 = Some p1 → m' !! k2 = Some p2 →
    stamps_inside p1 p2 ∨ stamps_inside p2 p1 ∨ stamps_apart p1 p2;
  vt_desc : ∀ k1 k2 p1 p2, k1 ∈ ret → k2 ∈ ret →
    m' !! k1 = Some p1 → m' !! k2 = Some p2 →
    stamps_inside p1 p2 → reachable g k1 k2;
  vt_edges : ∀ x y px, x ∈ ret → has_succ g x y → m' !! x = Some px →
    ((y ∉ ret) ∧ (y ∉ whites m)) ∨
    ∃ py, y ∈ ret ∧ m' !! y = Some py ∧
          (finish_time py < finish_time px ∨ stamps_inside py px)
}.

(** The same between two visits of the outer loop of [dfs], for the
    finished nodes of the map; and the interval of a finished node lies
    strictly inside that of its parent, unless the parent is
    [NodeType()]. *)
Record dfs_times (g : Graph) (m : DfsPropMap) : Prop := mk_dfs_times {
  dt_paren : ∀ k1 k2 p1 p2, m !! k1 = Some p1 → m !! k2 = Some p2 →
    color p1 = BLACK → color p2 = BLACK →
    stamps_inside p1 p2 ∨ stamps_inside p2 p1 ∨ stamps_apart p1 p2;
  dt_desc : ∀ k1 k2 p1 p2, m !! k1 = Some p1 → m !! k2 = Some p2 →
    color p1 = BLACK → color p2 = BLACK →
    stamps_inside p1 p2 → reachable g k1 k2;
  dt_edges : ∀ x y px, has_succ g x y → m !! x = Some px → color px = BLACK →
    ∃ py, m !! y = Some py ∧ color py = BLACK ∧
          (finish_time py < finish_time px ∨ stamps_inside py px);
  dt_tree : ∀ k p, m !! k = Some p → color p = BLACK →
    parent p = node_default ∨ inside_parent m p
}.

(** [a] is the parent of the finished node [b]. *)
Definition tree_step (m : DfsPropMap) : relation NodeType :=
  λ a b, ∃ pb, m !! b = Some pb ∧ color pb = BLACK ∧ parent pb = a.

(** Every finished node of the map was finished by a visit the outer loop
    of [dfs] started from a node [r], when the white nodes were [W]: [r]
    was white and came, in the order [R] of the node vector, before the
    other white nodes; an edge into a node of [W] came from a node of
    [W]; [r] is finished, with the parent it had at first; the node, and
    its parent unless that is [NodeType()], are reached from [r] through
    nodes of [W]; and what [r] reaches through nodes of [W] it reaches
    along parents. *)
Definition dfs_roots (R : relation NodeType) (g : Graph) (m : DfsPropMap) : Prop :=
  ∀ k p, m !! k = Some p → color p = BLACK →
    ∃ r (W : gset NodeType), r ∈ W ∧ (∀ x, x ∈ W → R r x) ∧
      (∀ x y, has_succ g x y → y ∈ W → x ∈ W) ∧
      (∃ pr, m !! r = Some pr ∧ color pr = BLACK ∧ parent pr = node_default) ∧
      rtc (white_step g (W ∖ {[r]})) r k ∧
      (parent p = node_default ∨ rtc (white_step g (W ∖ {[r]})) r (parent p)) ∧
      (∀ k', rtc (white_step g (W ∖ {[r]})) r k' → rtc (tree_step m) r k').

(** [r] comes no later than [x] in the order of decreasing finish times of
    [dfs_map], the order [scc] sorts the nodes in for its second search. *)
Definition finish_order (dfs_map : DfsPropMap) : relation NodeType :=
  λ r x, ∀ pr px, dfs_map !! r = Some pr → dfs_map !! x = Some px →
                  finish_time px ≤ finish_time pr.

(* ================================================================ *)
(** ** Reading the entries of an adjacency map *)
(* ================================================================ *)

(** For a list of entries [(u, l)] of an adjacency map, taken in order:
    the keys [u] whose vector [l] contains [v], and the concatenation of
    the vectors stored under the key [w]. *)
Fixpoint sources_of (es : list (NodeType * list NodeType)) (v : NodeType)
    : list NodeType :=
  match es with
  | [] => []
  | e :: es' => if decide (v ∈ e.2) then e.1 :: sources_of es' v else sources_of es' v
  end.

Fixpoint targets_of (es : list (NodeType * list NodeType)) (w : NodeType)
    : list NodeType :=
  match es with
  | [] => []
  | e :: es' => if decide (e.1 = w) then e.2 ++ targets_of es' w else targets_of es' w
  end.

End graph.

(** [Graph<int>]: the order of the integers, and [int()], which is zero. *)

Global Program Instance int_node : Node Z := {| node_lt := Z.lt; node_default := 0 |}.
Next Obligation. intros x y. unfold node_lt. lia. Qed.

(** The graph over [int] nodes obtained from a new graph by adding the
    nodes [ns] and then the edges [es], in this order. *)
Definition graph_of (ns : list Z) (es : list (Z * Z)) : Graph :=
  foldl (λ g e, (add_edge e.1 e.2 g).2)
        (foldl (λ g n, (add_node n g).2) (Graph_new pretty) ns) es.

(** The nodes 1, 2, 3 with the edges [1 → 3], [3 → 2] and [2 → 3]: the
    strongly connected components are [{1}] and [{2, 3}]. *)
Definition tailed_cycle : Graph := graph_of [1; 2; 3] [(1, 3); (3, 2); (2, 3)].

(** Scenario A over [int]: the nodes 1, 2, 3 and the cycle through them;
    and the same cycle through 0, 1, 2, where 0 is [int()]. *)
Definition int_cycle : Graph := graph_of [1; 2; 3] [(1, 2); (2, 3); (3, 1)].
Definition int_cycle_from_zero : Graph := graph_of [0; 1; 2] [(0, 1); (1, 2); (2, 0)].


(* ================================================================== *)
(** ** Properties of [std_sort] *)
(* ================================================================== *)

Section std_sort_facts.
Context {A : Type} (R : relation A) `{!RelDecision R, !StrictOrder R}.

Local Abbreviation comp := (λ x y : A, bool_decide (R x y)).

Lemma sort_insert_Permutation x l : sort_insert comp x l ≡ₚ x :: l.
Proof.
  induction l as [|y l IH]; simpl; [done|].
  case_bool_decide; [|done].
  rewrite IH. apply Permutation_swap.
Qed.

Lemma std_sort_Permutation l : std_sort comp l ≡ₚ l.
Proof.
  induction l as [|x l IH]; simpl; [done|].
  by rewrite sort_insert_Permutation, IH.
Qed.

Lemma elem_of_std_sort x l : x ∈ std_sort comp l ↔ x ∈ l.
Proof. by rewrite std_sort_Permutation. Qed.

Lemma StronglySorted_lt_NoDup l : StronglySorted R l → NoDup l.
Proof.
  induction 1 as [|x l _ IH Hx]; constructor; [|done].
  intros Hin. rewrite Forall_forall in Hx.
  by eapply (irreflexivity R x), Hx.
Qed.

(** Inserting an element comparable with every element of a sorted list. *)
Lemma sort_insert_StronglySorted x l :
  StronglySorted R l →
  (∀ y, y ∈ l → R x y ∨ R y x) →
  StronglySorted R (sort_insert comp x l).
Proof.
  induction 1 as [|y l Hl IH Hy]; intros Hcmp; simpl.
  { repeat constructor. }
  case_bool_decide as Hyx.
  - constructor.
    + apply IH. intros z Hz. apply Hcmp. rewrite elem_of_cons; auto.
    + rewrite Forall_forall. intros z Hz.
      rewrite sort_insert_Permutation in Hz.
      apply elem_of_cons in Hz as [->|Hz]; [done|].
      rewrite Forall_forall in Hy. by apply Hy.
  - assert (R x y) as Hxy.
    { destruct (Hcmp y) as [?|?]; [rewrite elem_of_cons; auto|done|done]. }
    constructor; [by constructor|].
    constructor; [done|].
    rewrite Forall_forall in Hy |- *. intros z Hz.
    transitivity y; [done|by apply Hy].
Qed.

Lemma std_sort_StronglySorted l :
  NoDup l →
  (∀ x y, x ∈ l → y ∈ l → x ≠ y → R x y ∨ R y x) →
  StronglySorted R (std_sort comp l).
Proof.
  induction 1 as [|x l Hx Hnd IH]; intros Hcmp; simpl.
  { constructor. }
  apply sort_insert_StronglySorted.
  - apply IH. intros y z Hy Hz. apply Hcmp; set_solver.
  - intros y Hy. rewrite elem_of_std_sort in Hy.
    apply Hcmp; [set_solver..|]. intros Heq. by subst.
Qed.

(** A sorted vector is left as it is. *)
Lemma std_sort_id l : StronglySorted R l → std_sort comp l = l.
Proof.
  induction 1 as [|x l Hl IH Hx]; simpl; [done|].
  rewrite IH. destruct l as [|y l]; simpl; [done|].
  apply Forall_cons in Hx as [Hxy _].
  rewrite bool_decide_eq_false_2; [done|].
  intros Hyx. apply (irreflexivity R x). by transitivity y.
Qed.

(** Two sorted vectors with the same elements are the same vector. *)
Lemma StronglySorted_lt_unique l1 l2 :
  StronglySorted R l1 → StronglySorted R l2 →
  (∀ x, x ∈ l1 ↔ x ∈ l2) → l1 = l2.
Proof.
  intros H1 H2 Hel.
  apply (StronglySorted_unique_strong R); [|done|done|].
  - intros x y _ _ Hxy Hyx. destruct (irreflexivity R x). by transitivity y.
  - apply NoDup_Permutation; auto using StronglySorted_lt_NoDup.
Qed.

(** What [std::sort] returns is determined by the set of elements. *)
Lemma std_sort_unique l l' :
  NoDup l →
  (∀ x y, x ∈ l → y ∈ l → x ≠ y → R x y ∨ R y x) →
  StronglySorted R l' → (∀ x, x ∈ l ↔ x ∈ l') →
  std_sort comp l = l'.
Proof.
  intros Hnd Hcmp Hl' Hel.
  apply StronglySorted_lt_unique; [by apply std_sort_StronglySorted|done|].
  intros x. by rewrite elem_of_std_sort.
Qed.
End std_sort_facts.

(* ================================================================== *)
(** ** Iteration order of sets and maps *)
(* ================================================================== *)

Section iteration.
Context `{Node NodeType}.

Lemma node_lt_total (x y : NodeType) : x ≠ y → node_lt x y ∨ node_lt y x.
Proof. destruct (trichotomy node_lt x y) as [?|[?|?]]; auto. by intros []. Qed.

Lemma set_iter_Permutation (s : gset NodeType) : set_iter s ≡ₚ elements s.
Proof. apply (std_sort_Permutation node_lt). Qed.

Lemma elem_of_set_iter x (s : gset NodeType) : x ∈ set_iter s ↔ x ∈ s.
Proof. by rewrite set_iter_Permutation, elem_of_elements. Qed.

Lemma set_iter_sorted (s : gset NodeType) : StronglySorted node_lt (set_iter s).
Proof.
  apply (std_sort_StronglySorted node_lt); [apply NoDup_elements|].
  intros x y _ _. apply node_lt_total.
Qed.

Lemma set_iter_NoDup (s : gset NodeType) : NoDup (set_iter s).
Proof. apply (StronglySorted_lt_NoDup node_lt), set_iter_sorted. Qed.

Lemma set_iter_unique (s : gset NodeType) l :
  StronglySorted node_lt l → (∀ x, x ∈ l ↔ x ∈ s) → set_iter s = l.
Proof.
  intros Hl Hel. apply (StronglySorted_lt_unique node_lt); [apply set_iter_sorted|done|].
  intros x. by rewrite elem_of_set_iter, Hel.
Qed.

Lemma set_iter_empty : set_iter (∅ : gset NodeType) = [].
Proof. unfold set_iter. by rewrite elements_empty. Qed.

Global Instance key_lt_dec {V} : RelDecision (key_lt (V:=V)).
Proof. intros p q. unfold key_lt. apply _. Defined.

Global Instance key_lt_strict {V} : StrictOrder (key_lt (V:=V)).
Proof.
  split.
  - intros p. apply (irreflexivity node_lt).
  - intros p q r. unfold key_lt. apply transitivity.
Qed.

Lemma map_iter_Permutation {V} (m : gmap NodeType V) : map_iter m ≡ₚ map_to_list m.
Proof. apply (std_sort_Permutation key_lt). Qed.

Lemma elem_of_map_iter {V} (m : gmap NodeType V) k v :
  (k, v) ∈ map_iter m ↔ m !! k = Some v.
Proof. by rewrite map_iter_Permutation, elem_of_map_to_list. Qed.

Lemma map_iter_sorted {V} (m : gmap NodeType V) : StronglySorted key_lt (map_iter m).
Proof.
  apply (std_sort_StronglySorted key_lt); [apply NoDup_map_to_list|].
  intros [k v] [k' v'] Hp Hq Hne. apply node_lt_total. simpl. intros ->.
  apply elem_of_map_to_list in Hp, Hq. congruence.
Qed.

Lemma map_iter_empty {V} : map_iter (∅ : gmap NodeType V) = [].
Proof. unfold map_iter. by rewrite map_to_list_empty. Qed.

Lemma map_iter_keys_sorted {V} (m : gmap NodeType V) :
  StronglySorted node_lt (map_iter m).*1.
Proof.
  pose proof (map_iter_sorted m) as Hs.
  induction Hs as [|p l Hl IH Hp]; simpl; constructor; [done|].
  rewrite Forall_fmap. by eapply Forall_impl.
Qed.

(** A map is visited in the order its key set is. *)
Lemma map_iter_keys {V} (m : gmap NodeType V) : (map_iter m).*1 = set_iter (dom m).
Proof.
  symmetry. apply set_iter_unique; [apply map_iter_keys_sorted|].
  intros k. rewrite elem_of_dom, list_elem_of_fmap. split.
  - intros ([k' v] & -> & Hin). apply elem_of_map_iter in Hin. by exists v.
  - intros [v Hv]. exists (k, v). by rewrite elem_of_map_iter.
Qed.
End iteration.

(* ================================================================== *)
(** ** The graph store: [add_node] and [add_edge] *)
(* ================================================================== *)

Section store.
Context `{Node NodeType}.
Implicit Types (g : Graph (NodeType:=NodeType)) (a b n : NodeType).

Lemma add_node_fresh g n :
  n ∉ node_set_ g →
  add_node n g = (Ok (), mkGraph ({[n]} ∪ node_set_ g) (<[n := []]> (succ_map_ g))
                                 (<[n := []]> (pred_map_ g)) (node_printer_ g)).
Proof. intros Hn. unfold add_node. by rewrite decide_False. Qed.

Lemma add_node_dup g n :
  n ∈ node_set_ g → add_node n g = (Throw DuplicateNode, g).
Proof. intros Hn. unfold add_node. by rewrite decide_True. Qed.

Lemma add_edge_unknown_from g a b :
  a ∉ node_set_ g → add_edge a b g = (Throw UnknownFromNode, g).
Proof. intros Ha. unfold add_edge, mut_bind, get_graph. by rewrite decide_True. Qed.

Lemma add_edge_unknown_to g a b :
  a ∈ node_set_ g → b ∉ node_set_ g → add_edge a b g = (Throw UnknownToNode, g).
Proof.
  intros Ha Hb. unfold add_edge, mut_bind, get_graph.
  rewrite decide_False by (by intros []). by rewrite decide_True.
Qed.

(** The edge is there already: nothing changes. *)
Lemma add_edge_present g a b succs preds :
  a ∈ node_set_ g → b ∈ node_set_ g →
  succ_map_ g !! a = Some succs → b ∈ succs →
  pred_map_ g !! b = Some preds → a ∈ preds →
  add_edge a b g = (Ok (), g).
Proof.
  intros Ha Hb Hs Hbs Hp Hap. unfold add_edge, mut_bind, get_graph.
  rewrite !decide_False by (by intros []).
  unfold succ_at, pred_at, map_at. rewrite Hs. rewrite decide_True by done.
  rewrite Hp. by rewrite decide_True.
Qed.

(** The edge is new: both vectors grow by one element and are sorted. *)
Lemma add_edge_absent g a b succs preds :
  a ∈ node_set_ g → b ∈ node_set_ g →
  succ_map_ g !! a = Some succs → b ∉ succs →
  pred_map_ g !! b = Some preds →
  add_edge a b g =
    (Ok (), mkGraph (node_set_ g)
                    (<[a := std_sort node_ltb (succs ++ [b])]> (succ_map_ g))
                    (<[b := std_sort node_ltb (preds ++ [a])]> (pred_map_ g))
                    (node_printer_ g)).
Proof.
  intros Ha Hb Hs Hbs Hp. unfold add_edge, mut_bind, get_graph.
  rewrite !decide_False by (by intros []).
  unfold succ_at, pred_at, map_at. rewrite Hs. rewrite decide_False by done.
  unfold succ_update, pred_update. rewrite Hs.
  cbn [succ_map_ pred_map_ node_set_ node_printer_]. rewrite Hp.
  cbn [succ_map_ pred_map_ node_set_ node_printer_].
  rewrite lookup_insert_eq.
  cbn [succ_map_ pred_map_ node_set_ node_printer_].
  rewrite lookup_insert_eq. by rewrite !insert_insert_eq.
Qed.

Lemma exec_add_node_fresh g n :
  n ∉ node_set_ g →
  exec (add_node n) g =
    Ok (mkGraph ({[n]} ∪ node_set_ g) (<[n := []]> (succ_map_ g))
                (<[n := []]> (pred_map_ g)) (node_printer_ g)).
Proof. intros Hn. unfold exec. by rewrite add_node_fresh. Qed.


(** *** Well-formedness is kept *)

Lemma wf_new node_printer : wf (Graph_new node_printer).
Proof.
  split; simpl; try by rewrite dom_empty_L.
  - intros a b. unfold has_succ, has_pred; simpl.
    split; intros (l & Hl & _); by rewrite lookup_empty in Hl.
  - intros a l. by rewrite lookup_empty.
  - intros a l. by rewrite lookup_empty.
Qed.

Lemma wf_succ_lookup g a : wf g → a ∈ node_set_ g → is_Some (succ_map_ g !! a).
Proof. intros Hwf Ha. apply elem_of_dom. by rewrite (wf_succ_dom g Hwf). Qed.

Lemma wf_pred_lookup g a : wf g → a ∈ node_set_ g → is_Some (pred_map_ g !! a).
Proof. intros Hwf Ha. apply elem_of_dom. by rewrite (wf_pred_dom g Hwf). Qed.

Lemma wf_succ_node g a l b :
  wf g → succ_map_ g !! a = Some l → b ∈ l → a ∈ node_set_ g ∧ b ∈ node_set_ g.
Proof.
  intros Hwf Hl Hb. split.
  - rewrite <- (wf_succ_dom g Hwf). apply elem_of_dom. by eexists.
  - destruct (proj1 (wf_mirror g Hwf a b)) as (l' & Hl' & _); [by exists l|].
    rewrite <- (wf_pred_dom g Hwf). apply elem_of_dom. by eexists.
Qed.

Lemma wf_pred_node g b l a :
  wf g → pred_map_ g !! b = Some l → a ∈ l → a ∈ node_set_ g ∧ b ∈ node_set_ g.
Proof.
  intros Hwf Hl Ha. split.
  - destruct (proj2 (wf_mirror g Hwf a b)) as (l' & Hl' & _); [by exists l|].
    rewrite <- (wf_succ_dom g Hwf). apply elem_of_dom. by eexists.
  - rewrite <- (wf_pred_dom g Hwf). apply elem_of_dom. by eexists.
Qed.

(** The vectors of a well-formed graph have no duplicate entries. *)
Lemma wf_no_duplicates g a l :
  wf g → succ_map_ g !! a = Some l ∨ pred_map_ g !! a = Some l → NoDup l.
Proof.
  intros Hwf [Hl|Hl]; apply (StronglySorted_lt_NoDup node_lt).
  - by eapply (wf_succ_sorted g).
  - by eapply (wf_pred_sorted g).
Qed.

Lemma wf_add_node g n : wf g → wf (add_node n g).2.
Proof.
  intros Hwf. destruct (decide (n ∈ node_set_ g)) as [Hn|Hn].
  { by rewrite add_node_dup. }
  rewrite add_node_fresh by done. simpl.
  assert (succ_map_ g !! n = None) as Hsn.
  { apply not_elem_of_dom. by rewrite (wf_succ_dom g Hwf). }
  assert (pred_map_ g !! n = None) as Hpn.
  { apply not_elem_of_dom. by rewrite (wf_pred_dom g Hwf). }
  split; simpl.
  - by rewrite dom_insert_L, (wf_succ_dom g Hwf).
  - by rewrite dom_insert_L, (wf_pred_dom g Hwf).
  - intros a b. unfold has_succ, has_pred; simpl. split.
    + intros (l & Hl & Hb). apply lookup_insert_Some in Hl as [[<- <-]|[Hne Hl]].
      { by apply elem_of_nil in Hb. }
      destruct (proj1 (wf_mirror g Hwf a b)) as (l' & Hl' & Ha); [by exists l|].
      exists l'. split; [|done]. rewrite lookup_insert_ne; [done|congruence].
    + intros (l & Hl & Ha). apply lookup_insert_Some in Hl as [[<- <-]|[Hne Hl]].
      { by apply elem_of_nil in Ha. }
      destruct (proj2 (wf_mirror g Hwf a b)) as (l' & Hl' & Hb); [by exists l|].
      exists l'. split; [|done]. rewrite lookup_insert_ne; [done|congruence].
  - intros a l Hl. apply lookup_insert_Some in Hl as [[<- <-]|[Hne Hl]].
    + constructor.
    + by eapply wf_succ_sorted.
  - intros a l Hl. apply lookup_insert_Some in Hl as [[<- <-]|[Hne Hl]].
    + constructor.
    + by eapply wf_pred_sorted.
Qed.

(** Appending a new element to a sorted vector and sorting again. *)
Lemma std_sort_snoc_sorted (l : list NodeType) x :
  StronglySorted node_lt l → x ∉ l →
  StronglySorted node_lt (std_sort node_ltb (l ++ [x])).
Proof.
  intros Hl Hx. apply (std_sort_StronglySorted node_lt).
  - apply NoDup_app. split_and!.
    + by apply (StronglySorted_lt_NoDup node_lt).
    + intros y Hy ->%list_elem_of_singleton. done.
    + apply NoDup_singleton.
  - intros y z _ _. apply node_lt_total.
Qed.

Lemma elem_of_std_sort_snoc (l : list NodeType) x y :
  y ∈ std_sort node_ltb (l ++ [x]) ↔ y ∈ l ∨ y = x.
Proof.
  etrans; [apply (elem_of_std_sort node_lt)|].
  by rewrite elem_of_app, list_elem_of_singleton.
Qed.

(** Membership in the vectors of a map after one vector grew by [b]. *)
Lemma lookup_insert_snoc_elem (m : gmap NodeType (list NodeType)) a b l0 x y :
  m !! a = Some l0 →
  (∃ l, <[a := std_sort node_ltb (l0 ++ [b])]> m !! x = Some l ∧ y ∈ l) ↔
  (∃ l, m !! x = Some l ∧ y ∈ l) ∨ (x = a ∧ y = b).
Proof.
  intros Ha. split.
  - intros (l & Hl & Hy). apply lookup_insert_Some in Hl as [[<- <-]|[Hne Hl]].
    + apply elem_of_std_sort_snoc in Hy as [Hy| ->]; [|by right].
      left. by exists l0.
    + left. by exists l.
  - intros [(l & Hl & Hy)|[-> ->]].
    + destruct (decide (a = x)) as [->|Hne].
      * eexists. rewrite lookup_insert_eq. split; [done|].
        apply elem_of_std_sort_snoc. left. congruence.
      * exists l. by rewrite lookup_insert_ne.
    + eexists. rewrite lookup_insert_eq. split; [done|].
      apply elem_of_std_sort_snoc. by right.
Qed.

(** A successful [add_edge a b] between two nodes of a well-formed graph:
    the node set and the printer stay, and the edges are those of before
    and [(a, b)]. *)
Lemma add_edge_ok g a b :
  wf g → a ∈ node_set_ g → b ∈ node_set_ g →
  ∃ g', add_edge a b g = (Ok (), g') ∧ wf g' ∧
    node_set_ g' = node_set_ g ∧ node_printer_ g' = node_printer_ g ∧
    ∀ x y, has_succ g' x y ↔ has_succ g x y ∨ (x = a ∧ y = b).
Proof.
  intros Hwf Ha Hb.
  destruct (wf_succ_lookup g a Hwf Ha) as [succs Hs].
  destruct (wf_pred_lookup g b Hwf Hb) as [preds Hp].
  destruct (decide (b ∈ succs)) as [Hbs|Hbs].
  { exists g. rewrite (add_edge_present g a b succs preds); try done.
    - split_and!; try done. intros x y. split; [by left|].
      intros [?|[-> ->]]; [done|]. by exists succs.
    - destruct (proj1 (wf_mirror g Hwf a b)) as (l' & Hl' & Hal); [by exists succs|].
      congruence. }
  assert (a ∉ preds) as Hap.
  { intros Hap. destruct (proj2 (wf_mirror g Hwf a b)) as (l' & Hl' & Hbl);
      [by exists preds|]. congruence. }
  eexists. split; [by apply (add_edge_absent g a b succs preds)|].
  split_and!; try done; [|intros x y; by apply lookup_insert_snoc_elem].
  split; simpl.
  - rewrite dom_insert_L, (wf_succ_dom g Hwf). set_solver.
  - rewrite dom_insert_L, (wf_pred_dom g Hwf). set_solver.
  - intros x y. unfold has_succ, has_pred; simpl.
    rewrite !lookup_insert_snoc_elem by done.
    pose proof (wf_mirror g Hwf x y) as Hm. unfold has_succ, has_pred in Hm.
    rewrite Hm. naive_solver.
  - intros x l Hl. apply lookup_insert_Some in Hl as [[<- <-]|[Hne Hl]].
    + apply std_sort_snoc_sorted; [by eapply wf_succ_sorted|done].
    + by eapply wf_succ_sorted.
  - intros x l Hl. apply lookup_insert_Some in Hl as [[<- <-]|[Hne Hl]].
    + apply std_sort_snoc_sorted; [by eapply wf_pred_sorted|done].
    + by eapply wf_pred_sorted.
Qed.

Lemma wf_add_edge g a b : wf g → wf (add_edge a b g).2.
Proof.
  intros Hwf.
  destruct (decide (a ∈ node_set_ g)) as [Ha|Ha]; [|by rewrite add_edge_unknown_from].
  destruct (decide (b ∈ node_set_ g)) as [Hb|Hb]; [|by rewrite add_edge_unknown_to].
  destruct (add_edge_ok g a b Hwf Ha Hb) as (g' & -> & Hwf' & _). done.
Qed.

Lemma evolves_wf g g' : wf g → evolves g g' → wf g'.
Proof. induction 2; auto using wf_add_node, wf_add_edge. Qed.

Lemma built_wf g : built g → wf g.
Proof. intros [p Hev]. eapply evolves_wf; [apply wf_new|done]. Qed.

(** Nodes are never removed. *)
Lemma add_node_node_set g n x : x ∈ node_set_ g → x ∈ node_set_ (add_node n g).2.
Proof.
  intros Hx. unfold add_node. case_decide; simpl; [done|]. set_solver.
Qed.

Lemma add_edge_node_set g a b : node_set_ (add_edge a b g).2 = node_set_ g.
Proof.
  unfold add_edge, mut_bind, get_graph, throw, mut_ret, succ_at, pred_at,
    succ_update, pred_update, map_at.
  repeat (case_decide || case_match || simplify_eq/= || done).
Qed.

Lemma evolves_node_set g g' x : evolves g g' → x ∈ node_set_ g → x ∈ node_set_ g'.
Proof.
  induction 1; intros Hx; [done|by apply add_node_node_set; auto|].
  rewrite add_edge_node_set. auto.
Qed.
End store.

(* ================================================================== *)
(** ** Claims about the store *)
(* ================================================================== *)

Section store_claims.
Context `{Node NodeType}.
Implicit Types (g : Graph (NodeType:=NodeType)) (a b n : NodeType).

(** C7: [add_node n] throws the duplicate-node error exactly when [n] is
    in the node set.  When [n] is new the call succeeds and the graph
    gains [n] in the node set, mapped to the empty vector in both maps
    (nothing else changes); from then on, whatever [add_node] and
    [add_edge] calls follow, [add_node n] throws the duplicate-node error
    and leaves the graph alone. *)
Theorem add_node_duplicate_iff g n :
  ((add_node n g).1 = Throw DuplicateNode ↔ n ∈ node_set_ g) ∧
  (n ∉ node_set_ g →
     ∃ g', add_node n g = (Ok (), g') ∧
       node_set_ g' = {[n]} ∪ node_set_ g ∧
       succ_map_ g' = <[n := []]> (succ_map_ g) ∧
       pred_map_ g' = <[n := []]> (pred_map_ g) ∧
       ∀ g'', evolves g' g'' → add_node n g'' = (Throw DuplicateNode, g'')).
Proof.
  split.
  - split.
    + intros Hthrow. destruct (decide (n ∈ node_set_ g)) as [|Hn]; [done|].
      by rewrite add_node_fresh in Hthrow.
    + intros Hn. by rewrite add_node_dup.
  - intros Hn. eexists. split; [by apply add_node_fresh|]. simpl.
    split_and!; try done.
    intros g'' Hev. apply add_node_dup.
    eapply evolves_node_set; [done|]. simpl. set_solver.
Qed.

(** C10: [add_edge from to] throws one of its two unknown-node errors
    exactly when an endpoint is missing from the node set (the check of
    [from] comes first), and then the graph after the call is the graph
    before it. *)
Theorem add_edge_unknown_node_atomic g a b :
  ((add_edge a b g).1 = Throw UnknownFromNode ↔ a ∉ node_set_ g) ∧
  ((add_edge a b g).1 = Throw UnknownToNode ↔ a ∈ node_set_ g ∧ b ∉ node_set_ g) ∧
  (a ∉ node_set_ g ∨ b ∉ node_set_ g → (add_edge a b g).2 = g).
Proof.
  assert (∀ e, e = UnknownFromNode ∨ e = UnknownToNode →
            a ∈ node_set_ g → b ∈ node_set_ g → (add_edge a b g).1 ≠ Throw e) as Hother.
  { intros e He Ha Hb.
    unfold add_edge, mut_bind, get_graph, throw, mut_ret, succ_at, pred_at,
      succ_update, pred_update, map_at.
    rewrite !decide_False by (by intros []).
    repeat (case_decide || case_match || simplify_eq/= || done);
      destruct He; by subst. }
  split_and!.
  - split; [|intros Ha; by rewrite add_edge_unknown_from].
    intros Hthrow Ha. destruct (decide (b ∈ node_set_ g)) as [Hb|Hb].
    + by eapply Hother; [left| | |].
    + by rewrite add_edge_unknown_to in Hthrow.
  - split; [|intros [Ha Hb]; by rewrite add_edge_unknown_to].
    intros Hthrow. destruct (decide (a ∈ node_set_ g)) as [Ha|Ha].
    + split; [done|]. intros Hb. by eapply Hother; [right| | |].
    + by rewrite add_edge_unknown_from in Hthrow.
  - intros Hab. destruct (decide (a ∈ node_set_ g)) as [Ha|Ha].
    + destruct Hab as [?|Hb]; [done|]. by rewrite add_edge_unknown_to.
    + by rewrite add_edge_unknown_from.
Qed.

(** C6: on a well-formed graph (as every graph the public operations
    produce is) that has the nodes [a] and [b], [add_edge a b]
    returns normally, and a second [add_edge a b] returns normally too and
    leaves the graph exactly as the first call left it. *)
Theorem add_edge_idempotent g a b :
  wf g → a ∈ node_set_ g → b ∈ node_set_ g →
  ∃ g1, add_edge a b g = (Ok (), g1) ∧ add_edge a b g1 = (Ok (), g1).
Proof.
  intros Hwf Ha Hb.
  destruct (wf_succ_lookup g a Hwf Ha) as [succs Hs].
  destruct (wf_pred_lookup g b Hwf Hb) as [preds Hp].
  destruct (decide (b ∈ succs)) as [Hbs|Hbs].
  - assert (a ∈ preds) as Hap.
    { destruct (proj1 (wf_mirror g Hwf a b)) as (l' & Hl' & Hal); [by exists succs|].
      congruence. }
    exists g. by rewrite (add_edge_present g a b succs preds).
  - eexists. split; [by apply (add_edge_absent g a b succs preds)|].
    eapply add_edge_present; simpl; try done.
    + apply lookup_insert_eq.
    + apply elem_of_std_sort_snoc. by right.
    + apply lookup_insert_eq.
    + apply elem_of_std_sort_snoc. by right.
Qed.

(** C9: on a well-formed graph [exists_edge a b] throws exactly when [a]
    is not a node; when [a] is a node and [b] is not, it returns false
    (the predecessor map is read only after [b] was found among the
    successors of [a], and then [b] is a node). *)
Theorem exists_edge_throws_iff g a b :
  wf g →
  ((∃ e, exists_edge a b g = Throw e) ↔ a ∉ node_set_ g) ∧
  (a ∈ node_set_ g → b ∉ node_set_ g → exists_edge a b g = Ok false).
Proof.
  intros Hwf. unfold exists_edge, map_at.
  destruct (succ_map_ g !! a) as [succs|] eqn:Hs; simpl.
  - assert (a ∈ node_set_ g) as Ha.
    { rewrite <- (wf_succ_dom g Hwf). apply elem_of_dom. by eexists. }
    case_decide as Hbs.
    + destruct (wf_succ_node g a succs b Hwf Hs Hbs) as [_ Hb].
      destruct (wf_pred_lookup g b Hwf Hb) as [preds Hp]. rewrite Hp. simpl.
      split; [|done]. split; [by intros [e ?]|done].
    + split; [|done]. split; [by intros [e ?]|done].
  - assert (a ∉ node_set_ g) as Ha.
    { rewrite <- (wf_succ_dom g Hwf). by apply not_elem_of_dom. }
    split; [|done]. split; [done|]. by exists out_of_range.
Qed.
End store_claims.

(* ================================================================== *)
(** ** The structural transforms *)
(* ================================================================== *)

Section transforms.
Context `{Node NodeType}.
Implicit Types (g : Graph (NodeType:=NodeType)) (a b n u v w : NodeType).
Implicit Types (es : list (NodeType * list NodeType)).

Lemma exec_update_both g k f k' f' ls lp :
  succ_map_ g !! k = Some ls → pred_map_ g !! k' = Some lp →
  exec (mut_bind (succ_update k f) (λ _, pred_update k' f')) g =
    Ok (mkGraph (node_set_ g) (<[k := f ls]> (succ_map_ g))
                (<[k' := f' lp]> (pred_map_ g)) (node_printer_ g)).
Proof.
  intros Hs Hp. unfold exec, mut_bind, succ_update, pred_update.
  rewrite Hs. cbn [succ_map_ pred_map_ node_set_ node_printer_]. by rewrite Hp.
Qed.

(** *** [copy_and_clear] *)

Lemma copy_and_clear_loop l g :
  (∀ k, k ∈ l → is_Some (succ_map_ g !! k) ∧ is_Some (pred_map_ g !! k)) →
  ∃ g',
    for_each
      (λ node copy,
         exec (mut_bind (succ_update node (λ _, [])) (λ _, pred_update node (λ _, []))) copy)
      l g = Ok g' ∧
    node_set_ g' = node_set_ g ∧ node_printer_ g' = node_printer_ g ∧
    (∀ k, succ_map_ g' !! k = if decide (k ∈ l) then Some [] else succ_map_ g !! k) ∧
    (∀ k, pred_map_ g' !! k = if decide (k ∈ l) then Some [] else pred_map_ g !! k).
Proof.
  revert g. induction l as [|x l IH]; intros g Hl.
  { exists g. split_and!; try done; intros k; rewrite decide_False; set_solver. }
  destruct (Hl x) as [[ls Hs] [lp Hp]]; [set_solver|].
  cbn [for_each]. rewrite (exec_update_both g x _ x _ ls lp) by done.
  cbn [mbind result_bind].
  edestruct IH as (g' & -> & Hn & Hpr & Hsu & Hpd).
  { intros k Hk. cbn [succ_map_ pred_map_]. rewrite !lookup_insert_is_Some.
    destruct (decide (x = k)); [by auto|]. destruct (Hl k); [set_solver|]. auto. }
  exists g'. split_and!; try done.
  - intros k. rewrite Hsu. cbn [succ_map_].
    destruct (decide (x = k)) as [->|Hne].
    + rewrite lookup_insert_eq. rewrite (decide_True (P := k ∈ k :: l)) by set_solver.
      by case_decide.
    + rewrite lookup_insert_ne by done. repeat case_decide; set_solver.
  - intros k. rewrite Hpd. cbn [pred_map_].
    destruct (decide (x = k)) as [->|Hne].
    + rewrite lookup_insert_eq. rewrite (decide_True (P := k ∈ k :: l)) by set_solver.
      by case_decide.
    + rewrite lookup_insert_ne by done. repeat case_decide; set_solver.
Qed.

Lemma graph_eq g1 g2 :
  node_set_ g1 = node_set_ g2 → succ_map_ g1 = succ_map_ g2 →
  pred_map_ g1 = pred_map_ g2 → node_printer_ g1 = node_printer_ g2 → g1 = g2.
Proof. destruct g1, g2; simpl. congruence. Qed.

(** On a well-formed graph [copy_and_clear] returns the graph with the
    same nodes and printer and every vector empty. *)
Lemma copy_and_clear_wf g :
  wf g →
  copy_and_clear g =
    Ok (mkGraph (node_set_ g) (gset_to_gmap [] (node_set_ g))
                (gset_to_gmap [] (node_set_ g)) (node_printer_ g)).
Proof.
  intros Hwf. unfold copy_and_clear.
  destruct (copy_and_clear_loop (set_iter (node_set_ g)) g)
    as (g' & Hg' & Hn & Hpr & Hsu & Hpd).
  { intros k Hk%elem_of_set_iter. split; [by apply wf_succ_lookup|by apply wf_pred_lookup]. }
  etrans; [exact Hg'|]. f_equal. apply graph_eq; simpl; try done.
  - apply map_eq. intros k. rewrite Hsu, lookup_gset_to_gmap.
    case_decide as Hk; rewrite elem_of_set_iter in Hk.
    + by rewrite option_guard_True.
    + rewrite option_guard_False by done.
      apply not_elem_of_dom. by rewrite (wf_succ_dom g Hwf).
  - apply map_eq. intros k. rewrite Hpd, lookup_gset_to_gmap.
    case_decide as Hk; rewrite elem_of_set_iter in Hk.
    + by rewrite option_guard_True.
    + rewrite option_guard_False by done.
      apply not_elem_of_dom. by rewrite (wf_pred_dom g Hwf).
Qed.

Lemma wf_cleared (N : gset NodeType) pr :
  wf (mkGraph N (gset_to_gmap [] N) (gset_to_gmap [] N) pr).
Proof.
  split; simpl; try apply dom_gset_to_gmap.
  - intros a b. unfold has_succ, has_pred. simpl. split.
    + intros (l & [_ <-]%lookup_gset_to_gmap_Some & Hb). by apply elem_of_nil in Hb.
    + intros (l & [_ <-]%lookup_gset_to_gmap_Some & Hb). by apply elem_of_nil in Hb.
  - intros a l [_ <-]%lookup_gset_to_gmap_Some. constructor.
  - intros a l [_ <-]%lookup_gset_to_gmap_Some. constructor.
Qed.

(** *** [transpose] *)

Lemma elem_of_sources_of es v u :
  u ∈ sources_of es v ↔ ∃ l, (u, l) ∈ es ∧ v ∈ l.
Proof.
  induction es as [|[u' l'] es IH]; simpl.
  { split; [by intros ?%elem_of_nil|]. by intros (l & ?%elem_of_nil & _). }
  case_decide as Hv.
  - rewrite elem_of_cons, IH. split.
    + intros [->|(l & Hl & Hvl)]; [exists l'; split; [left|done]|].
      exists l. split; [by right|done].
    + intros (l & [[= -> ->]|Hl]%elem_of_cons & Hvl); [by left|].
      right. by exists l.
  - rewrite IH. split.
    + intros (l & Hl & Hvl). exists l. split; [by right|done].
    + intros (l & [[= -> ->]|Hl]%elem_of_cons & Hvl); [done|]. by exists l.
Qed.

Lemma sources_of_sorted es v :
  StronglySorted node_lt es.*1 → StronglySorted node_lt (sources_of es v).
Proof.
  induction es as [|[u l] es IH]; simpl; [constructor|].
  intros [Hes Hu]%StronglySorted_inv. case_decide; [|by auto].
  constructor; [by auto|].
  rewrite Forall_forall in Hu |- *. intros x (lx & Hx & _)%elem_of_sources_of.
  apply Hu. apply list_elem_of_fmap. by exists (x, lx).
Qed.

Lemma targets_of_notin es w : w ∉ es.*1 → targets_of es w = [].
Proof.
  induction es as [|[u l] es IH]; simpl; [done|].
  intros [Hne Hw]%not_elem_of_cons. rewrite decide_False by done. auto.
Qed.

Lemma targets_of_lookup es w l :
  NoDup es.*1 → (w, l) ∈ es → targets_of es w = l.
Proof.
  induction es as [|[u l'] es IH]; simpl.
  { by intros _ ?%elem_of_nil. }
  intros [Hu Hnd]%NoDup_cons [[= -> ->]|Hin]%elem_of_cons.
  - rewrite decide_True by done. rewrite targets_of_notin by done.
    apply app_nil_r.
  - rewrite decide_False; [by auto|]. intros ->. apply Hu.
    apply list_elem_of_fmap. by exists (w, l).
Qed.

(** The inner loop of [transpose] for one entry [(u, l)]. *)
Lemma transpose_inner u l g lp :
  NoDup l → pred_map_ g !! u = Some lp →
  (∀ v, v ∈ l → is_Some (succ_map_ g !! v)) →
  ∃ g',
    for_each
      (λ neighbor transpose_graph,
         exec (mut_bind (succ_update neighbor (λ l, l ++ [u]))
                        (λ _, pred_update u (λ l, l ++ [neighbor]))) transpose_graph)
      l g = Ok g' ∧
    node_set_ g' = node_set_ g ∧ node_printer_ g' = node_printer_ g ∧
    pred_map_ g' = <[u := lp ++ l]> (pred_map_ g) ∧
    (∀ v, succ_map_ g' !! v =
          if decide (v ∈ l) then (λ old, old ++ [u]) <$> succ_map_ g !! v
          else succ_map_ g !! v).
Proof.
  revert g lp. induction l as [|x l IH]; intros g lp Hnd Hp Hl.
  { exists g. split_and!; try done.
    rewrite app_nil_r. by rewrite insert_id. }
  apply NoDup_cons in Hnd as [Hx Hnd].
  destruct (Hl x) as [ls Hs]; [set_solver|].
  cbn [for_each]. rewrite (exec_update_both g x _ u _ ls lp) by done.
  cbn [mbind result_bind].
  match goal with |- context [for_each _ l ?g1] =>
    destruct (IH g1 (lp ++ [x]) Hnd) as (g' & -> & Hn & Hpr & Hpd & Hsu) end.
  { cbn [pred_map_]. apply lookup_insert_eq. }
  { intros v Hv. cbn [succ_map_]. rewrite lookup_insert_is_Some.
    destruct (decide (x = v)); [by auto|]. right. split; [done|]. apply Hl. set_solver. }
  exists g'. split_and!; try done.
  - rewrite Hpd. cbn [pred_map_]. rewrite insert_insert_eq.
    by rewrite <- app_assoc.
  - intros v. rewrite Hsu. cbn [succ_map_].
    destruct (decide (x = v)) as [->|Hne].
    + rewrite lookup_insert_eq, Hs.
      rewrite (decide_False (P := v ∈ l)) by done.
      by rewrite (decide_True (P := v ∈ v :: l)) by set_solver.
    + rewrite lookup_insert_ne by done. repeat case_decide; set_solver.
Qed.

(** The outer loop of [transpose] over the entries [es] of the successor
    map. *)
Lemma transpose_outer es g :
  (∀ u l, (u, l) ∈ es →
     NoDup l ∧ is_Some (pred_map_ g !! u) ∧ ∀ v, v ∈ l → is_Some (succ_map_ g !! v)) →
  ∃ g',
    for_each
      (λ node transpose_graph,
         for_each
           (λ neighbor transpose_graph,
              exec (mut_bind (succ_update neighbor (λ l, l ++ [node.1]))
                             (λ _, pred_update node.1 (λ l, l ++ [neighbor])))
                   transpose_graph)
           node.2 transpose_graph)
      es g = Ok g' ∧
    node_set_ g' = node_set_ g ∧ node_printer_ g' = node_printer_ g ∧
    (∀ w, pred_map_ g' !! w = (λ old, old ++ targets_of es w) <$> pred_map_ g !! w) ∧
    (∀ v, succ_map_ g' !! v = (λ old, old ++ sources_of es v) <$> succ_map_ g !! v).
Proof.
  revert g. induction es as [|[u l] es IH]; intros g Hes.
  { exists g. split_and!; try done; intros x; simpl;
      destruct (_ !! x); simpl; by rewrite ?app_nil_r. }
  destruct (Hes u l) as (Hnd & [lp Hp] & Hl); [set_solver|].
  cbn [for_each fst snd].
  destruct (transpose_inner u l g lp Hnd Hp Hl) as (g1 & -> & Hn1 & Hpr1 & Hpd1 & Hsu1).
  cbn [mbind result_bind].
  destruct (IH g1) as (g' & -> & Hn & Hpr & Hpd & Hsu).
  { intros u' l' Hin. destruct (Hes u' l') as (Hnd' & Hp' & Hl'); [set_solver|].
    split_and!; [done| |].
    - rewrite Hpd1, lookup_insert_is_Some. destruct (decide (u = u')); auto.
    - intros v Hv. rewrite Hsu1. specialize (Hl' v Hv).
      case_decide; [|done]. by apply fmap_is_Some. }
  exists g'. split_and!; try congruence.
  - intros w. rewrite Hpd, Hpd1. simpl.
    destruct (decide (u = w)) as [->|Hne].
    + rewrite lookup_insert_eq, Hp. simpl. by rewrite <- app_assoc.
    + by rewrite lookup_insert_ne.
  - intros v. rewrite Hsu, Hsu1. simpl.
    case_decide; [|done]. destruct (succ_map_ g !! v); simpl; [|done].
    by rewrite <- app_assoc.
Qed.

(** On a well-formed graph [transpose] returns the graph with the two
    adjacency maps exchanged. *)
Lemma transpose_wf g :
  wf g →
  transpose g =
    Ok (mkGraph (node_set_ g) (pred_map_ g) (succ_map_ g) (node_printer_ g)).
Proof.
  intros Hwf. unfold transpose. rewrite copy_and_clear_wf by done.
  cbn [mbind result_bind].
  edestruct (transpose_outer (map_iter (succ_map_ g))) as (g' & -> & Hn & Hpr & Hpd & Hsu).
  { intros u l Hul%elem_of_map_iter. cbn [succ_map_ pred_map_]. split_and!.
    - eapply (StronglySorted_lt_NoDup node_lt), wf_succ_sorted; done.
    - rewrite lookup_gset_to_gmap, option_guard_True; [done|].
      rewrite <- (wf_succ_dom g Hwf). apply elem_of_dom. by eexists.
    - intros v Hv. rewrite lookup_gset_to_gmap, option_guard_True; [done|].
      by eapply wf_succ_node. }
  f_equal. apply graph_eq; simpl; try done.
  - apply map_eq. intros v. rewrite Hsu. cbn [succ_map_].
    rewrite lookup_gset_to_gmap.
    destruct (decide (v ∈ node_set_ g)) as [Hv|Hv].
    + rewrite option_guard_True by done. simpl.
      destruct (wf_pred_lookup g v Hwf Hv) as [lp Hp]. rewrite Hp. f_equal.
      apply (StronglySorted_lt_unique node_lt).
      * apply sources_of_sorted, map_iter_keys_sorted.
      * by eapply wf_pred_sorted.
      * intros u. rewrite elem_of_sources_of.
        pose proof (wf_mirror g Hwf u v) as Hm. unfold has_succ, has_pred in Hm.
        setoid_rewrite elem_of_map_iter. rewrite Hm. rewrite Hp. naive_solver.
    + rewrite option_guard_False by done. simpl. symmetry.
      apply not_elem_of_dom. by rewrite (wf_pred_dom g Hwf).
  - apply map_eq. intros w. rewrite Hpd. cbn [pred_map_].
    rewrite lookup_gset_to_gmap.
    destruct (decide (w ∈ node_set_ g)) as [Hw|Hw].
    + rewrite option_guard_True by done. simpl.
      destruct (wf_succ_lookup g w Hwf Hw) as [ls Hs]. rewrite Hs. f_equal.
      apply targets_of_lookup; [|by apply elem_of_map_iter].
      apply (StronglySorted_lt_NoDup node_lt), map_iter_keys_sorted.
    + rewrite option_guard_False by done. simpl. symmetry.
      apply not_elem_of_dom. by rewrite (wf_succ_dom g Hwf).
Qed.

Lemma wf_exchange g :
  wf g → wf (mkGraph (node_set_ g) (pred_map_ g) (succ_map_ g) (node_printer_ g)).
Proof.
  intros Hwf. split; simpl.
  - apply (wf_pred_dom g Hwf).
  - apply (wf_succ_dom g Hwf).
  - intros a b. symmetry. apply (wf_mirror g Hwf).
  - apply (wf_pred_sorted g Hwf).
  - apply (wf_succ_sorted g Hwf).
Qed.

(** *** [operator+] *)

Lemma exec_add_edge_ok g a b :
  wf g → a ∈ node_set_ g → b ∈ node_set_ g →
  ∃ g', exec (add_edge a b) g = Ok g' ∧ wf g' ∧
    node_set_ g' = node_set_ g ∧ node_printer_ g' = node_printer_ g ∧
    ∀ x y, has_succ g' x y ↔ has_succ g x y ∨ (x = a ∧ y = b).
Proof.
  intros Hwf Ha Hb. destruct (add_edge_ok g a b Hwf Ha Hb) as (g' & Heq & Hg').
  exists g'. split; [|done]. unfold exec. by rewrite Heq.
Qed.

Lemma union_inner u l g :
  wf g → u ∈ node_set_ g → (∀ v, v ∈ l → v ∈ node_set_ g) →
  ∃ g',
    for_each (λ neighbor res, exec (add_edge u neighbor) res) l g = Ok g' ∧
    wf g' ∧ node_set_ g' = node_set_ g ∧ node_printer_ g' = node_printer_ g ∧
    ∀ x y, has_succ g' x y ↔ has_succ g x y ∨ (x = u ∧ y ∈ l).
Proof.
  revert g. induction l as [|v l IH]; intros g Hwf Hu Hl.
  { exists g. split_and!; try done. intros x y. split; [by left|].
    by intros [?|[_ ?%elem_of_nil]]. }
  cbn [for_each].
  destruct (exec_add_edge_ok g u v) as (g1 & -> & Hwf1 & Hn1 & Hpr1 & He1);
    [done|done|set_solver|].
  cbn [mbind result_bind].
  destruct (IH g1) as (g' & -> & Hwf' & Hn & Hpr & He); [done|congruence| |].
  { intros z Hz. rewrite Hn1. apply Hl. set_solver. }
  exists g'. split_and!; try congruence.
  intros x y. rewrite He, He1, elem_of_cons. naive_solver.
Qed.

Lemma union_outer es g :
  wf g →
  (∀ u l, (u, l) ∈ es → u ∈ node_set_ g ∧ ∀ v, v ∈ l → v ∈ node_set_ g) →
  ∃ g',
    for_each
      (λ node res,
         for_each (λ neighbor res, exec (add_edge node.1 neighbor) res) node.2 res)
      es g = Ok g' ∧
    wf g' ∧ node_set_ g' = node_set_ g ∧ node_printer_ g' = node_printer_ g ∧
    ∀ x y, has_succ g' x y ↔ has_succ g x y ∨ ∃ l, (x, l) ∈ es ∧ y ∈ l.
Proof.
  revert g. induction es as [|[u l] es IH]; intros g Hwf Hes.
  { exists g. split_and!; try done. intros x y. split; [by left|].
    by intros [?|(l & ?%elem_of_nil & _)]. }
  cbn [for_each fst snd].
  destruct (Hes u l) as [Hu Hl]; [set_solver|].
  destruct (union_inner u l g) as (g1 & -> & Hwf1 & Hn1 & Hpr1 & He1); [done..|].
  cbn [mbind result_bind].
  destruct (IH g1) as (g' & -> & Hwf' & Hn & Hpr & He); [done| |].
  { intros u' l' Hin. rewrite Hn1. apply Hes. set_solver. }
  exists g'. split_and!; try congruence.
  intros x y. rewrite He, He1. setoid_rewrite elem_of_cons. naive_solver.
Qed.

(** Adding to [g] every edge of [graph], a graph over the same nodes. *)
Lemma union_graph graph g :
  wf graph → wf g → node_set_ graph = node_set_ g →
  ∃ g',
    for_each
      (λ node res,
         for_each (λ neighbor res, exec (add_edge node.1 neighbor) res) node.2 res)
      (map_iter (succ_map_ graph)) g = Ok g' ∧
    wf g' ∧ node_set_ g' = node_set_ g ∧ node_printer_ g' = node_printer_ g ∧
    ∀ x y, has_succ g' x y ↔ has_succ g x y ∨ has_succ graph x y.
Proof.
  intros Hwfg Hwf Hnodes.
  destruct (union_outer (map_iter (succ_map_ graph)) g) as (g' & Hg' & ? & ? & ? & He);
    [done| |].
  { intros u l Hul%elem_of_map_iter. rewrite <- Hnodes. split.
    - rewrite <- (wf_succ_dom graph Hwfg). apply elem_of_dom. by eexists.
    - intros v Hv. by eapply wf_succ_node. }
  exists g'. split_and!; try done.
  intros x y. rewrite He. unfold has_succ at 3.
  by setoid_rewrite elem_of_map_iter.
Qed.

(** The union of two well-formed graphs over the same nodes: well-formed,
    over these nodes, with the edges of both. *)
Lemma graph_union_ok (ga gb : Graph (NodeType:=NodeType)) :
  wf ga → wf gb → node_set_ ga = node_set_ gb →
  ∃ r, graph_union ga gb = Ok r ∧ wf r ∧ node_set_ r = node_set_ ga ∧
    node_printer_ r = node_printer_ ga ∧
    ∀ x y, has_succ r x y ↔ has_succ ga x y ∨ has_succ gb x y.
Proof.
  intros Hwfa Hwfb Hnodes. unfold graph_union.
  rewrite decide_False by (by intros []).
  rewrite copy_and_clear_wf by done. cbn [mbind result_bind for_each].
  pose proof (wf_cleared (node_set_ ga) (node_printer_ ga)) as Hwf0.
  destruct (union_graph ga _ Hwfa Hwf0) as (g1 & -> & Hwf1 & Hn1 & Hpr1 & He1); [done|].
  cbn [mbind result_bind].
  destruct (union_graph gb g1 Hwfb Hwf1) as (g2 & -> & Hwf2 & Hn2 & Hpr2 & He2).
  { by rewrite Hn1, <- Hnodes. }
  cbn [mbind result_bind]. exists g2. split_and!; try done.
  - by rewrite Hn2, Hn1.
  - by rewrite Hpr2, Hpr1.
  - intros x y. rewrite He2, He1. split; [|naive_solver].
    intros [[(l & [_ <-]%lookup_gset_to_gmap_Some & Hy)|?]|?]; [|by auto..].
    by apply elem_of_nil in Hy.
Qed.

(** A well-formed graph is determined by its nodes and its edges. *)
Lemma wf_edges_eq g1 g2 :
  wf g1 → wf g2 → node_set_ g1 = node_set_ g2 →
  (∀ x y, has_succ g1 x y ↔ has_succ g2 x y) →
  succ_map_ g1 = succ_map_ g2 ∧ pred_map_ g1 = pred_map_ g2.
Proof.
  intros Hwf1 Hwf2 Hnodes Hedges. split; apply map_eq; intros k.
  - destruct (decide (k ∈ node_set_ g1)) as [Hk|Hk].
    + destruct (wf_succ_lookup g1 k Hwf1 Hk) as [l1 Hl1].
      destruct (wf_succ_lookup g2 k Hwf2) as [l2 Hl2]; [congruence|].
      rewrite Hl1, Hl2. f_equal. apply (StronglySorted_lt_unique node_lt).
      * by eapply (wf_succ_sorted g1).
      * by eapply (wf_succ_sorted g2).
      * intros y. specialize (Hedges k y). unfold has_succ in Hedges.
        rewrite Hl1, Hl2 in Hedges. naive_solver.
    + transitivity (@None (list NodeType)); [|symmetry]; apply not_elem_of_dom.
      * by rewrite (wf_succ_dom g1 Hwf1).
      * rewrite (wf_succ_dom g2 Hwf2). congruence.
  - destruct (decide (k ∈ node_set_ g1)) as [Hk|Hk].
    + destruct (wf_pred_lookup g1 k Hwf1 Hk) as [l1 Hl1].
      destruct (wf_pred_lookup g2 k Hwf2) as [l2 Hl2]; [congruence|].
      rewrite Hl1, Hl2. f_equal. apply (StronglySorted_lt_unique node_lt).
      * by eapply (wf_pred_sorted g1).
      * by eapply (wf_pred_sorted g2).
      * intros x. specialize (Hedges x k).
        rewrite (wf_mirror g1 Hwf1), (wf_mirror g2 Hwf2) in Hedges.
        unfold has_pred in Hedges. rewrite Hl1, Hl2 in Hedges. naive_solver.
    + transitivity (@None (list NodeType)); [|symmetry]; apply not_elem_of_dom.
      * by rewrite (wf_pred_dom g1 Hwf1).
      * rewrite (wf_pred_dom g2 Hwf2). congruence.
Qed.

Lemma graph_eqb_true g1 g2 :
  graph_eqb g1 g2 = true ↔
  node_set_ g1 = node_set_ g2 ∧ succ_map_ g1 = succ_map_ g2 ∧
  pred_map_ g1 = pred_map_ g2.
Proof.
  unfold graph_eqb. rewrite !andb_true_iff, !bool_decide_eq_true. naive_solver.
Qed.
End transforms.

(* ================================================================== *)
(** ** Claims about the transforms *)
(* ================================================================== *)

Section transform_claims.
Context `{Node NodeType}.
Implicit Types (g : Graph (NodeType:=NodeType)) (a b n : NodeType).

(** C3: for a graph built by [add_node] and [add_edge] calls, [transpose]
    returns a graph, [transpose] of that graph returns a graph, and this
    last graph is equal to the first under [operator==]. *)
Theorem transpose_transpose g :
  built g →
  ∃ t tt, transpose g = Ok t ∧ transpose t = Ok tt ∧ graph_eqb tt g = true.
Proof.
  intros Hwf%built_wf.
  eexists _, _. split; [by apply transpose_wf|].
  split; [by apply transpose_wf, wf_exchange|].
  by apply graph_eqb_true.
Qed.

(** C4: every public operation keeps the invariant [wf] (node set = key
    domain of both maps; [b] among the successors of [a] iff [a] among
    the predecessors of [b]; every vector strictly ascending, hence
    without duplicates, [wf_no_duplicates]): the new graph has it; [add_node] and [add_edge]
    keep it, whether they return or throw; on a graph that has it,
    [transpose] and [copy_and_clear] return a graph that has it; and on
    two graphs that have it, [operator+] returns a graph that has it when
    the node sets agree and throws otherwise. *)
Theorem wf_preserved :
  (∀ node_printer, wf (Graph_new (NodeType:=NodeType) node_printer)) ∧
  (∀ g n, wf g → wf (add_node n g).2) ∧
  (∀ g a b, wf g → wf (add_edge a b g).2) ∧
  (∀ g, wf g → ∃ t, transpose g = Ok t ∧ wf t) ∧
  (∀ g, wf g → ∃ c, copy_and_clear g = Ok c ∧ wf c) ∧
  (∀ ga gb : Graph (NodeType:=NodeType), wf ga → wf gb →
     (node_set_ ga = node_set_ gb → ∃ r, graph_union ga gb = Ok r ∧ wf r) ∧
     (node_set_ ga ≠ node_set_ gb → graph_union ga gb = Throw IncompatibleNodeSets)).
Proof.
  split_and!.
  - apply wf_new.
  - apply wf_add_node.
  - apply wf_add_edge.
  - intros g Hwf. eexists. split; [by apply transpose_wf|by apply wf_exchange].
  - intros g Hwf. eexists. split; [by apply copy_and_clear_wf|apply wf_cleared].
  - intros ga gb Hwfa Hwfb. split.
    + intros Hnodes.
      destruct (graph_union_ok ga gb Hwfa Hwfb Hnodes) as (r & Hr & Hwfr & _).
      by exists r.
    + intros Hnodes. unfold graph_union. by rewrite decide_True.
Qed.

(** C5: for two well-formed graphs (as every graph the public operations
    produce is) over the same node set, [A + B] and [B + A]
    both return a graph, and the two are equal under [operator==]. *)
Theorem graph_union_comm (ga gb : Graph (NodeType:=NodeType)) :
  wf ga → wf gb → node_set_ ga = node_set_ gb →
  ∃ ab ba, graph_union ga gb = Ok ab ∧ graph_union gb ga = Ok ba ∧
    graph_eqb ab ba = true.
Proof.
  intros Hwfa Hwfb Hnodes.
  destruct (graph_union_ok ga gb Hwfa Hwfb Hnodes) as (ab & Hab & Hwf1 & Hn1 & _ & He1).
  destruct (graph_union_ok gb ga Hwfb Hwfa (eq_sym Hnodes)) as (ba & Hba & Hwf2 & Hn2 & _ & He2).
  exists ab, ba. split_and!; try done.
  apply graph_eqb_true.
  assert (node_set_ ab = node_set_ ba) as Hn by congruence.
  split; [done|]. apply wf_edges_eq; try done.
  intros x y. rewrite He1, He2. tauto.
Qed.
End transform_claims.


(* ================================================================== *)
(** ** Depth-first search: [dfs_visit] *)
(* ================================================================== *)

Section dfs_facts.
Context `{Node NodeType}.
Implicit Types (g : Graph (NodeType:=NodeType)) (a b n x : NodeType).
Implicit Types (m : gmap NodeType (DfsProps (NodeType:=NodeType))).
Implicit Types (p : DfsProps (NodeType:=NodeType)) (t : Z).

Lemma elem_of_whites m k : k ∈ whites m ↔ ∃ p, m !! k = Some p ∧ color p = WHITE.
Proof.
  unfold whites. rewrite elem_of_dom. unfold is_Some.
  setoid_rewrite map_lookup_filter_Some. naive_solver.
Qed.

Lemma whites_subseteq_dom m : whites m ⊆ dom m.
Proof.
  intros k (p & Hp & _)%elem_of_whites. apply elem_of_dom. by eexists.
Qed.

Lemma whites_insert_other m k p :
  color p ≠ WHITE → whites (<[k := p]> m) = whites m ∖ {[k]}.
Proof.
  intros Hp. apply set_eq. intros j.
  rewrite elem_of_difference, !elem_of_whites, elem_of_singleton.
  destruct (decide (k = j)) as [->|Hne].
  - rewrite lookup_insert_eq. naive_solver.
  - rewrite lookup_insert_ne by done. naive_solver.
Qed.

Lemma whites_insert_white m k p :
  color p = WHITE → k ∈ whites m → whites (<[k := p]> m) = whites m.
Proof.
  intros Hp Hk. apply set_eq. intros j. rewrite !elem_of_whites.
  destruct (decide (k = j)) as [->|Hne].
  - rewrite lookup_insert_eq. apply elem_of_whites in Hk. naive_solver.
  - by rewrite lookup_insert_ne.
Qed.

Lemma size_whites_remove m k :
  k ∈ whites m → (size (whites m ∖ {[k]}) < size (whites m))%nat.
Proof. intros Hk. apply subset_size. set_solver. Qed.

Lemma size_whites_le m : (size (whites m) ≤ size m)%nat.
Proof.
  rewrite <- (size_dom m). apply subseteq_size, whites_subseteq_dom.
Qed.

Lemma map_at_Some {V} (mv : gmap NodeType V) k v :
  mv !! k = Some v → map_at mv k = Ok v.
Proof. intros Hk. unfold map_at. by rewrite Hk. Qed.

Lemma props_update_Some m k p f :
  m !! k = Some p → props_update k f m = Ok (<[k := f p]> m).
Proof. intros Hk. unfold props_update, map_at. by rewrite Hk. Qed.

(** The loop over the successors, given that the nested calls on white
    nodes behave: it makes the calls [successor_calls] describes and
    appends their sequences to [ret]. *)
Lemma visit_successors_spec g node (K : nat) :
  (∀ x m t, x ∈ node_set_ g → dom m = node_set_ g →
     (size (whites m ∖ {[x]}) < K)%nat →
     ∃ r, (∀ f, (size (whites m ∖ {[x]}) < f)%nat → dfs_visit_rec f g x m t = Ok r) ∧
          dom r.2 = dom m ∧ whites r.2 ⊆ whites m ∖ {[x]}) →
  ∀ succs time ret m,
    (∀ x, x ∈ succs → x ∈ node_set_ g) → dom m = node_set_ g →
    (size (whites m) ≤ K)%nat →
    ∃ rets t' m',
      successor_calls g node succs m time rets m' t' ∧
      (∀ f, (size (whites m) ≤ f)%nat →
         visit_successors (dfs_visit_rec f g) node succs (time, ret, m)
           = Ok (t', ret ++ concat rets, m')) ∧
      dom m' = dom m ∧ whites m' ⊆ whites m.
Proof.
  intros Hchild succs. induction succs as [|x succs IH]; intros time ret m Hsuccs Hdom HK.
  { exists [], time, m. split_and!; try done; [constructor|].
    intros f _. simpl. by rewrite app_nil_r. }
  assert (is_Some (m !! x)) as [p Hp].
  { apply elem_of_dom. rewrite Hdom. apply Hsuccs. set_solver. }
  destruct (decide (color p = WHITE)) as [Hwhite|Hwhite].
  - assert (x ∈ whites m) as Hx by (apply elem_of_whites; eauto).
    pose proof (size_whites_remove m x Hx) as Hlt.
    set (mx := <[x := set_parent node p]> m).
    assert (whites mx = whites m) as Hwx by (by apply whites_insert_white).
    assert (dom mx = node_set_ g) as Hdx.
    { unfold mx. rewrite dom_insert_L, Hdom. apply elem_of_dom_2 in Hp. set_solver. }
    destruct (Hchild x mx time) as ([[t1 cv] m1] & Hrec & Hd1 & Hw1);
      [set_solver|done|rewrite Hwx; lia|].
    simpl in Hd1, Hw1.
    destruct (IH t1 (ret ++ cv) m1) as (rets & t' & m' & Hcalls & Hloop & Hd' & Hw').
    { intros y Hy. apply Hsuccs. set_solver. }
    { congruence. }
    { etrans; [apply subseteq_size, Hw1|]. rewrite Hwx. lia. }
    exists (cv :: rets), t', m'. split_and!.
    + eapply calls_white; [done..| |done]. unfold dfs_visit. fold mx. apply Hrec.
      pose proof (size_whites_le mx).
      assert (size (whites mx ∖ {[x]}) ≤ size (whites mx))%nat
        by (apply subseteq_size; set_solver).
      lia.
    + intros f Hf. unfold visit_successors. cbn [for_each].
      rewrite (map_at_Some m x p) by done. cbn [mbind result_bind].
      rewrite decide_True by done. rewrite (props_update_Some m x p) by done.
      cbn [mbind result_bind]. fold mx. rewrite Hrec by (rewrite Hwx; lia).
      cbn [mbind result_bind].
      specialize (Hloop f). unfold visit_successors in Hloop. rewrite Hloop.
      * simpl. by rewrite <- app_assoc.
      * etrans; [apply subseteq_size, Hw1|]. rewrite Hwx. lia.
    + rewrite Hd', Hd1. congruence.
    + rewrite Hwx in Hw1. set_solver.
  - destruct (IH time ret m) as (rets & t' & m' & Hcalls & Hloop & Hd' & Hw');
      [set_solver|done|done|].
    exists rets, t', m'. split_and!; try done.
    + by eapply calls_other.
    + intros f Hf. unfold visit_successors. cbn [for_each].
      rewrite (map_at_Some m x p) by done. cbn [mbind result_bind].
      rewrite decide_False by done. cbn [mbind result_bind].
      by apply Hloop.
Qed.

(** With fuel above the number of white entries other than the one of
    [n], a visit of the node [n] returns what [visit_result] says, and the
    result is the same for every such fuel. *)
Lemma dfs_visit_rec_spec g :
  wf g →
  ∀ (K : nat) n m t,
    n ∈ node_set_ g → dom m = node_set_ g → (size (whites m ∖ {[n]}) < K)%nat →
    ∃ r, (∀ f, (size (whites m ∖ {[n]}) < f)%nat → dfs_visit_rec f g n m t = Ok r) ∧
         visit_result g n m t r ∧
         dom r.2 = dom m ∧ whites r.2 ⊆ whites m ∖ {[n]}.
Proof.
  intros Hwf K. induction K as [|K IHK]; intros n m t Hn Hdom HK; [lia|].
  assert (is_Some (m !! n)) as [p Hp] by (apply elem_of_dom; by rewrite Hdom).
  destruct (wf_succ_lookup g n Hwf Hn) as [succs Hsuccs].
  set (mg := <[n := set_color GRAY (set_discovery_time (t + 1) p)]> m).
  assert (whites mg = whites m ∖ {[n]}) as Hwg by (by apply whites_insert_other).
  assert (dom mg = node_set_ g) as Hdg.
  { unfold mg. rewrite dom_insert_L, Hdom. set_solver. }
  destruct (visit_successors_spec g n K) with (succs := succs) (time := t + 1)
    (ret := [n]) (m := mg) as (rets & t' & m2 & Hcalls & Hloop & Hd2 & Hw2).
  { intros x mx tx Hx Hdx Hlt.
    destruct (IHK x mx tx Hx Hdx Hlt) as (r & Hr & _ & Hdr & Hwr). by exists r. }
  { intros x Hx. by eapply wf_succ_node. }
  { done. }
  { rewrite Hwg. lia. }
  assert (is_Some (m2 !! n)) as [p2 Hp2].
  { apply elem_of_dom. by rewrite Hd2, Hdg. }
  exists (t' + 1, n :: concat rets,
          <[n := set_finish_time (t' + 1) (set_color BLACK p2)]> m2).
  split_and!.
  - intros [|f] Hf; [lia|]. cbn [dfs_visit_rec].
    rewrite (props_update_Some m n p) by done. cbn [mbind result_bind].
    rewrite (props_update_Some _ n (set_discovery_time (t + 1) p))
      by apply lookup_insert_eq.
    cbn [mbind result_bind]. rewrite insert_insert_eq. fold mg.
    rewrite (map_at_Some _ n succs) by done. cbn [mbind result_bind].
    rewrite Hloop by (rewrite Hwg; lia). cbn [mbind result_bind].
    rewrite (props_update_Some m2 n p2) by done. cbn [mbind result_bind].
    rewrite (props_update_Some _ n (set_color BLACK p2)) by apply lookup_insert_eq.
    cbn [mbind result_bind]. by rewrite insert_insert_eq.
  - exists p, succs, rets, t', m2, p2. by split_and!.
  - simpl. rewrite dom_insert_L, Hd2, Hdg, Hdom. set_solver.
  - simpl. rewrite whites_insert_other by done. rewrite Hwg in Hw2. set_solver.
Qed.

(** The clock advances by two ticks for every node of the sequence. *)
Lemma dfs_visit_rec_clock g (f : nat) :
  ∀ n m t t' ret m',
    dfs_visit_rec f g n m t = Ok (t', ret, m') → t' = t + 2 * Z.of_nat (length ret).
Proof.
  induction f as [|f IH]; intros n m t t' ret m'; [done|].
  cbn [dfs_visit_rec]. intros Hrun.
  destruct (props_update n _ m) as [m1| |]; [|done..]. cbn [mbind result_bind] in Hrun.
  destruct (props_update n _ m1) as [m2| |]; [|done..]. cbn [mbind result_bind] in Hrun.
  destruct (map_at _ n) as [succs| |]; [|done..]. cbn [mbind result_bind] in Hrun.
  assert (∀ l time r mm time' r' mm',
            visit_successors (dfs_visit_rec f g) n l (time, r, mm) = Ok (time', r', mm') →
            time' - 2 * Z.of_nat (length r') = time - 2 * Z.of_nat (length r)) as Hloop.
  { unfold visit_successors.
    induction l as [|x l IHl]; intros time r mm time' r' mm' Hl; [by simplify_eq/=|].
    cbn [for_each] in Hl.
    destruct (map_at mm x) as [px| |]; [|done..]. cbn [mbind result_bind] in Hl.
    case_decide; cbn [mbind result_bind] in Hl; [|by apply IHl in Hl].
    destruct (props_update x _ mm) as [mx| |]; [|done..]. cbn [mbind result_bind] in Hl.
    destruct (dfs_visit_rec f g x mx time) as [[[t1 cv] m1']| |] eqn:Hx; [|done..].
    cbn [mbind result_bind] in Hl. apply IH in Hx. apply IHl in Hl.
    rewrite length_app in Hl. lia. }
  destruct (visit_successors _ n succs _) as [[[t2 r2] m3]| |] eqn:Hvs; [|done..].
  cbn [mbind result_bind] in Hrun. apply Hloop in Hvs.
  destruct (props_update n _ m3) as [m4| |]; [|done..]. cbn [mbind result_bind] in Hrun.
  destruct (props_update n _ m4) as [m5| |]; [|done..]. cbn [mbind result_bind] in Hrun.
  simplify_eq/=. lia.
Qed.

(** The fuel [dfs_visit] takes from the size of the map is enough. *)
Lemma dfs_visit_fuel m n : (size (whites m ∖ {[n]}) < S (size m))%nat.
Proof.
  pose proof (size_whites_le m).
  assert (size (whites m ∖ {[n]}) ≤ size (whites m))%nat
    by (apply subseteq_size; set_solver).
  lia.
Qed.

Lemma dfs_visit_returns g n m t :
  wf g → n ∈ node_set_ g → dom m = node_set_ g →
  ∃ r, dfs_visit g n m t = Ok r ∧ visit_result g n m t r.
Proof.
  intros Hwf Hn Hdom.
  destruct (dfs_visit_rec_spec g Hwf (S (size m)) n m t Hn Hdom (dfs_visit_fuel m n))
    as (r & Hrun & Hres & _).
  exists r. split; [|done]. apply Hrun, dfs_visit_fuel.
Qed.


(** *** The loop of [scc] *)

Lemma dom_init_dfs_map g : dom (init_dfs_map g) = node_set_ g.
Proof.
  unfold init_dfs_map.
  assert (∀ l m (w : DfsProps (NodeType:=NodeType)),
            dom (foldl (λ ret node, <[node := w]> ret) m l) = dom m ∪ list_to_set l) as Hfold.
  { induction l as [|k l IH]; intros m w; simpl; [set_solver|].
    rewrite IH, dom_insert_L. set_solver. }
  rewrite Hfold, dom_empty_L. apply set_eq. intros k.
  rewrite elem_of_union, elem_of_list_to_set, elem_of_set_iter. set_solver.
Qed.

Lemma scc_loop_nil fuel (this forest : Graph (NodeType:=NodeType)) sccs :
  scc_loop fuel this forest [] sccs = Ok sccs.
Proof. by destruct fuel. Qed.

Lemma scc_loop_cons fuel (this forest : Graph (NodeType:=NodeType)) x l sccs :
  scc_loop (S fuel) this forest (x :: l) sccs =
    '(_, visited_nodes, _) ← dfs_visit forest x (init_dfs_map this) 0;
    scc_loop fuel this forest
      (foldl (λ nv visited, erase_remove visited nv) (x :: l) visited_nodes)
      (sccs ++ [visited_nodes]).
Proof. done. Qed.

Lemma erase_remove_all_length (vs nv : list NodeType) :
  (length (foldl (λ nv visited, erase_remove visited nv) nv vs) ≤ length nv)%nat.
Proof.
  revert nv. induction vs as [|v vs IH]; intros nv; simpl; [done|].
  etrans; [apply IH|]. apply length_filter.
Qed.

Lemma erase_remove_all_elem (vs nv : list NodeType) x :
  x ∈ foldl (λ nv visited, erase_remove visited nv) nv vs → x ∈ nv.
Proof.
  revert nv. induction vs as [|v vs IH]; intros nv; simpl; [done|].
  intros Hx%IH. unfold erase_remove in Hx. by apply list_elem_of_filter in Hx as [_ ?].
Qed.

(** Every round of the loop erases the front node, so the loop of [scc]
    returns when given the length of the vector as fuel: on a well-formed
    forest over the nodes of [this], with a vector of nodes. *)
Lemma scc_loop_returns (this forest : Graph (NodeType:=NodeType)) :
  wf forest → node_set_ forest = node_set_ this →
  ∀ (fuel : nat) nv sccs,
    (length nv ≤ fuel)%nat → (∀ x, x ∈ nv → x ∈ node_set_ forest) →
    ∃ sccs', scc_loop fuel this forest nv sccs = Ok sccs'.
Proof.
  intros Hwf Hnodes fuel.
  induction fuel as [|fuel IH]; intros [|x l] sccs Hlen Hnv;
    try (eexists; by apply scc_loop_nil); [simpl in Hlen; lia|].
  rewrite scc_loop_cons.
  destruct (dfs_visit_returns forest x (init_dfs_map this) 0) as (r & -> & Hres).
  { done. }
  { apply Hnv. set_solver. }
  { by rewrite dom_init_dfs_map. }
  destruct Hres as (p & succs & rets & t' & m2 & p2 & _ & _ & _ & _ & ->).
  cbn [mbind result_bind]. apply IH.
  - cbn [foldl]. etrans; [apply erase_remove_all_length|].
    unfold erase_remove. rewrite filter_cons_False by (intros Hne; by apply Hne).
    etrans; [apply length_filter|]. simpl in Hlen. lia.
  - intros y Hy%erase_remove_all_elem. by apply Hnv.
Qed.
End dfs_facts.

(* ================================================================== *)
(** ** Maps and sets with three keys *)
(* ================================================================== *)

Section three_keys.
Context `{Node NodeType}.
Context (A B C : NodeType) (HAB : node_lt A B) (HBC : node_lt B C).













End three_keys.

(* ================================================================== *)
(** ** [scc] on a cycle of three nodes *)
(* ================================================================== *)

Section three_cycle.
Context `{Node NodeType}.
Context (A B C : NodeType) (HAB : node_lt A B) (HBC : node_lt B C).

Local Abbreviation white :=
  (mkDfsProps (NodeType:=NodeType) node_default (-1) (-1) WHITE).











End three_cycle.

(* ================================================================== *)
(** ** Edges: [add_edge], [add_node] and [exists_edge] together *)
(* ================================================================== *)

Section edge_facts.
Context `{Node NodeType}.
Implicit Types (g : Graph (NodeType:=NodeType)) (a b c d n x y : NodeType).

(** On a well-formed graph the second test of [exists_edge] adds nothing:
    the answer is whether [b] is in the successor vector of [a]. *)
Lemma exists_edge_wf g a b l :
  wf g → succ_map_ g !! a = Some l → exists_edge a b g = Ok (bool_decide (b ∈ l)).
Proof.
  intros Hwf Hl. unfold exists_edge. rewrite (map_at_Some _ a l) by done.
  cbn [mbind result_bind]. case_decide as Hb.
  - destruct (wf_succ_node g a l b Hwf Hl Hb) as [_ Hbn].
    destruct (wf_pred_lookup g b Hwf Hbn) as [lp Hp].
    rewrite (map_at_Some _ b lp) by done. cbn [mbind result_bind].
    destruct (proj1 (wf_mirror g Hwf a b)) as (lp' & Hp' & Ha); [by exists l|].
    assert (lp' = lp) as -> by congruence.
    by rewrite !bool_decide_eq_true_2.
  - by rewrite bool_decide_eq_false_2.
Qed.

Lemma exists_edge_true g a b :
  wf g → a ∈ node_set_ g → exists_edge a b g = Ok true ↔ has_succ g a b.
Proof.
  intros Hwf Ha. destruct (wf_succ_lookup g a Hwf Ha) as [l Hl].
  rewrite (exists_edge_wf g a b l) by done. unfold has_succ. rewrite Hl. split.
  - intros [= Hb%bool_decide_eq_true_1]. by exists l.
  - intros (l' & [= <-] & Hb). by rewrite bool_decide_eq_true_2.
Qed.

Lemma exists_edge_false g a b :
  wf g → a ∈ node_set_ g → exists_edge a b g = Ok false ↔ ¬ has_succ g a b.
Proof.
  intros Hwf Ha. destruct (wf_succ_lookup g a Hwf Ha) as [l Hl].
  rewrite (exists_edge_wf g a b l) by done. unfold has_succ. rewrite Hl. split.
  - intros [= Hb%bool_decide_eq_false_1] (l' & [= <-] & Hb'). done.
  - intros Hb. rewrite bool_decide_eq_false_2; [done|]. intros Hb'. apply Hb. by exists l.
Qed.

(** Two well-formed graphs that agree on a pair answer [exists_edge] alike. *)
Lemma exists_edge_ext g1 g2 a b :
  wf g1 → wf g2 → a ∈ node_set_ g1 → a ∈ node_set_ g2 →
  (has_succ g1 a b ↔ has_succ g2 a b) →
  exists_edge a b g1 = exists_edge a b g2.
Proof.
  intros Hwf1 Hwf2 Ha1 Ha2 Hiff.
  destruct (wf_succ_lookup g1 a Hwf1 Ha1) as [l1 Hl1].
  destruct (wf_succ_lookup g2 a Hwf2 Ha2) as [l2 Hl2].
  rewrite (exists_edge_wf g1 a b l1), (exists_edge_wf g2 a b l2) by done.
  f_equal. apply bool_decide_ext. unfold has_succ in Hiff.
  rewrite Hl1, Hl2 in Hiff. naive_solver.
Qed.

(** What [add_edge] leaves behind on a well-formed graph, whether it
    returns or throws: the nodes and the printer of before, and the edges
    of before plus [(a, b)] when both are nodes. *)
Lemma add_edge_state g a b :
  wf g →
  wf (add_edge a b g).2 ∧
  node_set_ (add_edge a b g).2 = node_set_ g ∧
  node_printer_ (add_edge a b g).2 = node_printer_ g ∧
  ∀ x y, has_succ (add_edge a b g).2 x y ↔
         has_succ g x y ∨ (x = a ∧ y = b ∧ a ∈ node_set_ g ∧ b ∈ node_set_ g).
Proof.
  intros Hwf.
  destruct (decide (a ∈ node_set_ g)) as [Ha|Ha];
    [|rewrite add_edge_unknown_from by done; naive_solver].
  destruct (decide (b ∈ node_set_ g)) as [Hb|Hb];
    [|rewrite add_edge_unknown_to by done; naive_solver].
  destruct (add_edge_ok g a b Hwf Ha Hb) as (g' & -> & Hwf' & Hn & Hp & He).
  simpl. split_and!; try done. intros x y. rewrite He. naive_solver.
Qed.

(** A well-formed graph is its nodes, its edges and its printer. *)
Lemma wf_graph_ext g1 g2 :
  wf g1 → wf g2 → node_set_ g1 = node_set_ g2 →
  node_printer_ g1 = node_printer_ g2 →
  (∀ x y, has_succ g1 x y ↔ has_succ g2 x y) → g1 = g2.
Proof.
  intros Hwf1 Hwf2 Hn Hp He.
  destruct (wf_edges_eq g1 g2 Hwf1 Hwf2 Hn He) as [Hs Hpd].
  by apply graph_eq.
Qed.

(** X1: on a well-formed graph with the nodes [a] and [b], [add_edge a b]
    returns normally; afterwards [exists_edge a b] answers true, and for
    every other pair [(c, d)] with [c] a node [exists_edge c d] answers what
    it answered before. *)
Theorem add_edge_exists_edge g a b :
  wf g → a ∈ node_set_ g → b ∈ node_set_ g →
  ∃ g', add_edge a b g = (Ok (), g') ∧
    exists_edge a b g' = Ok true ∧
    ∀ c d, c ∈ node_set_ g → (c, d) ≠ (a, b) →
           exists_edge c d g' = exists_edge c d g.
Proof.
  intros Hwf Ha Hb.
  destruct (add_edge_ok g a b Hwf Ha Hb) as (g' & Heq & Hwf' & Hn & _ & He).
  exists g'. split_and!; [done| |].
  - apply exists_edge_true; [done|congruence|]. apply He. by right.
  - intros c d Hc Hne. apply exists_edge_ext; [done|done|congruence|done|].
    rewrite He. split; [|by left]. intros [?|[-> ->]]; done.
Qed.

(** X2: on a well-formed graph, [add_node n] with [n] new returns normally
    and the new node has no edges: [exists_edge] answers false from [n] to
    anything and from every node to [n]; between the nodes of before it
    answers what it answered before. *)
Theorem add_node_isolated g n :
  wf g → n ∉ node_set_ g →
  ∃ g', add_node n g = (Ok (), g') ∧
    (∀ x, exists_edge n x g' = Ok false) ∧
    (∀ x, x ∈ node_set_ g' → exists_edge x n g' = Ok false) ∧
    (∀ x y, x ∈ node_set_ g → exists_edge x y g' = exists_edge x y g).
Proof.
  intros Hwf Hn. pose proof (wf_add_node g n Hwf) as Hwf'.
  rewrite add_node_fresh in Hwf' |- * by done. simpl in Hwf'.
  eexists. split; [done|].
  set (g' := mkGraph _ _ _ _) in *.
  assert (∀ x y, has_succ g' x y ↔ has_succ g x y) as He.
  { intros x y. unfold has_succ, g'; simpl. split.
    - intros (l & Hl & Hy). apply lookup_insert_Some in Hl as [[<- <-]|[Hne Hl]].
      + by apply elem_of_nil in Hy.
      + by exists l.
    - intros (l & Hl & Hy). exists l. split; [|done].
      rewrite lookup_insert_ne; [done|]. intros <-.
      destruct (wf_succ_node g n l y Hwf Hl Hy) as [? _]. done. }
  assert (n ∈ node_set_ g') as Hn' by (simpl; set_solver).
  split_and!.
  - intros x. apply exists_edge_false; [done..|]. rewrite He.
    intros (l & Hl & Hx). by destruct (wf_succ_node g n l x Hwf Hl Hx).
  - intros x Hx. apply exists_edge_false; [done..|]. rewrite He.
    intros (l & Hl & Hx'). by destruct (wf_succ_node g x l n Hwf Hl Hx').
  - intros x y Hx. apply exists_edge_ext; [done|done|simpl; set_solver|done|apply He].
Qed.

(** X3: on a well-formed graph [add_edge] ends in one of three ways: it
    returns, exactly when both endpoints are nodes, or it throws one of its
    two unknown-node errors; the [assert] never fails and no [at] throws. *)
Theorem add_edge_outcomes g a b :
  wf g →
  ((add_edge a b g).1 = Ok () ↔ a ∈ node_set_ g ∧ b ∈ node_set_ g) ∧
  ((add_edge a b g).1 = Ok () ∨ (add_edge a b g).1 = Throw UnknownFromNode ∨
   (add_edge a b g).1 = Throw UnknownToNode).
Proof.
  intros Hwf.
  destruct (decide (a ∈ node_set_ g)) as [Ha|Ha];
    [|rewrite add_edge_unknown_from by done; simpl; naive_solver].
  destruct (decide (b ∈ node_set_ g)) as [Hb|Hb];
    [|rewrite add_edge_unknown_to by done; simpl; naive_solver].
  destruct (add_edge_ok g a b Hwf Ha Hb) as (g' & -> & _). simpl. naive_solver.
Qed.

(** X4: the order of two [add_edge] calls does not matter: on a well-formed
    graph, whichever of the calls return or throw, the graph after
    [add_edge a b] then [add_edge c d] is the graph after [add_edge c d]
    then [add_edge a b]. *)
Theorem add_edge_commute g a b c d :
  wf g →
  (add_edge c d (add_edge a b g).2).2 = (add_edge a b (add_edge c d g).2).2.
Proof.
  intros Hwf.
  destruct (add_edge_state g a b Hwf) as (Hwf1 & Hn1 & Hp1 & He1).
  destruct (add_edge_state g c d Hwf) as (Hwf2 & Hn2 & Hp2 & He2).
  destruct (add_edge_state _ c d Hwf1) as (Hwf12 & Hn12 & Hp12 & He12).
  destruct (add_edge_state _ a b Hwf2) as (Hwf21 & Hn21 & Hp21 & He21).
  apply wf_graph_ext; [done|done|congruence|congruence|].
  intros x y. rewrite He12, He21, He1, He2, Hn1, Hn2. tauto.
Qed.

(** X5: the order of two [add_node] calls does not matter, on any graph:
    the graph after [add_node n] then [add_node m] is the graph after
    [add_node m] then [add_node n]. *)
Theorem add_node_commute g n m :
  (add_node m (add_node n g).2).2 = (add_node n (add_node m g).2).2.
Proof.
  destruct (decide (n = m)) as [->|Hne]; [done|].
  unfold add_node.
  repeat (case_decide; simpl in *); try done; try set_solver.
  apply graph_eq; simpl; [set_solver| | |done]; by apply insert_insert_ne.
Qed.

(** X6: two well-formed graphs are equal under [operator==] exactly when
    they have the same nodes and the same edges; how they were built (the
    order of the insertions, the printer) plays no part. *)
Theorem graph_eqb_nodes_edges g1 g2 :
  wf g1 → wf g2 →
  graph_eqb g1 g2 = true ↔
  node_set_ g1 = node_set_ g2 ∧ ∀ a b, has_succ g1 a b ↔ has_succ g2 a b.
Proof.
  intros Hwf1 Hwf2. rewrite graph_eqb_true. split.
  - intros (Hn & Hs & _). split; [done|]. intros a b. unfold has_succ. by rewrite Hs.
  - intros [Hn He]. split; [done|]. by apply wf_edges_eq.
Qed.
End edge_facts.

(* ================================================================== *)
(** ** The transforms, seen through [exists_edge] and composed *)
(* ================================================================== *)

Section transform_facts.
Context `{Node NodeType}.
Implicit Types (g ga gb gc : Graph (NodeType:=NodeType)) (a b x y : NodeType).

Lemma has_succ_exchange g a b :
  wf g →
  has_succ (mkGraph (node_set_ g) (pred_map_ g) (succ_map_ g) (node_printer_ g)) a b
  ↔ has_succ g b a.
Proof. intros Hwf. by rewrite (wf_mirror g Hwf). Qed.

Lemma has_succ_cleared (N : gset NodeType) pr a b :
  ¬ has_succ (mkGraph N (gset_to_gmap [] N) (gset_to_gmap [] N) pr) a b.
Proof.
  intros (l & [_ <-]%lookup_gset_to_gmap_Some & Hb). by apply elem_of_nil in Hb.
Qed.

(** X7: on a well-formed graph [transpose] returns a graph with the same
    nodes and printer in which [exists_edge a b] answers what
    [exists_edge b a] answers in the graph it was made from. *)
Theorem transpose_exists_edge g :
  wf g →
  ∃ t, transpose g = Ok t ∧ node_set_ t = node_set_ g ∧
    node_printer_ t = node_printer_ g ∧
    ∀ a b, a ∈ node_set_ g → b ∈ node_set_ g →
           exists_edge a b t = exists_edge b a g.
Proof.
  intros Hwf. eexists. split; [by apply transpose_wf|]. split_and!; [done..|].
  intros a b Ha Hb. pose proof (wf_exchange g Hwf) as Hwft.
  destruct (wf_succ_lookup g b Hwf Hb) as [l Hl].
  destruct (wf_pred_lookup g a Hwf Ha) as [lp Hp].
  rewrite (exists_edge_wf _ a b lp), (exists_edge_wf g b a l) by done.
  f_equal. apply bool_decide_ext.
  pose proof (wf_mirror g Hwf b a) as Hm. unfold has_succ, has_pred in Hm.
  rewrite Hl, Hp in Hm. naive_solver.
Qed.

(** X8: on a well-formed graph [copy_and_clear] returns a graph with the
    same nodes and printer and no edge ([exists_edge] answers false for
    every node), and clearing that graph again returns it unchanged. *)
Theorem copy_and_clear_no_edges g :
  wf g →
  ∃ c, copy_and_clear g = Ok c ∧ node_set_ c = node_set_ g ∧
    node_printer_ c = node_printer_ g ∧
    (∀ a b, a ∈ node_set_ g → exists_edge a b c = Ok false) ∧
    copy_and_clear c = Ok c.
Proof.
  intros Hwf. eexists. split; [by apply copy_and_clear_wf|].
  pose proof (wf_cleared (node_set_ g) (node_printer_ g)) as Hwfc.
  split_and!; [done..| |].
  - intros a b Ha. apply exists_edge_false; [done..|]. apply has_succ_cleared.
  - by rewrite copy_and_clear_wf.
Qed.

(** X9: for two well-formed graphs over the same nodes, [operator+] returns
    a graph over these nodes, with the printer of the left operand, in
    which [exists_edge a b] is the disjunction of its answers in the two
    operands. *)
Theorem graph_union_exists_edge ga gb :
  wf ga → wf gb → node_set_ ga = node_set_ gb →
  ∃ r, graph_union ga gb = Ok r ∧ node_set_ r = node_set_ ga ∧
    node_printer_ r = node_printer_ ga ∧
    ∀ a b, a ∈ node_set_ ga →
      ∃ ea eb, exists_edge a b ga = Ok ea ∧ exists_edge a b gb = Ok eb ∧
               exists_edge a b r = Ok (ea || eb).
Proof.
  intros Hwfa Hwfb Hnodes.
  destruct (graph_union_ok ga gb Hwfa Hwfb Hnodes) as (r & Hr & Hwfr & Hn & Hp & He).
  exists r. split_and!; [done..|]. intros a b Ha.
  destruct (wf_succ_lookup ga a Hwfa Ha) as [la Hla].
  destruct (wf_succ_lookup gb a Hwfb) as [lb Hlb]; [congruence|].
  destruct (wf_succ_lookup r a Hwfr) as [lr Hlr]; [congruence|].
  exists (bool_decide (b ∈ la)), (bool_decide (b ∈ lb)).
  rewrite (exists_edge_wf ga a b la), (exists_edge_wf gb a b lb),
    (exists_edge_wf r a b lr) by done.
  split_and!; [done..|]. f_equal.
  specialize (He a b). unfold has_succ in He. rewrite Hla, Hlb, Hlr in He.
  apply eq_true_iff_eq. rewrite orb_true_iff, !bool_decide_eq_true. naive_solver.
Qed.

(** X10: [G + G] returns [G] itself, for a well-formed [G]. *)
Theorem graph_union_idempotent g : wf g → graph_union g g = Ok g.
Proof.
  intros Hwf.
  destruct (graph_union_ok g g Hwf Hwf eq_refl) as (r & -> & Hwfr & Hn & Hp & He).
  f_equal. apply wf_graph_ext; [done..|]. intros x y. rewrite He. tauto.
Qed.

(** X11: the cleared copy of a well-formed graph [G] is neutral for
    [operator+]: [G + C] and [C + G] both return [G]. *)
Theorem graph_union_cleared g :
  wf g →
  ∃ c, copy_and_clear g = Ok c ∧ graph_union g c = Ok g ∧ graph_union c g = Ok g.
Proof.
  intros Hwf. eexists. split; [by apply copy_and_clear_wf|].
  pose proof (wf_cleared (node_set_ g) (node_printer_ g)) as Hwfc.
  split.
  - destruct (graph_union_ok g _ Hwf Hwfc eq_refl) as (r & -> & Hwfr & Hn & Hp & He).
    f_equal. apply wf_graph_ext; [done..|]. intros x y. rewrite He.
    split; [|by left]. intros [?|[]%has_succ_cleared]. done.
  - destruct (graph_union_ok _ g Hwfc Hwf eq_refl) as (r & -> & Hwfr & Hn & Hp & He).
    f_equal. apply wf_graph_ext; [done..|]. intros x y. rewrite He.
    split; [|by right]. intros [[]%has_succ_cleared|?]. done.
Qed.

(** X12: [operator+] is associative: for three well-formed graphs over the
    same nodes, [(A + B) + C] and [A + (B + C)] return the same graph. *)
Theorem graph_union_assoc ga gb gc :
  wf ga → wf gb → wf gc →
  node_set_ ga = node_set_ gb → node_set_ gb = node_set_ gc →
  ∃ ab bc r, graph_union ga gb = Ok ab ∧ graph_union gb gc = Ok bc ∧
    graph_union ab gc = Ok r ∧ graph_union ga bc = Ok r.
Proof.
  intros Hwfa Hwfb Hwfc Hab Hbc.
  destruct (graph_union_ok ga gb Hwfa Hwfb Hab) as (ab & Heq1 & Hwf1 & Hn1 & Hp1 & He1).
  destruct (graph_union_ok gb gc Hwfb Hwfc Hbc) as (bc & Heq2 & Hwf2 & Hn2 & Hp2 & He2).
  destruct (graph_union_ok ab gc Hwf1 Hwfc) as (r1 & Heq3 & Hwf3 & Hn3 & Hp3 & He3);
    [congruence|].
  destruct (graph_union_ok ga bc Hwfa Hwf2) as (r2 & Heq4 & Hwf4 & Hn4 & Hp4 & He4);
    [congruence|].
  exists ab, bc, r1. split_and!; [done..|]. rewrite Heq4. f_equal.
  apply wf_graph_ext; [done|done|congruence|congruence|].
  intros x y. rewrite He3, He4, He1, He2. tauto.
Qed.

(** X13: [transpose] distributes over [operator+]: for two well-formed
    graphs over the same nodes, the transpose of [A + B] is the graph
    [transpose A + transpose B]. *)
Theorem transpose_graph_union ga gb :
  wf ga → wf gb → node_set_ ga = node_set_ gb →
  ∃ ab ta tb r, graph_union ga gb = Ok ab ∧ transpose ga = Ok ta ∧
    transpose gb = Ok tb ∧ transpose ab = Ok r ∧ graph_union ta tb = Ok r.
Proof.
  intros Hwfa Hwfb Hnodes.
  destruct (graph_union_ok ga gb Hwfa Hwfb Hnodes) as (ab & Heq & Hwf & Hn & Hp & He).
  pose proof (wf_exchange ga Hwfa) as Hwfta.
  pose proof (wf_exchange gb Hwfb) as Hwftb.
  pose proof (wf_exchange ab Hwf) as Hwft.
  destruct (graph_union_ok _ _ Hwfta Hwftb Hnodes) as (r & Heqr & Hwfr & Hnr & Hpr & Her).
  eexists ab, _, _, _. split_and!; [done|by apply transpose_wf..|].
  rewrite Heqr. f_equal. apply wf_graph_ext; [done|done|simpl in *; congruence..|].
  intros x y. rewrite Her, !has_succ_exchange, He by done. tauto.
Qed.

(** X23: for two well-formed graphs [operator+] ends in one of two ways: it
    throws its logic_error exactly when the node sets differ, and returns
    exactly when they are equal; no [add_edge] inside it throws. *)
Theorem graph_union_outcomes ga gb :
  wf ga → wf gb →
  (graph_union ga gb = Throw IncompatibleNodeSets ↔ node_set_ ga ≠ node_set_ gb) ∧
  ((∃ r, graph_union ga gb = Ok r) ↔ node_set_ ga = node_set_ gb).
Proof.
  intros Hwfa Hwfb. destruct (decide (node_set_ ga = node_set_ gb)) as [Heq|Hne].
  - destruct (graph_union_ok ga gb Hwfa Hwfb Heq) as (r & Hr & _). rewrite Hr. split.
    + split; [done|]. by intros [].
    + split; [done|]. by exists r.
  - unfold graph_union. rewrite decide_True by done. split.
    + done.
    + split; [by intros [r ?]|done].
Qed.
End transform_facts.

(* ================================================================== *)
(** ** Depth-first search: what a visit leaves behind *)
(* ================================================================== *)

Section visit_facts.
Context `{Node NodeType}.
Implicit Types (g : Graph (NodeType:=NodeType)) (a b n x y k : NodeType).
Implicit Types (m : gmap NodeType (DfsProps (NodeType:=NodeType))).
Implicit Types (p : DfsProps (NodeType:=NodeType)) (t : Z).

Lemma map_at_None {V} (mv : gmap NodeType V) k :
  mv !! k = None → map_at mv k = Throw out_of_range.
Proof. intros Hk. unfold map_at. by rewrite Hk. Qed.

Lemma props_update_None m k f :
  m !! k = None → props_update k f m = Throw out_of_range.
Proof. intros Hk. unfold props_update, map_at. by rewrite Hk. Qed.

(** Induction over the calls of a visit that returns: [P] for a visit, [Q]
    for the loop over the successors. *)
Lemma dfs_visit_rec_ind g
    (P : NodeType → gmap NodeType DfsProps → Z → Z → list NodeType →
         gmap NodeType DfsProps → Prop)
    (Q : NodeType → list NodeType → gmap NodeType DfsProps → Z → Z →
         list NodeType → gmap NodeType DfsProps → Prop) :
  (∀ node m t, Q node [] m t t [] m) →
  (∀ node x l m t p t1 cv m1 t' ext m',
     m !! x = Some p → color p = WHITE →
     P x (<[x := set_parent node p]> m) t t1 cv m1 →
     Q node l m1 t1 t' ext m' →
     Q node (x :: l) m t t' (cv ++ ext) m') →
  (∀ node x l m t p t' ext m',
     m !! x = Some p → color p ≠ WHITE →
     Q node l m t t' ext m' → Q node (x :: l) m t t' ext m') →
  (∀ n m t p succs t' ext m2 p2,
     m !! n = Some p → succ_map_ g !! n = Some succs →
     Q n succs (<[n := set_color GRAY (set_discovery_time (t + 1) p)]> m)
       (t + 1) t' ext m2 →
     m2 !! n = Some p2 →
     P n m t (t' + 1) (n :: ext)
       (<[n := set_finish_time (t' + 1) (set_color BLACK p2)]> m2)) →
  ∀ (f : nat) n m t t' ret m',
    dfs_visit_rec f g n m t = Ok (t', ret, m') → P n m t t' ret m'.
Proof.
  intros Hnil Hwhite Hother Hvisit f.
  induction f as [|f IH]; intros n m t t' ret m' Hrun; [done|].
  cbn [dfs_visit_rec] in Hrun.
  destruct (m !! n) as [p|] eqn:Hp;
    [|by rewrite (props_update_None m n) in Hrun].
  rewrite (props_update_Some m n p) in Hrun by done.
  cbn [mbind result_bind] in Hrun.
  rewrite (props_update_Some _ n (set_discovery_time (t + 1) p)) in Hrun
    by apply lookup_insert_eq.
  cbn [mbind result_bind] in Hrun. rewrite insert_insert_eq in Hrun.
  destruct (succ_map_ g !! n) as [succs|] eqn:Hs;
    [|by rewrite (map_at_None _ n) in Hrun].
  rewrite (map_at_Some _ n succs) in Hrun by done.
  cbn [mbind result_bind] in Hrun.
  assert (∀ l m0 t0 ret0 t1 ret1 m1,
            visit_successors (dfs_visit_rec f g) n l (t0, ret0, m0) = Ok (t1, ret1, m1) →
            ∃ ext, ret1 = ret0 ++ ext ∧ Q n l m0 t0 t1 ext m1) as Hloop.
  { unfold visit_successors.
    induction l as [|x l IHl]; intros m0 t0 ret0 t1 ret1 m1 Hl.
    { simplify_eq/=. exists []. by rewrite app_nil_r. }
    cbn [for_each] in Hl.
    destruct (m0 !! x) as [px|] eqn:Hx;
      [|by rewrite (map_at_None m0 x) in Hl].
    rewrite (map_at_Some m0 x px) in Hl by done. cbn [mbind result_bind] in Hl.
    case_decide as Hc; cbn [mbind result_bind] in Hl.
    - rewrite (props_update_Some m0 x px) in Hl by done.
      cbn [mbind result_bind] in Hl.
      destruct (dfs_visit_rec f g x _ t0) as [[[t2 cv] m2]| |] eqn:Hcall; [|done..].
      cbn [mbind result_bind] in Hl.
      apply IH in Hcall. apply IHl in Hl as (ext & -> & HQ).
      exists (cv ++ ext). split; [by rewrite app_assoc|]. by eapply Hwhite.
    - apply IHl in Hl as (ext & -> & HQ). exists ext. split; [done|].
      by eapply Hother. }
  destruct (visit_successors _ n succs _) as [[[t2 r2] m2]| |] eqn:Hvs; [|done..].
  cbn [mbind result_bind] in Hrun.
  apply Hloop in Hvs as (ext & -> & HQ).
  destruct (m2 !! n) as [p2|] eqn:Hp2;
    [|by rewrite (props_update_None m2 n) in Hrun].
  rewrite (props_update_Some m2 n p2) in Hrun by done.
  cbn [mbind result_bind] in Hrun.
  rewrite (props_update_Some _ n (set_color BLACK p2)) in Hrun by apply lookup_insert_eq.
  cbn [mbind result_bind] in Hrun. rewrite insert_insert_eq in Hrun.
  simplify_eq/=. by eapply Hvisit.
Qed.

Lemma white_step_mono g (W W' : gset NodeType) x y :
  W ⊆ W' → rtc (white_step g W) x y → rtc (white_step g W') x y.
Proof.
  intros HW. apply rtc_subrel. intros a b [Hab Hb]. split; [done|]. by apply HW.
Qed.

Lemma not_white_black m k p : m !! k = Some p → color p = BLACK → k ∉ whites m.
Proof. intros Hk Hc (p' & Hk' & Hc')%elem_of_whites. congruence. Qed.

(** Whites only shrink when the entries outside [ext] stay and those inside
    turn black. *)
Lemma whites_shrink m m' (ext : list NodeType) :
  (∀ k, k ∉ ext → m' !! k = m !! k) →
  (∀ k, k ∈ ext → ∃ p', m' !! k = Some p' ∧ color p' = BLACK) →
  whites m' ⊆ whites m.
Proof.
  intros Hframe Hblack k Hk. destruct (decide (k ∈ ext)) as [Hin|Hin].
  - destruct (Hblack k Hin) as (p' & Hp' & Hc). by destruct (not_white_black m' k p').
  - apply elem_of_whites in Hk as (p & Hp & Hc). apply elem_of_whites.
    exists p. by rewrite <- Hframe.
Qed.

Lemma loop_post_whites g node l m t t' ext m' :
  loop_post g node l m t t' ext m' → whites m' ⊆ whites m.
Proof.
  intros HQ. apply (whites_shrink m m' ext); [apply (lp_frame _ _ _ _ _ _ _ _ HQ)|].
  intros k Hk. destruct (lp_stamps _ _ _ _ _ _ _ _ HQ k Hk) as (p' & ? & ? & _). eauto.
Qed.

Lemma visit_post_whites g n m t t' ret m' :
  visit_post g n m t t' ret m' → whites m' ⊆ whites m ∖ {[n]}.
Proof.
  intros HP k Hk. apply elem_of_difference. split.
  - revert k Hk. apply (whites_shrink m m' ret); [apply (vp_frame _ _ _ _ _ _ _ HP)|].
    intros k Hk. destruct (vp_stamps _ _ _ _ _ _ _ HP k Hk) as (p' & ? & ? & _). eauto.
  - intros ->%elem_of_singleton.
    destruct (vp_head _ _ _ _ _ _ _ HP) as [vs ->].
    destruct (vp_stamps _ _ _ _ _ _ _ HP n) as (p' & Hp' & Hc & _); [set_solver|].
    by destruct (not_white_black m' n p').
Qed.

Lemma loop_post_nil g node m t : loop_post g node [] m t t [] m.
Proof.
  split; try done; try (by intros ? ?%elem_of_nil);
    try (by intros ? ? ?%elem_of_nil); try (by intros ? ? ? ? ?%elem_of_nil).
  constructor.
Qed.

Lemma loop_post_other g node x l m t t' ext m' p :
  m !! x = Some p → color p ≠ WHITE →
  loop_post g node l m t t' ext m' → loop_post g node (x :: l) m t t' ext m'.
Proof.
  intros Hx Hc HQ. pose proof (loop_post_whites _ _ _ _ _ _ _ _ HQ) as Hw.
  destruct HQ as [? ? ? ? ? ? ? ? Hreach ? Hproc]. split; try done.
  - intros k Hk. destruct (Hreach k Hk) as (x' & ? & ? & ?). exists x'.
    split; [set_solver|done].
  - intros y [->|Hy]%elem_of_cons; [|by apply Hproc].
    intros (p' & Hp' & Hc')%Hw%elem_of_whites. congruence.
Qed.

Lemma loop_post_white g node x l m t p t1 cv m1 t' ext m' :
  m !! x = Some p → color p = WHITE → has_succ g node x →
  visit_post g x (<[x := set_parent node p]> m) t t1 cv m1 →
  loop_post g node l m1 t1 t' ext m' →
  loop_post g node (x :: l) m t t' (cv ++ ext) m'.
Proof.
  intros Hx Hc Hedge HP HQ.
  pose proof (visit_post_whites _ _ _ _ _ _ _ HP) as Hw1.
  pose proof (loop_post_whites _ _ _ _ _ _ _ _ HQ) as Hw2.
  assert (x ∈ whites m) as Hxw by (apply elem_of_whites; eauto).
  rewrite whites_insert_white in Hw1 by done.
  destruct HP as [[vs Hcv] Hdom1 Hframe1 Hstamps1 Horigin1 Hnd1 Hroot1 Hpar1 Hinj1
                    Hreach1 Hclosed1].
  destruct HQ as [Hclock2 Hdom2 Hframe2 Hstamps2 Horigin2 Hnd2 Hpar2 Hinj2
                    Hreach2 Hclosed2 Hproc2].
  rewrite whites_insert_white in Horigin1, Hreach1 by done.
  assert (x ∈ cv) as Hxcv by (rewrite Hcv; set_solver).
  assert (∀ k, k ∈ cv → k ∉ ext) as Hdisj.
  { intros k Hk1 Hk2. apply Horigin2 in Hk2.
    destruct (Hstamps1 k Hk1) as (p' & Hp' & Hc' & _).
    by destruct (not_white_black m1 k p'). }
  assert (t < t1) as Hlt.
  { destruct (Hstamps1 x Hxcv) as (p' & _ & _ & ? & ? & ?). lia. }
  assert (∀ k, k ∈ cv → m' !! k = m1 !! k) as Hkeep.
  { intros k Hk. apply Hframe2. by apply Hdisj. }
  split.
  - lia.
  - rewrite Hdom2, Hdom1, dom_insert_L. apply elem_of_dom_2 in Hx. set_solver.
  - intros k [Hk1 Hk2]%not_elem_of_app.
    rewrite Hframe2, Hframe1 by done. apply lookup_insert_ne. by intros <-.
  - intros k [Hk|Hk]%elem_of_app.
    + destruct (Hstamps1 k Hk) as (p' & Hp' & ? & ? & ? & ?). exists p'.
      rewrite Hkeep by done. split_and!; [done..|lia].
    + destruct (Hstamps2 k Hk) as (p' & Hp' & ? & ? & ? & ?). exists p'.
      split_and!; [done|done|lia|done|done].
  - intros k [Hk|Hk]%elem_of_app.
    + destruct (decide (k = x)) as [->|Hne]; [done|]. by apply Horigin1.
    + apply Horigin2 in Hk. set_solver.
  - apply NoDup_app. split_and!; [done|done|done].
  - intros k p' [Hk|Hk]%elem_of_app Hp'.
    + rewrite Hkeep in Hp' by done.
      destruct (decide (k = x)) as [->|Hne].
      * assert (parent p' = node) as ->.
        { erewrite (Hroot1 _ p'); [|apply lookup_insert_eq|done]. done. }
        split; [by left|done].
      * destruct (Hpar1 k p' Hk Hne Hp') as [? ?]. split; [right; set_solver|done].
    + destruct (Hpar2 k p' Hk Hp') as [[?|?] ?]; (split; [|done]); [by left|].
      right. set_solver.
  - intros k1 k2 p1 p2 [Hk1|Hk1]%elem_of_app [Hk2|Hk2]%elem_of_app Hp1 Hp2 Hf.
    + rewrite Hkeep in Hp1, Hp2 by done. by eapply Hinj1.
    + rewrite Hkeep in Hp1 by done.
      destruct (Hstamps1 k1 Hk1) as (p1' & Hp1' & _ & _ & _ & ?).
      destruct (Hstamps2 k2 Hk2) as (p2' & Hp2' & _ & ? & ? & _).
      simplify_eq. lia.
    + rewrite Hkeep in Hp2 by done.
      destruct (Hstamps1 k2 Hk2) as (p2' & Hp2' & _ & _ & _ & ?).
      destruct (Hstamps2 k1 Hk1) as (p1' & Hp1' & _ & ? & ? & _).
      simplify_eq. lia.
    + by eapply Hinj2.
  - intros k [Hk|Hk]%elem_of_app.
    + exists x. split_and!; [set_solver|done|].
      eapply white_step_mono; [|by apply Hreach1]. set_solver.
    + destruct (Hreach2 k Hk) as (x' & ? & ? & ?). exists x'.
      split_and!; [set_solver|set_solver|].
      eapply white_step_mono; [|done]. set_solver.
  - intros x' y [Hk|Hk]%elem_of_app Hxy.
    + intros Hy%Hw2. by eapply Hclosed1.
    + by eapply Hclosed2.
  - intros y [->|Hy]%elem_of_cons; [|by apply Hproc2].
    intros Hy%Hw2. destruct (Hstamps1 x Hxcv) as (p' & Hp' & Hc' & _).
    by destruct (not_white_black m1 x p').
Qed.

Lemma visit_post_intro g n m t p succs t' ext m2 p2 :
  m !! n = Some p → succ_map_ g !! n = Some succs →
  loop_post g n succs (<[n := set_color GRAY (set_discovery_time (t + 1) p)]> m)
    (t + 1) t' ext m2 →
  m2 !! n = Some p2 →
  visit_post g n m t (t' + 1) (n :: ext)
    (<[n := set_finish_time (t' + 1) (set_color BLACK p2)]> m2).
Proof.
  intros Hn Hsuccs HQ Hn2.
  pose proof (loop_post_whites _ _ _ _ _ _ _ _ HQ) as Hw2.
  rewrite whites_insert_other in Hw2 by done.
  destruct HQ as [Hclock Hdom Hframe Hstamps Horigin Hnd Hpar Hinj Hreach Hclosed Hproc].
  rewrite whites_insert_other in Horigin, Hreach by done.
  assert (n ∉ ext) as Hnext.
  { intros Hin%Horigin. set_solver. }
  assert (p2 = set_color GRAY (set_discovery_time (t + 1) p)) as Hp2.
  { rewrite Hframe, lookup_insert_eq in Hn2 by done. congruence. }
  assert (∀ k, k ∈ ext → k ≠ n) as Hne by (intros k Hk ->; done).
  split.
  - by eexists.
  - rewrite dom_insert_L, Hdom, dom_insert_L.
    apply elem_of_dom_2 in Hn. apply elem_of_dom_2 in Hn2. set_solver.
  - intros k [Hkn Hk]%not_elem_of_cons.
    rewrite lookup_insert_ne, Hframe, lookup_insert_ne by done. done.
  - intros k [->|Hk]%elem_of_cons.
    + eexists. rewrite lookup_insert_eq. split; [done|].
      subst p2. simpl. split_and!; [done|lia|lia|lia].
    + destruct (Hstamps k Hk) as (p' & Hp' & ? & ? & ? & ?). exists p'.
      rewrite lookup_insert_ne by (apply not_eq_sym, Hne, Hk).
      split_and!; [done|done|lia|done|lia].
  - intros k [->|Hk]%elem_of_cons Hkn; [done|]. apply Horigin in Hk. set_solver.
  - by constructor.
  - intros p0 p' Hp0 Hp'. rewrite lookup_insert_eq in Hp'. simplify_eq. done.
  - intros k p' [->|Hk]%elem_of_cons Hkn Hp'; [done|].
    rewrite lookup_insert_ne in Hp' by (apply not_eq_sym, Hne, Hk).
    destruct (Hpar k p' Hk Hp') as [[->|?] ?]; (split; [set_solver|done]).
  - intros k1 k2 p1 p2' [->|Hk1]%elem_of_cons [->|Hk2]%elem_of_cons Hp1 Hp2' Hf; [done|..].
    + rewrite lookup_insert_eq in Hp1.
      rewrite lookup_insert_ne in Hp2' by (apply not_eq_sym, Hne, Hk2).
      destruct (Hstamps k2 Hk2) as (p' & Hp' & _ & _ & _ & ?). simplify_eq/=. lia.
    + rewrite lookup_insert_eq in Hp2'.
      rewrite lookup_insert_ne in Hp1 by (apply not_eq_sym, Hne, Hk1).
      destruct (Hstamps k1 Hk1) as (p' & Hp' & _ & _ & _ & ?). simplify_eq/=. lia.
    + rewrite lookup_insert_ne in Hp1 by (apply not_eq_sym, Hne, Hk1).
      rewrite lookup_insert_ne in Hp2' by (apply not_eq_sym, Hne, Hk2).
      by eapply Hinj.
  - intros k [->|Hk]%elem_of_cons; [done|].
    destruct (Hreach k Hk) as (x & Hx & Hxw & Hpath).
    eapply rtc_l; [|done]. split; [by exists succs|done].
  - intros x y [->|Hx]%elem_of_cons Hxy.
    + rewrite whites_insert_other by done.
      destruct Hxy as (l & Hl & Hy). assert (l = succs) as -> by congruence.
      apply Hproc in Hy. set_solver.
    + rewrite whites_insert_other by done.
      pose proof (Hclosed x y Hx Hxy). set_solver.
Qed.

(** A visit that returns leaves behind what [visit_post] says, on any
    graph and from any map. *)
Lemma dfs_visit_rec_post g (f : nat) n m t t' ret m' :
  dfs_visit_rec f g n m t = Ok (t', ret, m') → visit_post g n m t t' ret m'.
Proof.
  revert f n m t t' ret m'.
  apply (dfs_visit_rec_ind g (visit_post g)
           (λ node l m t t' ext m',
              (∀ x, x ∈ l → has_succ g node x) → loop_post g node l m t t' ext m')).
  - intros node m t _. apply loop_post_nil.
  - intros node x l m t p t1 cv m1 t' ext m' Hx Hc HP HQ Hl.
    eapply loop_post_white; [done|done|apply Hl; set_solver|done|].
    apply HQ. intros y Hy. apply Hl. set_solver.
  - intros node x l m t p t' ext m' Hx Hc HQ Hl.
    eapply loop_post_other; [done..|]. apply HQ. intros y Hy. apply Hl. set_solver.
  - intros n m t p succs t' ext m2 p2 Hn Hs HQ Hn2.
    eapply visit_post_intro; [done..| |done].
    apply HQ. intros x Hx. by exists succs.
Qed.
End visit_facts.

(* ================================================================== *)
(** ** Depth-first search: discovery and finish times *)
(* ================================================================== *)

Section visit_times_facts.
Context `{Node NodeType}.
Implicit Types (g : Graph (NodeType:=NodeType)) (a b n x y k : NodeType).
Implicit Types (m : gmap NodeType (DfsProps (NodeType:=NodeType))).
Implicit Types (p : DfsProps (NodeType:=NodeType)) (t : Z).

Lemma stamps_inside_refl p : stamps_inside p p.
Proof. unfold stamps_inside. lia. Qed.

Lemma white_step_reachable g (W : gset NodeType) x y :
  rtc (white_step g W) x y → reachable g x y.
Proof. apply rtc_subrel. by intros a b [? _]. Qed.

Lemma visit_times_nil g m : visit_times g m [] m.
Proof.
  split.
  - by intros k1 k2 p1 p2 ?%elem_of_nil.
  - by intros k1 k2 p1 p2 ?%elem_of_nil.
  - by intros x y px ?%elem_of_nil.
Qed.

Lemma visit_times_white g node x l m t p t1 cv m1 t' ext m' :
  m !! x = Some p → color p = WHITE →
  visit_post g x (<[x := set_parent node p]> m) t t1 cv m1 →
  visit_times g (<[x := set_parent node p]> m) cv m1 →
  loop_post g node l m1 t1 t' ext m' →
  visit_times g m1 ext m' →
  visit_times g m (cv ++ ext) m'.
Proof.
  intros Hx Hc HP HT HQ HU.
  assert (whites (<[x := set_parent node p]> m) = whites m) as Hw0.
  { apply whites_insert_white; [done|]. apply elem_of_whites. eauto. }
  pose proof (vp_stamps _ _ _ _ _ _ _ HP) as Hstamps1.
  pose proof (vp_frame _ _ _ _ _ _ _ HP) as Hframe1.
  pose proof (lp_stamps _ _ _ _ _ _ _ _ HQ) as Hstamps2.
  pose proof (lp_frame _ _ _ _ _ _ _ _ HQ) as Hframe2.
  pose proof (lp_origin _ _ _ _ _ _ _ _ HQ) as Horigin2.
  pose proof (visit_post_whites _ _ _ _ _ _ _ HP) as Hw1. rewrite Hw0 in Hw1.
  assert (∀ k, k ∈ cv → k ∉ ext) as Hdisj.
  { intros k Hk Hk2. destruct (Hstamps1 k Hk) as (p' & Hp' & Hb & _).
    by apply (not_white_black m1 k p' Hp' Hb), Horigin2. }
  assert (∀ k, k ∈ cv → m' !! k = m1 !! k) as Hkeep.
  { intros k Hk. apply Hframe2. by apply Hdisj. }
  split.
  - intros k1 k2 p1 p2 [Hk1|Hk1]%elem_of_app [Hk2|Hk2]%elem_of_app Hp1 Hp2.
    + rewrite Hkeep in Hp1, Hp2 by done. by apply (vt_paren _ _ _ _ HT k1 k2 p1 p2).
    + rewrite Hkeep in Hp1 by done.
      destruct (Hstamps1 k1 Hk1) as (q1 & Hq1 & _ & ? & ? & ?).
      destruct (Hstamps2 k2 Hk2) as (q2 & Hq2 & _ & ? & ? & ?).
      simplify_eq. right; right. left. lia.
    + rewrite Hkeep in Hp2 by done.
      destruct (Hstamps2 k1 Hk1) as (q1 & Hq1 & _ & ? & ? & ?).
      destruct (Hstamps1 k2 Hk2) as (q2 & Hq2 & _ & ? & ? & ?).
      simplify_eq. right; right. right. lia.
    + by apply (vt_paren _ _ _ _ HU k1 k2 p1 p2).
  - intros k1 k2 p1 p2 [Hk1|Hk1]%elem_of_app [Hk2|Hk2]%elem_of_app Hp1 Hp2 [Hd Hf].
    + rewrite Hkeep in Hp1, Hp2 by done. by apply (vt_desc _ _ _ _ HT k1 k2 p1 p2).
    + rewrite Hkeep in Hp1 by done.
      destruct (Hstamps1 k1 Hk1) as (q1 & Hq1 & _ & ? & ? & ?).
      destruct (Hstamps2 k2 Hk2) as (q2 & Hq2 & _ & ? & ? & ?).
      simplify_eq. lia.
    + rewrite Hkeep in Hp2 by done.
      destruct (Hstamps2 k1 Hk1) as (q1 & Hq1 & _ & ? & ? & ?).
      destruct (Hstamps1 k2 Hk2) as (q2 & Hq2 & _ & ? & ? & ?).
      simplify_eq. lia.
    + by apply (vt_desc _ _ _ _ HU k1 k2 p1 p2).
  - intros x' y px [Hx'|Hx']%elem_of_app Hedge Hpx.
    + rewrite Hkeep in Hpx by done.
      destruct (vt_edges _ _ _ _ HT x' y px Hx' Hedge Hpx) as [[Hy Hyw]|(py & Hy & Hpy & Hrel)].
      * left. rewrite Hw0 in Hyw. split; [|done].
        intros [?|Hy2]%elem_of_app; [done|]. apply Horigin2, Hw1 in Hy2. set_solver.
      * right. exists py. split_and!; [set_solver|by rewrite Hkeep|done].
    + destruct (vt_edges _ _ _ _ HU x' y px Hx' Hedge Hpx) as [[Hy Hyw]|(py & Hy & Hpy & Hrel)].
      * destruct (decide (y ∈ cv)) as [Hycv|Hycv].
        -- right. destruct (Hstamps1 y Hycv) as (py & Hpy & _ & ? & ? & ?).
           destruct (Hstamps2 x' Hx') as (qx & Hqx & _ & ? & ? & ?). simplify_eq.
           exists py. split_and!; [set_solver|by rewrite Hkeep|left; lia].
        -- left. split; [set_solver|]. intros (py & Hpy & Hcy)%elem_of_whites.
           apply Hyw. apply elem_of_whites. exists py. split; [|done].
           rewrite (Hframe1 y Hycv). rewrite lookup_insert_ne; [done|].
           intros <-. destruct (vp_head _ _ _ _ _ _ _ HP) as [vs ->]. set_solver.
      * right. exists py. split_and!; [set_solver|done..].
Qed.

Lemma visit_times_intro g n m t p succs t' ext m2 p2 :
  m !! n = Some p → succ_map_ g !! n = Some succs →
  loop_post g n succs (<[n := set_color GRAY (set_discovery_time (t + 1) p)]> m)
    (t + 1) t' ext m2 →
  visit_times g (<[n := set_color GRAY (set_discovery_time (t + 1) p)]> m) ext m2 →
  m2 !! n = Some p2 →
  visit_times g m (n :: ext)
    (<[n := set_finish_time (t' + 1) (set_color BLACK p2)]> m2) ∧
  discovery_time p2 = t + 1.
Proof.
  intros Hn Hs HQ HU Hn2.
  pose proof (visit_post_intro g n m t p succs t' ext m2 p2 Hn Hs HQ Hn2) as HP.
  pose proof (lp_stamps _ _ _ _ _ _ _ _ HQ) as Hstamps.
  pose proof (lp_frame _ _ _ _ _ _ _ _ HQ) as Hframe.
  pose proof (lp_origin _ _ _ _ _ _ _ _ HQ) as Horigin.
  pose proof (lp_clock _ _ _ _ _ _ _ _ HQ) as Hclock.
  assert (whites (<[n := set_color GRAY (set_discovery_time (t + 1) p)]> m)
          = whites m ∖ {[n]}) as Hwg by (by apply whites_insert_other).
  assert (n ∉ ext) as Hnext.
  { intros Hin%Horigin. rewrite Hwg in Hin. set_solver. }
  assert (p2 = set_color GRAY (set_discovery_time (t + 1) p)) as Hp2.
  { rewrite (Hframe n Hnext), lookup_insert_eq in Hn2. congruence. }
  assert (discovery_time p2 = t + 1) as Hd2 by (by rewrite Hp2).
  split; [|done].
  set (pn := set_finish_time (t' + 1) (set_color BLACK p2)).
  assert (discovery_time pn = t + 1) as Hdn by done.
  assert (finish_time pn = t' + 1) as Hfn by done.
  assert (∀ k, k ∈ ext → k ≠ n) as Hne by (intros k Hk ->; done).
  split.
  - intros k1 k2 p1 p2' [->|Hk1]%elem_of_cons [->|Hk2]%elem_of_cons Hp1 Hp2'.
    + rewrite lookup_insert_eq in Hp1, Hp2'. simplify_eq. left. apply stamps_inside_refl.
    + rewrite lookup_insert_eq in Hp1. rewrite lookup_insert_ne in Hp2' by (symmetry; auto).
      destruct (Hstamps k2 Hk2) as (q2 & Hq2 & _ & ? & ? & ?). simplify_eq.
      left. unfold stamps_inside. lia.
    + rewrite lookup_insert_eq in Hp2'. rewrite lookup_insert_ne in Hp1 by (symmetry; auto).
      destruct (Hstamps k1 Hk1) as (q1 & Hq1 & _ & ? & ? & ?). simplify_eq.
      right; left. unfold stamps_inside. lia.
    + rewrite lookup_insert_ne in Hp1, Hp2' by (symmetry; auto).
      by apply (vt_paren _ _ _ _ HU k1 k2 p1 p2').
  - intros k1 k2 p1 p2' Hk1 Hk2 Hp1 Hp2' [Hd Hf].
    apply elem_of_cons in Hk1 as [->|Hk1].
    + eapply white_step_reachable, (vp_reach _ _ _ _ _ _ _ HP). done.
    + apply elem_of_cons in Hk2 as [->|Hk2].
      * rewrite lookup_insert_eq in Hp2'. rewrite lookup_insert_ne in Hp1 by (symmetry; auto).
        destruct (Hstamps k1 Hk1) as (q1 & Hq1 & _ & ? & ? & ?). simplify_eq. lia.
      * rewrite lookup_insert_ne in Hp1, Hp2' by (symmetry; auto).
        by apply (vt_desc _ _ _ _ HU k1 k2 p1 p2').
  - intros x y px [->|Hx]%elem_of_cons Hedge Hpx.
    + rewrite lookup_insert_eq in Hpx. assert (px = pn) as -> by congruence. clear Hpx.
      destruct (decide (y = n)) as [->|Hyn].
      { right. exists pn. rewrite lookup_insert_eq.
        split_and!; [set_solver|done|right; apply stamps_inside_refl]. }
      destruct (decide (y ∈ ext)) as [Hy|Hy].
      { right. destruct (Hstamps y Hy) as (py & Hpy & _ & ? & ? & ?). exists py.
        rewrite lookup_insert_ne by (symmetry; auto).
        split_and!; [set_solver|done|left; lia]. }
      left. split; [set_solver|]. intros Hyw.
      destruct Hedge as (l & Hl & Hyl). assert (l = succs) as -> by congruence.
      apply (lp_processed _ _ _ _ _ _ _ _ HQ y Hyl).
      apply elem_of_whites in Hyw as (py & Hpy & Hcy).
      apply elem_of_whites. exists py. split; [|done].
      rewrite (Hframe y Hy). by rewrite lookup_insert_ne by (symmetry; auto).
    + rewrite lookup_insert_ne in Hpx by (symmetry; auto).
      destruct (vt_edges _ _ _ _ HU x y px Hx Hedge Hpx) as [[Hy Hyw]|(py & Hy & Hpy & Hrel)].
      * destruct (decide (y = n)) as [->|Hyn].
        -- right. exists pn. rewrite lookup_insert_eq.
           destruct (Hstamps x Hx) as (qx & Hqx & _ & ? & ? & ?).
           assert (qx = px) as -> by congruence.
           split_and!; [set_solver|done|right; unfold stamps_inside; lia].
        -- left. split; [set_solver|]. rewrite Hwg in Hyw. set_solver.
      * right. exists py. rewrite lookup_insert_ne by (symmetry; auto).
        split_and!; [set_solver|done..].
Qed.

Lemma StronglySorted_impl_elem {X} (R R' : relation X) (l : list X) :
  (∀ u v : X, u ∈ l → v ∈ l → R u v → R' u v) →
  StronglySorted R l → StronglySorted R' l.
Proof.
  intros Himpl Hsorted. induction Hsorted as [|u l Hsorted IH Hul]; [constructor|].
  constructor.
  - apply IH. intros v w Hv Hw. apply Himpl; set_solver.
  - rewrite Forall_forall in Hul |- *. intros v Hv. apply Himpl; [set_solver..|by apply Hul].
Qed.

(** The sequence of the loop is in the order of discovery ... *)
Lemma visit_order_white g node x l m t p t1 cv m1 t' ext m' :
  visit_post g x (<[x := set_parent node p]> m) t t1 cv m1 →
  loop_post g node l m1 t1 t' ext m' →
  StronglySorted (discovered_before m1) cv →
  StronglySorted (discovered_before m') ext →
  StronglySorted (discovered_before m') (cv ++ ext).
Proof.
  intros HP HQ Hcv Hext.
  pose proof (vp_stamps _ _ _ _ _ _ _ HP) as Hstamps1.
  pose proof (lp_stamps _ _ _ _ _ _ _ _ HQ) as Hstamps2.
  assert (∀ k, k ∈ cv → m' !! k = m1 !! k) as Hkeep.
  { intros k Hk. apply (lp_frame _ _ _ _ _ _ _ _ HQ). intros Hk2.
    destruct (Hstamps1 k Hk) as (p' & Hp' & Hb & _).
    by apply (not_white_black m1 k p' Hp' Hb), (lp_origin _ _ _ _ _ _ _ _ HQ). }
  apply StronglySorted_app_2; [| |done].
  - intros u v Hu Hv pu pv Hpu Hpv. rewrite Hkeep in Hpu by done.
    destruct (Hstamps1 u Hu) as (qu & Hqu & _ & ? & ? & ?).
    destruct (Hstamps2 v Hv) as (qv & Hqv & _ & ? & ? & ?).
    simplify_eq. lia.
  - eapply StronglySorted_impl_elem; [|done].
    intros u v Hu Hv Huv pu pv. rewrite !Hkeep by done. apply Huv.
Qed.

(** ... and its nodes are children of [node] or lie inside their
    parents. *)
Lemma visit_tree_white g node x l m t p t1 cv m1 t' ext m' :
  m !! x = Some p →
  visit_post g x (<[x := set_parent node p]> m) t t1 cv m1 →
  loop_post g node l m1 t1 t' ext m' →
  (∀ k p', k ∈ cv → k ≠ x → m1 !! k = Some p' → inside_parent m1 p') →
  (∀ k p', k ∈ ext → m' !! k = Some p' → parent p' = node ∨ inside_parent m' p') →
  ∀ k p', k ∈ cv ++ ext → m' !! k = Some p' → parent p' = node ∨ inside_parent m' p'.
Proof.
  intros Hx HP HQ Hcv Hext k p' Hk Hp'.
  pose proof (vp_stamps _ _ _ _ _ _ _ HP) as Hstamps1.
  assert (∀ k, k ∈ cv → m' !! k = m1 !! k) as Hkeep.
  { intros j Hj. apply (lp_frame _ _ _ _ _ _ _ _ HQ). intros Hj2.
    destruct (Hstamps1 j Hj) as (q & Hq & Hb & _).
    by apply (not_white_black m1 j q Hq Hb), (lp_origin _ _ _ _ _ _ _ _ HQ). }
  apply elem_of_app in Hk as [Hk|Hk]; [|by apply (Hext k)].
  rewrite Hkeep in Hp' by done.
  destruct (decide (k = x)) as [->|Hne].
  - left. rewrite (vp_root_parent _ _ _ _ _ _ _ HP (set_parent node p) p'); [done| |done].
    apply lookup_insert_eq.
  - right. destruct (Hcv k p' Hk Hne Hp') as (pp & Hpp & ? & ?).
    exists pp. split; [|done]. rewrite Hkeep; [done|].
    by apply (vp_parents _ _ _ _ _ _ _ HP k p' Hk Hne Hp').
Qed.

Lemma visit_order_intro g n m t p succs t' ext m2 p2 :
  m !! n = Some p →
  loop_post g n succs (<[n := set_color GRAY (set_discovery_time (t + 1) p)]> m)
    (t + 1) t' ext m2 →
  m2 !! n = Some p2 → discovery_time p2 = t + 1 →
  StronglySorted (discovered_before m2) ext →
  (∀ k p', k ∈ ext → m2 !! k = Some p' → parent p' = n ∨ inside_parent m2 p') →
  StronglySorted
    (discovered_before (<[n := set_finish_time (t' + 1) (set_color BLACK p2)]> m2))
    (n :: ext) ∧
  ∀ k p', k ∈ n :: ext → k ≠ n →
    <[n := set_finish_time (t' + 1) (set_color BLACK p2)]> m2 !! k = Some p' →
    inside_parent (<[n := set_finish_time (t' + 1) (set_color BLACK p2)]> m2) p'.
Proof.
  intros Hn HQ Hn2 Hd2 Hext Htree.
  pose proof (lp_stamps _ _ _ _ _ _ _ _ HQ) as Hstamps.
  assert (n ∉ ext) as Hnext.
  { intros Hin%(lp_origin _ _ _ _ _ _ _ _ HQ).
    rewrite whites_insert_other in Hin by done. set_solver. }
  assert (∀ k, k ∈ ext → k ≠ n) as Hne by (intros k Hk ->; done).
  split.
  - constructor.
    + eapply StronglySorted_impl_elem; [|done].
      intros u v Hu Hv Huv pu pv.
      rewrite !lookup_insert_ne by (symmetry; auto). apply Huv.
    + apply Forall_forall. intros v Hv pu pv.
      rewrite lookup_insert_eq, lookup_insert_ne by (symmetry; auto).
      intros [= <-] Hpv. destruct (Hstamps v Hv) as (qv & Hqv & _ & ? & ? & ?).
      simplify_eq. simpl. lia.
  - intros k p' [->|Hk]%elem_of_cons Hkn; [done|].
    rewrite lookup_insert_ne by done. intros Hp'.
    destruct (Hstamps k Hk) as (q & Hq & _ & ? & ? & ?).
    assert (q = p') as -> by congruence.
    destruct (decide (parent p' = n)) as [Hpar|Hpar].
    + eexists. rewrite Hpar, lookup_insert_eq. split; [done|]. simpl. lia.
    + destruct (Htree k p' Hk Hp') as [?|(pp & Hpp & ? & ?)]; [done|].
      exists pp. by rewrite lookup_insert_ne by done.
Qed.

(** A visit that returns leaves behind what [visit_post] and [visit_times]
    say, with the start node discovered at the first tick and finished at
    the last, the sequence in the order of discovery, and every node of it
    but the first inside its parent. *)
Lemma dfs_visit_rec_times g (f : nat) n m t t' ret m' :
  dfs_visit_rec f g n m t = Ok (t', ret, m') →
  visit_post g n m t t' ret m' ∧ visit_times g m ret m' ∧
  (∃ p', m' !! n = Some p' ∧ discovery_time p' = t + 1 ∧ finish_time p' = t') ∧
  StronglySorted (discovered_before m') ret ∧
  (∀ k p', k ∈ ret → k ≠ n → m' !! k = Some p' → inside_parent m' p').
Proof.
  revert f n m t t' ret m'.
  apply (dfs_visit_rec_ind g
           (λ n m t t' ret m',
              visit_post g n m t t' ret m' ∧ visit_times g m ret m' ∧
              (∃ p', m' !! n = Some p' ∧ discovery_time p' = t + 1 ∧
                     finish_time p' = t') ∧
              StronglySorted (discovered_before m') ret ∧
              (∀ k p', k ∈ ret → k ≠ n → m' !! k = Some p' → inside_parent m' p'))
           (λ node l m t t' ext m',
              (∀ x, x ∈ l → has_succ g node x) →
              loop_post g node l m t t' ext m' ∧ visit_times g m ext m' ∧
              StronglySorted (discovered_before m') ext ∧
              (∀ k p', k ∈ ext → m' !! k = Some p' →
                       parent p' = node ∨ inside_parent m' p'))).
  - intros node m t _. split_and!; [apply loop_post_nil|apply visit_times_nil|constructor|].
    by intros k p' ?%elem_of_nil.
  - intros node x l m t p t1 cv m1 t' ext m' Hx Hc (HP & HT & _ & Hord1 & Htree1) HQ Hl.
    destruct HQ as (HQ & HU & Hord2 & Htree2); [intros y Hy; apply Hl; set_solver|].
    split_and!.
    + eapply loop_post_white; [done|done|apply Hl; set_solver|done..].
    + by eapply visit_times_white.
    + by eapply visit_order_white.
    + by eapply visit_tree_white.
  - intros node x l m t p t' ext m' Hx Hc HQ Hl.
    destruct HQ as (HQ & HU & Hord & Htree); [intros y Hy; apply Hl; set_solver|].
    split_and!; [by eapply loop_post_other|done..].
  - intros n m t p succs t' ext m2 p2 Hn Hs HQ Hn2.
    destruct HQ as (HQ & HU & Hord & Htree); [intros x Hx; by exists succs|].
    destruct (visit_times_intro g n m t p succs t' ext m2 p2) as [HT Hd]; [done..|].
    destruct (visit_order_intro g n m t p succs t' ext m2 p2) as [Hord' Htree'];
      [done..|].
    split_and!; [by eapply visit_post_intro|done| |done..].
    eexists. rewrite lookup_insert_eq. split; [done|]. split; [|done]. exact Hd.
Qed.
End visit_times_facts.

(* ================================================================== *)
(** ** [std_sort_with] *)
(* ================================================================== *)

Section std_sort_with_facts.
Context {A : Type} (comp : A → A → result bool).

Lemma sort_insert_with_Permutation x l l' :
  sort_insert_with comp x l = Ok l' → l' ≡ₚ x :: l.
Proof.
  revert l'. induction l as [|y l IH]; intros l' Hl; simpl in Hl.
  { by simplify_eq. }
  destruct (comp y x) as [[|]| |]; simpl in Hl; [|by simplify_eq|done..].
  destruct (sort_insert_with comp x l) as [l''| |]; simpl in Hl; [|done..].
  simplify_eq. rewrite (IH l'') by done. apply Permutation_swap.
Qed.

Lemma std_sort_with_Permutation l l' : std_sort_with comp l = Ok l' → l' ≡ₚ l.
Proof.
  revert l'. induction l as [|x l IH]; intros l' Hl; simpl in Hl.
  { by simplify_eq. }
  destruct (std_sort_with comp l) as [s| |]; simpl in Hl; [|done..].
  apply sort_insert_with_Permutation in Hl. rewrite Hl. by rewrite (IH s).
Qed.

Lemma sort_insert_with_returns x l :
  (∀ y, y ∈ l → ∃ b, comp y x = Ok b) → ∃ l', sort_insert_with comp x l = Ok l'.
Proof.
  induction l as [|y l IH]; intros Hcomp; simpl; [by eexists|].
  destruct (Hcomp y) as [b ->]; [set_solver|]. simpl. destruct b; [|by eexists].
  destruct IH as [l' ->]; [|by eexists]. intros z Hz. apply Hcomp. set_solver.
Qed.

(** Sorting returns when the comparator returns on the elements. *)
Lemma std_sort_with_returns l :
  (∀ x y, x ∈ l → y ∈ l → ∃ b, comp x y = Ok b) → ∃ l', std_sort_with comp l = Ok l'.
Proof.
  induction l as [|x l IH]; intros Hcomp; simpl; [by eexists|].
  destruct IH as [s Hs]; [intros y z Hy Hz; apply Hcomp; set_solver|].
  rewrite Hs. simpl. apply sort_insert_with_returns.
  intros y Hy. apply Hcomp; [|set_solver].
  apply std_sort_with_Permutation in Hs. rewrite Hs in Hy. set_solver.
Qed.

Lemma sort_insert_with_sorted (R : relation A) (D : A → Prop) x l l' :
  (∀ a b, D a → D b → ∃ r : bool, comp a b = Ok r ∧ if r then R a b else R b a) →
  (∀ a b c, D a → D b → D c → R a b → R b c → R a c) →
  D x → Forall D l → StronglySorted R l →
  sort_insert_with comp x l = Ok l' → StronglySorted R l'.
Proof.
  intros Hcomp Htrans Hx. revert l'.
  induction l as [|y l IH]; intros l' HD Hsorted Hl; simpl in Hl.
  { simplify_eq. by repeat constructor. }
  apply Forall_cons in HD as [Hy HD].
  apply StronglySorted_inv in Hsorted as [Hsorted Hyl].
  destruct (Hcomp y x Hy Hx) as (r & Hr & HR). rewrite Hr in Hl. simpl in Hl.
  destruct r.
  - destruct (sort_insert_with comp x l) as [l''| |] eqn:Hins; simpl in Hl; [|done..].
    simplify_eq. constructor; [by apply IH|].
    apply sort_insert_with_Permutation in Hins. rewrite Hins. by constructor.
  - simplify_eq. constructor; [by constructor|]. constructor; [done|].
    rewrite Forall_forall in Hyl, HD |- *. intros z Hz.
    apply (Htrans x y z); auto.
Qed.

(** With a comparator that decides a total order [R] on the elements,
    transitive on them, the sorted vector is ordered by [R]. *)
Lemma std_sort_with_sorted (R : relation A) (D : A → Prop) l l' :
  (∀ a b, D a → D b → ∃ r : bool, comp a b = Ok r ∧ if r then R a b else R b a) →
  (∀ a b c, D a → D b → D c → R a b → R b c → R a c) →
  Forall D l → std_sort_with comp l = Ok l' → StronglySorted R l'.
Proof.
  intros Hcomp Htrans. revert l'.
  induction l as [|x l IH]; intros l' HD Hl; simpl in Hl.
  { simplify_eq. constructor. }
  apply Forall_cons in HD as [Hx HD].
  destruct (std_sort_with comp l) as [s| |] eqn:Hs; simpl in Hl; [|done..].
  eapply (sort_insert_with_sorted R D x s); [done..| |by apply IH|done].
  apply std_sort_with_Permutation in Hs. by rewrite Hs.
Qed.
End std_sort_with_facts.

(* ================================================================== *)
(** ** Depth-first search: visits and the search of the whole graph *)
(* ================================================================== *)

Section search_facts.
Context `{Node NodeType}.
Implicit Types (g : Graph (NodeType:=NodeType)) (a b n x y k : NodeType).
Implicit Types (m : gmap NodeType (DfsProps (NodeType:=NodeType))).
Implicit Types (p : DfsProps (NodeType:=NodeType)) (t : Z).

Lemma dfs_visit_post g n m t :
  wf g → n ∈ node_set_ g → dom m = node_set_ g →
  ∃ t' ret m', dfs_visit g n m t = Ok (t', ret, m') ∧
    visit_post g n m t t' ret m' ∧ t' = t + 2 * Z.of_nat (length ret) ∧
    visit_times g m ret m' ∧
    (∃ p', m' !! n = Some p' ∧ discovery_time p' = t + 1 ∧ finish_time p' = t') ∧
    StronglySorted (discovered_before m') ret ∧
    (∀ k p', k ∈ ret → k ≠ n → m' !! k = Some p' → inside_parent m' p').
Proof.
  intros Hwf Hn Hdom.
  destruct (dfs_visit_returns g n m t Hwf Hn Hdom) as ([[t' ret] m'] & Hrun & _).
  exists t', ret, m'. split; [done|].
  destruct (dfs_visit_rec_times g _ _ _ _ _ _ _ Hrun) as (HP & HT & Hroot & Hord & Htree).
  split_and!; [done| |done..]. by eapply dfs_visit_rec_clock.
Qed.

(** The nodes of the sequence of a visit are those the start node reaches
    along nodes that were white. *)
Lemma visit_post_white_paths g n m t t' ret m' k :
  visit_post g n m t t' ret m' →
  k ∈ ret ↔ rtc (white_step g (whites m ∖ {[n]})) n k.
Proof.
  intros HP. split; [apply (vp_reach _ _ _ _ _ _ _ HP)|].
  revert k. apply (rtc_ind_r (λ k, k ∈ ret)); [|intros y z Hy [Hyz Hz] IH].
  { destruct (vp_head _ _ _ _ _ _ _ HP) as [vs ->]. set_solver. }
  destruct (decide (z ∈ ret)) as [|Hout]; [done|].
  destruct (vp_closed _ _ _ _ _ _ _ HP y z IH Hyz).
  apply elem_of_difference in Hz as [(p & Hp & Hc)%elem_of_whites _].
  apply elem_of_whites. exists p. by rewrite (vp_frame _ _ _ _ _ _ _ HP z Hout).
Qed.

Lemma lookup_init_dfs_map g k :
  init_dfs_map g !! k =
    if decide (k ∈ node_set_ g) then Some (mkDfsProps node_default (-1) (-1) WHITE) else None.
Proof.
  unfold init_dfs_map.
  assert (∀ l m (w : DfsProps (NodeType:=NodeType)),
            foldl (λ ret node, <[node := w]> ret) m l !! k =
              if decide (k ∈ l) then Some w else m !! k) as Hfold.
  { induction l as [|x l IH]; intros m w; cbn [foldl].
    - destruct (decide (k ∈ [])) as [Hin|_]; [by apply not_elem_of_nil in Hin|done].
    - rewrite IH. destruct (decide (k ∈ l)) as [Hl|Hl], (decide (k ∈ x :: l)) as [Hxl|Hxl];
        try done; try (destruct Hxl; set_solver).
      apply elem_of_cons in Hxl as [->|?]; [|done]. by rewrite lookup_insert_eq.
      rewrite lookup_insert_ne; [done|]. intros <-. apply Hxl. set_solver. }
  rewrite Hfold, lookup_empty.
  destruct (decide (k ∈ node_set_ g)) as [Hk|Hk].
  - by rewrite decide_True by by apply elem_of_set_iter.
  - by rewrite decide_False by by rewrite elem_of_set_iter.
Qed.

Lemma whites_init_dfs_map g : whites (init_dfs_map g) = node_set_ g.
Proof.
  apply set_eq. intros k. rewrite elem_of_whites, lookup_init_dfs_map.
  destruct (decide (k ∈ node_set_ g)) as [Hk|Hk].
  - split; [done|]. intros _. by eexists.
  - split; [|done]. by intros (p & ? & _).
Qed.

(** On a well-formed graph, edges lead to nodes. *)
Lemma has_succ_nodes g a b : wf g → has_succ g a b → a ∈ node_set_ g ∧ b ∈ node_set_ g.
Proof.
  intros Hwf Hab. split.
  - destruct Hab as (l & Hl & _). rewrite <- (wf_succ_dom g Hwf). by apply elem_of_dom.
  - apply (wf_mirror g Hwf) in Hab as (l & Hl & _).
    rewrite <- (wf_pred_dom g Hwf). by apply elem_of_dom.
Qed.

(** With every node but the start white, the white paths from the start
    are the paths. *)
Lemma white_paths_reachable g n k :
  wf g → rtc (white_step g (node_set_ g ∖ {[n]})) n k ↔ reachable g n k.
Proof.
  intros Hwf. split.
  { apply rtc_subrel. by intros a b [? _]. }
  revert k. apply (rtc_ind_r (λ k, rtc (white_step g (node_set_ g ∖ {[n]})) n k));
    [done|intros y z Hy Hyz IH].
  destruct (decide (z = n)) as [->|Hne]; [done|].
  eapply rtc_r; [done|]. split; [done|].
  apply has_succ_nodes in Hyz as [_ ?]; [|done]. set_solver.
Qed.

Lemma dfs_visit_fresh g (this : Graph (NodeType:=NodeType)) n :
  wf g → n ∈ node_set_ g → node_set_ this = node_set_ g →
  ∃ t' ret m', dfs_visit g n (init_dfs_map this) 0 = Ok (t', ret, m') ∧
    NoDup ret ∧ (∃ vs, ret = n :: vs) ∧ ∀ k, k ∈ ret ↔ reachable g n k.
Proof.
  intros Hwf Hn Hnodes.
  destruct (dfs_visit_post g n (init_dfs_map this) 0) as (t' & ret & m' & Hrun & HP & _);
    [done..|by rewrite dom_init_dfs_map|].
  exists t', ret, m'. split_and!; [done|apply (vp_NoDup _ _ _ _ _ _ _ HP)|apply (vp_head _ _ _ _ _ _ _ HP)|].
  intros k. rewrite (visit_post_white_paths _ _ _ _ _ _ _ k HP).
  rewrite whites_init_dfs_map, Hnodes. by apply white_paths_reachable.
Qed.


(** X15: the white-path property of a visit.  On a well-formed graph, the
    sequence [dfs_visit] returns from [n] holds exactly the nodes that [n]
    reaches by a path whose nodes after [n] were white, and differ from
    [n], when the visit began. *)
Theorem dfs_visit_white_paths g n m t :
  wf g → n ∈ node_set_ g → dom m = node_set_ g →
  ∃ t' ret m', dfs_visit g n m t = Ok (t', ret, m') ∧
    ∀ k, k ∈ ret ↔ rtc (white_step g (whites m ∖ {[n]})) n k.
Proof.
  intros Hwf Hn Hdom.
  destruct (dfs_visit_post g n m t Hwf Hn Hdom) as (t' & ret & m' & Hrun & HP & _).
  exists t', ret, m'. split; [done|]. intros k. by eapply visit_post_white_paths.
Qed.

(** X16: on a well-formed graph, a visit from a node [n] with the map
    [init_dfs_map] gives (of a graph over the same nodes, as [scc] does)
    returns a sequence that starts with [n], has no repetition, and holds
    exactly the nodes reachable from [n]. *)
Theorem dfs_visit_reachable g (this : Graph (NodeType:=NodeType)) n :
  wf g → n ∈ node_set_ g → node_set_ this = node_set_ g →
  ∃ t' ret m', dfs_visit g n (init_dfs_map this) 0 = Ok (t', ret, m') ∧
    NoDup ret ∧ (∃ vs, ret = n :: vs) ∧ ∀ k, k ∈ ret ↔ reachable g n k.
Proof. apply dfs_visit_fresh. Qed.


(** *** The outer loop of [dfs] *)

Lemma dfs_inv_init g : dfs_inv g 0 (init_dfs_map g).
Proof.
  split.
  - apply dom_init_dfs_map.
  - intros k p. rewrite lookup_init_dfs_map. case_decide; [|done]. intros [= <-]. by left.
  - intros k1 k2 p1 p2. rewrite lookup_init_dfs_map. case_decide; [|done]. by intros [= <-].
  - rewrite whites_init_dfs_map. by rewrite difference_diag_L, size_empty.
Qed.

Lemma dfs_inv_clock g t m : dfs_inv g t m → 0 ≤ t.
Proof. intros Hinv. rewrite (di_clock _ _ _ Hinv). lia. Qed.

Lemma dfs_inv_visit g x m t t1 ret m1 :
  dfs_inv g t m → x ∈ whites m →
  visit_post g x m t t1 ret m1 → t1 = t + 2 * Z.of_nat (length ret) →
  dfs_inv g t1 m1 ∧ whites m1 ⊆ whites m ∧ x ∉ whites m1.
Proof.
  intros Hinv Hx HP Ht1.
  pose proof (dfs_inv_clock _ _ _ Hinv) as Ht.
  assert (x ∈ ret) as Hxret.
  { destruct (vp_head _ _ _ _ _ _ _ HP) as [vs ->]. set_solver. }
  assert (∀ k, k ∈ ret → k ∈ whites m) as Horigin.
  { intros k Hk. destruct (decide (k = x)) as [->|Hne]; [done|].
    by apply (vp_origin _ _ _ _ _ _ _ HP). }
  assert (whites m1 = whites m ∖ list_to_set ret) as Hwhites.
  { apply set_eq. intros k. rewrite elem_of_difference, elem_of_list_to_set. split.
    - intros Hk. assert (k ∉ ret) as Hout.
      { intros Hin. destruct (vp_stamps _ _ _ _ _ _ _ HP k Hin) as (p' & Hp' & Hc & _).
        by destruct (not_white_black m1 k p'). }
      split; [|done]. apply elem_of_whites in Hk as (p & Hp & Hc).
      apply elem_of_whites. exists p. by rewrite <- (vp_frame _ _ _ _ _ _ _ HP k Hout).
    - intros [(p & Hp & Hc)%elem_of_whites Hout]. apply elem_of_whites. exists p.
      by rewrite (vp_frame _ _ _ _ _ _ _ HP k Hout). }
  assert (t ≤ t1) as Hle by lia.
  split_and!.
  - split.
    + rewrite (vp_dom _ _ _ _ _ _ _ HP). apply (di_dom _ _ _ Hinv).
    + intros k p' Hk. destruct (decide (k ∈ ret)) as [Hin|Hout].
      * right. destruct (vp_stamps _ _ _ _ _ _ _ HP k Hin) as (p'' & Hp'' & Hc & Hd & Hdf & Hf).
        assert (p'' = p') as -> by congruence.
        split_and!; [done|lia|done|done|].
        destruct (decide (k = x)) as [->|Hne].
        -- left. pose proof Hx as (p & Hp & Hcp)%elem_of_whites.
           rewrite (vp_root_parent _ _ _ _ _ _ _ HP p p' Hp Hk).
           destruct (di_entries _ _ _ Hinv x p Hp) as [->|[Hb _]]; [done|congruence].
        -- right. by apply (vp_parents _ _ _ _ _ _ _ HP k p' Hin Hne Hk).
      * rewrite (vp_frame _ _ _ _ _ _ _ HP k Hout) in Hk.
        destruct (di_entries _ _ _ Hinv k p' Hk) as [->|(? & ? & ? & ? & ?)]; [by left|].
        right. split_and!; [done..|lia|done].
    + intros k1 k2 p1 p2 Hk1 Hk2 Hc1 Hc2 Hf.
      destruct (decide (k1 ∈ ret)) as [Hin1|Hout1], (decide (k2 ∈ ret)) as [Hin2|Hout2].
      * by eapply (vp_finish_inj _ _ _ _ _ _ _ HP).
      * exfalso. rewrite (vp_frame _ _ _ _ _ _ _ HP k2 Hout2) in Hk2.
        destruct (vp_stamps _ _ _ _ _ _ _ HP k1 Hin1) as (p'' & Hp'' & _ & Hd & Hdf & _).
        assert (p'' = p1) as -> by congruence.
        destruct (di_entries _ _ _ Hinv k2 p2 Hk2) as [->|(? & ? & ? & ? & ?)]; [done|lia].
      * exfalso. rewrite (vp_frame _ _ _ _ _ _ _ HP k1 Hout1) in Hk1.
        destruct (vp_stamps _ _ _ _ _ _ _ HP k2 Hin2) as (p'' & Hp'' & _ & Hd & Hdf & _).
        assert (p'' = p2) as -> by congruence.
        destruct (di_entries _ _ _ Hinv k1 p1 Hk1) as [->|(? & ? & ? & ? & ?)]; [done|lia].
      * rewrite (vp_frame _ _ _ _ _ _ _ HP k1 Hout1) in Hk1.
        rewrite (vp_frame _ _ _ _ _ _ _ HP k2 Hout2) in Hk2.
        by eapply (di_finish_inj _ _ _ Hinv).
    + rewrite Ht1, (di_clock _ _ _ Hinv) at 1. rewrite Hwhites.
      assert (node_set_ g ∖ (whites m ∖ list_to_set ret)
              = (node_set_ g ∖ whites m) ∪ list_to_set ret) as ->.
      { apply set_eq. intros k.
        rewrite elem_of_union, !elem_of_difference, elem_of_list_to_set. split.
        - intros [Hk Hnot]. destruct (decide (k ∈ ret)); [by right|]. left. split; [done|].
          intros Hw. apply Hnot. done.
        - intros [[Hk Hnw]|Hin].
          + split; [done|]. by intros [? _].
          + split.
            * rewrite <- (di_dom _ _ _ Hinv). by apply whites_subseteq_dom, Horigin.
            * by intros [_ ?]. }
      rewrite (size_union (node_set_ g ∖ whites m) (list_to_set ret)).
      * rewrite size_list_to_set by apply (vp_NoDup _ _ _ _ _ _ _ HP). lia.
      * intros k [_ Hnw]%elem_of_difference Hin%elem_of_list_to_set. by apply Hnw, Horigin.
  - rewrite Hwhites. set_solver.
  - rewrite Hwhites. set_solver.
Qed.

(** A visit started by the outer loop keeps what [dfs_times] says. *)
Lemma dfs_times_visit g x m t t1 ret m1 :
  wf g → dfs_inv g t m → dfs_times g m → x ∈ whites m →
  visit_post g x m t t1 ret m1 → visit_times g m ret m1 →
  (∀ k p', k ∈ ret → k ≠ x → m1 !! k = Some p' → inside_parent m1 p') →
  dfs_times g m1.
Proof.
  intros Hwf Hinv Hdt Hx HP HT Htree.
  pose proof (vp_stamps _ _ _ _ _ _ _ HP) as Hstamps.
  pose proof (vp_frame _ _ _ _ _ _ _ HP) as Hframe.
  assert (∀ k, k ∈ ret → k ∈ whites m) as Horigin.
  { intros k Hk. destruct (decide (k = x)) as [->|Hne]; [done|].
    by apply (vp_origin _ _ _ _ _ _ _ HP). }
  assert (∀ k p, k ∉ ret → m1 !! k = Some p → color p = BLACK →
            m !! k = Some p ∧ 0 < discovery_time p ∧
            discovery_time p < finish_time p ∧ finish_time p ≤ t) as Hold.
  { intros k p Hk Hp Hc. rewrite (Hframe k Hk) in Hp. split; [done|].
    destruct (di_entries _ _ _ Hinv k p Hp) as [->|(_ & ? & ? & ? & _)]; [done|lia]. }
  assert (∀ k p, k ∈ ret → m1 !! k = Some p →
            color p = BLACK ∧ t < discovery_time p ∧
            discovery_time p < finish_time p ∧ finish_time p ≤ t1) as Hnew.
  { intros k p Hk Hp. destruct (Hstamps k Hk) as (q & Hq & ? & ? & ? & ?).
    by simplify_eq. }
  split.
  - intros k1 k2 p1 p2 Hp1 Hp2 Hc1 Hc2.
    destruct (decide (k1 ∈ ret)) as [H1|H1], (decide (k2 ∈ ret)) as [H2|H2].
    + by apply (vt_paren _ _ _ _ HT k1 k2 p1 p2).
    + destruct (Hnew k1 p1 H1 Hp1) as (_ & ? & ? & ?).
      destruct (Hold k2 p2 H2 Hp2 Hc2) as (_ & ? & ? & ?).
      right; right; right. lia.
    + destruct (Hold k1 p1 H1 Hp1 Hc1) as (_ & ? & ? & ?).
      destruct (Hnew k2 p2 H2 Hp2) as (_ & ? & ? & ?).
      right; right; left. lia.
    + destruct (Hold k1 p1 H1 Hp1 Hc1) as (? & _). destruct (Hold k2 p2 H2 Hp2 Hc2) as (? & _).
      by apply (dt_paren _ _ Hdt k1 k2 p1 p2).
  - intros k1 k2 p1 p2 Hp1 Hp2 Hc1 Hc2 [Hd Hf].
    destruct (decide (k1 ∈ ret)) as [H1|H1], (decide (k2 ∈ ret)) as [H2|H2].
    + by apply (vt_desc _ _ _ _ HT k1 k2 p1 p2).
    + destruct (Hnew k1 p1 H1 Hp1) as (_ & ? & ? & ?).
      destruct (Hold k2 p2 H2 Hp2 Hc2) as (_ & ? & ? & ?). lia.
    + destruct (Hold k1 p1 H1 Hp1 Hc1) as (_ & ? & ? & ?).
      destruct (Hnew k2 p2 H2 Hp2) as (_ & ? & ? & ?). lia.
    + destruct (Hold k1 p1 H1 Hp1 Hc1) as (? & _). destruct (Hold k2 p2 H2 Hp2 Hc2) as (? & _).
      by apply (dt_desc _ _ Hdt k1 k2 p1 p2).
  - intros x' y px Hedge Hpx Hcx. destruct (decide (x' ∈ ret)) as [Hin|Hout].
    + destruct (vt_edges _ _ _ _ HT x' y px Hin Hedge Hpx) as [[Hy Hyw]|(py & Hy & Hpy & Hrel)].
      * destruct (has_succ_nodes g x' y Hwf Hedge) as [_ Hyn].
        rewrite <- (di_dom _ _ _ Hinv) in Hyn. apply elem_of_dom in Hyn as [py Hpy].
        exists py. rewrite (Hframe y Hy).
        destruct (di_entries _ _ _ Hinv y py Hpy) as [->|(? & ? & ? & ? & _)].
        { destruct Hyw. apply elem_of_whites. eauto. }
        destruct (Hnew x' px Hin Hpx) as (_ & ? & ? & ?).
        split_and!; [done..|left; lia].
      * exists py. destruct (Hnew y py Hy Hpy) as (? & _). done.
    + destruct (Hold x' px Hout Hpx Hcx) as (Hpx' & _).
      destruct (dt_edges _ _ Hdt x' y px Hedge Hpx' Hcx) as (py & Hpy & Hcy & Hrel).
      exists py. split_and!; [|done..]. rewrite Hframe; [done|].
      intros Hy%Horigin. by destruct (not_white_black m y py).
  - intros k p Hp Hc. destruct (decide (k ∈ ret)) as [Hin|Hout].
    + destruct (decide (k = x)) as [->|Hne]; [|right; by apply (Htree k)].
      left. apply elem_of_whites in Hx as (px & Hpx & Hcx).
      rewrite (vp_root_parent _ _ _ _ _ _ _ HP px p Hpx Hp).
      destruct (di_entries _ _ _ Hinv x px Hpx) as [->|[Hb _]]; [done|congruence].
    + destruct (Hold k p Hout Hp Hc) as (Hp' & ? & ? & ?).
      destruct (dt_tree _ _ Hdt k p Hp' Hc) as [?|(pp & Hpp & ? & ?)]; [by left|].
      right. exists pp. split; [|done]. rewrite Hframe; [done|].
      intros Hpar%Horigin. apply elem_of_whites in Hpar as (pw & Hpw & Hcw).
      assert (pw = pp) as -> by congruence.
      destruct (di_entries _ _ _ Hinv _ pp Hpp) as [->|[Hb _]]; [simpl in *; lia|congruence].
Qed.

(** The nodes of the sequence of a visit are reached from the start node
    along parents. *)
Lemma visit_tree_paths g x m t t1 ret m1 :
  visit_post g x m t t1 ret m1 →
  (∀ k p', k ∈ ret → k ≠ x → m1 !! k = Some p' → inside_parent m1 p') →
  ∀ k, k ∈ ret → rtc (tree_step m1) x k.
Proof.
  intros HP Htree.
  pose proof (vp_stamps _ _ _ _ _ _ _ HP) as Hstamps.
  assert (∀ (j : nat) k p', k ∈ ret → m1 !! k = Some p' →
            (Z.to_nat (discovery_time p' - t) ≤ j)%nat → rtc (tree_step m1) x k) as Hind.
  { induction j as [|j IH]; intros k p' Hk Hp' Hj.
    - destruct (Hstamps k Hk) as (q & Hq & _ & ? & _). simplify_eq. lia.
    - destruct (decide (k = x)) as [->|Hne]; [done|].
      destruct (Htree k p' Hk Hne Hp') as (pp & Hpp & ? & ?).
      destruct (vp_parents _ _ _ _ _ _ _ HP k p' Hk Hne Hp') as [Hpar _].
      destruct (Hstamps k Hk) as (q & Hq & Hcq & ? & _).
      assert (q = p') as -> by congruence.
      destruct (Hstamps _ Hpar) as (qq & Hqq & _ & ? & _).
      assert (qq = pp) as -> by congruence.
      eapply rtc_r; [apply (IH (parent p') pp); [done..|lia]|].
      by exists p'. }
  intros k Hk. destruct (Hstamps k Hk) as (q & Hq & _).
  by apply (Hind (Z.to_nat (discovery_time q - t)) k q).
Qed.

(** ... and what [dfs_roots] says, when the start node comes first among
    the white nodes. *)
Lemma dfs_roots_visit (R : relation NodeType) g x m t t1 ret m1 :
  wf g → dfs_inv g t m → dfs_times g m → dfs_roots R g m →
  x ∈ whites m → (∀ w, w ∈ whites m → R x w) →
  visit_post g x m t t1 ret m1 →
  (∀ k p', k ∈ ret → k ≠ x → m1 !! k = Some p' → inside_parent m1 p') →
  dfs_roots R g m1.
Proof.
  intros Hwf Hinv Hdt Hroots Hx HR HP Htree k p Hp Hc.
  pose proof (vp_stamps _ _ _ _ _ _ _ HP) as Hstamps.
  pose proof (vp_frame _ _ _ _ _ _ _ HP) as Hframe.
  assert (∀ j, j ∈ ret → j ∈ whites m) as Horigin.
  { intros j Hj. destruct (decide (j = x)) as [->|Hne]; [done|].
    by apply (vp_origin _ _ _ _ _ _ _ HP). }
  assert (∃ vs, ret = x :: vs) as Hhead by apply (vp_head _ _ _ _ _ _ _ HP).
  assert (x ∈ ret) as Hxret by (destruct Hhead as [vs ->]; set_solver).
  destruct (decide (k ∈ ret)) as [Hin|Hout].
  - exists x, (whites m). split_and!; [done..| | | | |].
    + intros u v Huv (pv & Hpv & Hcv)%elem_of_whites.
      destruct (has_succ_nodes g u v Hwf Huv) as [Hun _].
      rewrite <- (di_dom _ _ _ Hinv) in Hun. apply elem_of_dom in Hun as [pu Hpu].
      apply elem_of_whites. exists pu. split; [done|].
      destruct (di_entries _ _ _ Hinv u pu Hpu) as [->|[Hb _]]; [done|].
      destruct (dt_edges _ _ Hdt u v pu Huv Hpu Hb) as (pv' & ? & ? & _). congruence.
    + destruct (Hstamps x Hxret) as (px' & Hpx' & Hcx' & _).
      exists px'. split_and!; [done..|].
      apply elem_of_whites in Hx as (px & Hpx & Hcx).
      rewrite (vp_root_parent _ _ _ _ _ _ _ HP px px' Hpx Hpx').
      destruct (di_entries _ _ _ Hinv x px Hpx) as [->|[Hb _]]; [done|congruence].
    + by apply (vp_reach _ _ _ _ _ _ _ HP).
    + destruct (decide (k = x)) as [->|Hne].
      * left. apply elem_of_whites in Hx as (px & Hpx & Hcx).
        rewrite (vp_root_parent _ _ _ _ _ _ _ HP px p Hpx Hp).
        destruct (di_entries _ _ _ Hinv x px Hpx) as [->|[Hb _]]; [done|congruence].
      * right. apply (vp_reach _ _ _ _ _ _ _ HP).
        by apply (vp_parents _ _ _ _ _ _ _ HP k p Hin Hne Hp).
    + intros k' Hk'. apply (visit_tree_paths g x m t t1 ret m1 HP Htree).
      by apply (visit_post_white_paths g x m t t1 ret m1 k' HP).
  - rewrite (Hframe k Hout) in Hp.
    destruct (Hroots k p Hp Hc) as (r & W & Hr & Hprio & Hclosed & Hroot & Hk & Hpar & Hall).
    exists r, W. split_and!; [done..| |done|done|].
    + destruct Hroot as (pr & Hpr & Hcr & Hparr). exists pr. split_and!; [|done..].
      rewrite Hframe; [done|]. intros Hrr%Horigin. by destruct (not_white_black m r pr).
    + intros k' Hk'. eapply rtc_subrel; [|by apply Hall].
      intros u v (pv & Hpv & Hcv & Hparv). exists pv. split_and!; [|done..].
      rewrite Hframe; [done|]. intros Hvr%Horigin. by destruct (not_white_black m v pv).
Qed.

Lemma dfs_loop_post (R : relation NodeType) g (node_vector : list NodeType) :
  wf g → (∀ a, R a a) → StronglySorted R node_vector →
  (∀ x, x ∈ node_vector → x ∈ node_set_ g) →
  ∀ t m, dfs_inv g t m → dfs_times g m → dfs_roots R g m →
  (∀ k, k ∈ whites m → k ∈ node_vector) →
  ∃ t' m',
    for_each
      (λ node '(passed_time, m),
         p ← map_at m node;
         if decide (color p = WHITE) then
           '(passed_time, _, m) ← dfs_visit g node m passed_time;
           Ok (passed_time, m)
         else Ok (passed_time, m))
      node_vector (t, m) = Ok (t', m') ∧
    dfs_inv g t' m' ∧ dfs_times g m' ∧ dfs_roots R g m' ∧ whites m' = ∅.
Proof.
  intros Hwf Hrefl. induction node_vector as [|x l IH];
    intros Hsorted Hnodes t m Hinv Hdt Hroots Hwhites.
  { exists t, m. split_and!; [done..|]. apply set_eq. intros k. split; [|set_solver].
    by intros ?%Hwhites%elem_of_nil. }
  apply StronglySorted_inv in Hsorted as [Hsorted Hxl]. rewrite Forall_forall in Hxl.
  cbn [for_each].
  assert (x ∈ dom m) as [p Hp]%elem_of_dom.
  { rewrite (di_dom _ _ _ Hinv). apply Hnodes. set_solver. }
  rewrite (map_at_Some _ _ _ Hp). cbn [mbind result_bind].
  destruct (decide (color p = WHITE)) as [Hc|Hc].
  - destruct (dfs_visit_post g x m t) as (t1 & ret & m1 & -> & HP & Ht1 & HT & _ & _ & Htree);
      [done|apply Hnodes; set_solver|apply (di_dom _ _ _ Hinv)|].
    cbn [mbind result_bind].
    assert (x ∈ whites m) as Hxw by (apply elem_of_whites; eauto).
    destruct (dfs_inv_visit g x m t t1 ret m1) as (Hinv1 & Hsub & Hx); [done..|].
    apply (IH Hsorted (λ y Hy, Hnodes y (list_elem_of_further _ _ _ Hy)) t1 m1 Hinv1).
    + by apply (dfs_times_visit g x m t t1 ret m1).
    + apply (dfs_roots_visit R g x m t t1 ret m1); [done..| |done|done].
      intros w [->|Hw]%Hwhites%elem_of_cons; [apply Hrefl|by apply Hxl].
    + intros k Hk. pose proof (Hsub k Hk) as [->|?]%Hwhites%elem_of_cons; done.
  - cbn [mbind result_bind].
    apply (IH Hsorted (λ y Hy, Hnodes y (list_elem_of_further _ _ _ Hy)) t m Hinv Hdt Hroots).
    intros k Hk. pose proof (Hwhites k Hk) as [->|?]%elem_of_cons; [|done].
    apply elem_of_whites in Hk as (p' & Hp' & Hc'). congruence.
Qed.

(** [dfs] returns when the comparator returns on the nodes, with every
    node finished; [R] is an order the sorted node vector is in. *)
Lemma dfs_full comparator (R : relation NodeType) g :
  wf g →
  (∀ x y, x ∈ node_set_ g → y ∈ node_set_ g → ∃ r : bool, comparator x y = Ok r) →
  (∀ a, R a a) →
  (∀ nv, std_sort_with comparator (set_iter (node_set_ g)) = Ok nv → StronglySorted R nv) →
  ∃ m, dfs comparator g = Ok m ∧
    dfs_inv g (2 * Z.of_nat (size (node_set_ g))) m ∧ whites m = ∅ ∧
    dfs_times g m ∧ dfs_roots R g m.
Proof.
  intros Hwf Hcomp Hrefl HR. unfold dfs.
  destruct (std_sort_with_returns comparator (set_iter (node_set_ g))) as [nv Hnv].
  { intros x y Hx%elem_of_set_iter Hy%elem_of_set_iter. by apply Hcomp. }
  rewrite Hnv. cbn [mbind result_bind].
  pose proof (std_sort_with_Permutation _ _ _ Hnv) as Hperm.
  destruct (dfs_loop_post R g nv Hwf Hrefl (HR nv Hnv)) with (t := 0) (m := init_dfs_map g)
    as (t' & m' & -> & Hinv & Hdt & Hroots & Hw).
  { intros x Hx. rewrite Hperm in Hx. by apply elem_of_set_iter. }
  { apply dfs_inv_init. }
  { split.
    - intros k1 k2 p1 p2. rewrite lookup_init_dfs_map. case_decide; [|done]. by intros [= <-].
    - intros k1 k2 p1 p2. rewrite lookup_init_dfs_map. case_decide; [|done]. by intros [= <-].
    - intros x y px _. rewrite lookup_init_dfs_map. case_decide; [|done]. by intros [= <-].
    - intros k p. rewrite lookup_init_dfs_map. case_decide; [|done]. by intros [= <-]. }
  { intros k p. rewrite lookup_init_dfs_map. case_decide; [|done]. by intros [= <-]. }
  { intros k Hk. rewrite Hperm. apply elem_of_set_iter.
    rewrite <- (dom_init_dfs_map g). by apply whites_subseteq_dom. }
  cbn [mbind result_bind]. exists m'. split_and!; [done| |done..].
  pose proof (di_clock _ _ _ Hinv) as Ht'. rewrite Hw, difference_empty_L in Ht'.
  by rewrite <- Ht'.
Qed.

Lemma StronglySorted_True {X} (l : list X) : StronglySorted (λ _ _, True) l.
Proof. induction l; constructor; [done|]. by apply Forall_true. Qed.

Lemma dfs_post comparator g :
  wf g →
  (∀ x y, x ∈ node_set_ g → y ∈ node_set_ g → ∃ r : bool, comparator x y = Ok r) →
  ∃ m, dfs comparator g = Ok m ∧
    dfs_inv g (2 * Z.of_nat (size (node_set_ g))) m ∧ whites m = ∅.
Proof.
  intros Hwf Hcomp.
  destruct (dfs_full comparator (λ _ _, True) g Hwf Hcomp) as (m & ? & ? & ? & _);
    [done|intros; apply StronglySorted_True|].
  by exists m.
Qed.

(** Every entry of a map that satisfies [dfs_inv] with no white node left
    is that of a finished node. *)
Lemma dfs_inv_black g t m k p :
  dfs_inv g t m → whites m = ∅ → m !! k = Some p → color p = BLACK.
Proof.
  intros Hinv Hw Hk. destruct (di_entries _ _ _ Hinv k p Hk) as [->|[? _]]; [|done].
  assert (k ∈ whites m) as Hin by (apply elem_of_whites; eauto). set_solver.
Qed.


End search_facts.

(* ================================================================== *)
(** ** The depth-first forest and the components *)
(* ================================================================== *)

Section forest_facts.
Context `{Node NodeType}.
Implicit Types (g f : Graph (NodeType:=NodeType)) (a b n x y k : NodeType).
Implicit Types (m : gmap NodeType (DfsProps (NodeType:=NodeType))).
Implicit Types (p : DfsProps (NodeType:=NodeType)) (t : Z).

(** The first loop of [dfs_forest]: the keys become nodes, without
    edges. *)
Lemma forest_nodes_loop {V} (L : list (NodeType * V)) g :
  wf g → NoDup L.*1 → (∀ k, k ∈ L.*1 → k ∉ node_set_ g) →
  ∃ g', for_each (λ pair ret, exec (add_node pair.1) ret) L g = Ok g' ∧
    wf g' ∧ node_set_ g' = node_set_ g ∪ list_to_set L.*1 ∧
    node_printer_ g' = node_printer_ g ∧
    ∀ x y, has_succ g' x y ↔ has_succ g x y.
Proof.
  revert g. induction L as [|[k v] L IH]; intros g Hwf Hnd Hfresh.
  { exists g. split_and!; [done..|set_solver|done|done]. }
  cbn [for_each fst]. rewrite fmap_cons in Hnd, Hfresh. cbn [fst] in Hnd, Hfresh.
  apply NoDup_cons in Hnd as [Hk Hnd].
  assert (k ∉ node_set_ g) as Hkg by (apply Hfresh; set_solver).
  rewrite exec_add_node_fresh by done. cbn [mbind result_bind].
  pose proof (wf_add_node g k Hwf) as Hwf1. rewrite add_node_fresh in Hwf1 by done.
  cbn [snd] in Hwf1.
  edestruct IH as (g' & -> & Hwf' & Hn' & Hpr' & He'); [exact Hwf1|done| |].
  { cbn [node_set_]. intros k' Hk'. apply not_elem_of_union. split; [set_solver|].
    apply Hfresh. set_solver. }
  exists g'. split_and!; [done..| | |].
  - rewrite Hn'. cbn [node_set_]. rewrite fmap_cons. cbn [fst]. set_solver.
  - by rewrite Hpr'.
  - intros x y. rewrite He'. unfold has_succ. cbn [succ_map_].
    assert (succ_map_ g !! k = None) as Hsk.
    { apply not_elem_of_dom. by rewrite (wf_succ_dom g Hwf). }
    split.
    + intros (l & Hl & Hy). apply lookup_insert_Some in Hl as [[<- <-]|[Hne Hl]].
      { by apply elem_of_nil in Hy. }
      by exists l.
    + intros (l & Hl & Hy). exists l. split; [|done].
      rewrite lookup_insert_ne; [done|]. intros <-. congruence.
Qed.

(** The second loop of [dfs_forest]: an edge from the parent for every
    entry whose parent differs from [NodeType()]. *)
Lemma forest_edges_loop (L : list (NodeType * DfsProps (NodeType:=NodeType))) g :
  wf g →
  (∀ k p, (k, p) ∈ L →
     k ∈ node_set_ g ∧ (parent p = node_default ∨ parent p ∈ node_set_ g)) →
  ∃ g',
    for_each
      (λ pair ret,
         if decide (parent pair.2 ≠ node_default)
         then exec (add_edge (parent pair.2) pair.1) ret
         else Ok ret) L g = Ok g' ∧
    wf g' ∧ node_set_ g' = node_set_ g ∧ node_printer_ g' = node_printer_ g ∧
    ∀ x y, has_succ g' x y ↔
      has_succ g x y ∨ ∃ p, (y, p) ∈ L ∧ parent p = x ∧ x ≠ node_default.
Proof.
  revert g. induction L as [|[k p] L IH]; intros g Hwf HL.
  { exists g. split_and!; [done..|]. intros x y. split; [by left|].
    intros [?|(p & []%elem_of_nil & _)]. done. }
  cbn [for_each fst snd].
  destruct (HL k p) as [Hk Hp]; [set_solver|].
  destruct (decide (parent p ≠ node_default)) as [Hne|Heq].
  - destruct Hp as [?|Hp]; [done|].
    destruct (exec_add_edge_ok g (parent p) k Hwf Hp Hk) as (g1 & -> & Hwf1 & Hn1 & Hpr1 & He1).
    cbn [mbind result_bind].
    destruct (IH g1 Hwf1) as (g' & -> & Hwf' & Hn' & Hpr' & He').
    { intros k' p' Hin. rewrite Hn1. apply HL. set_solver. }
    exists g'. split_and!; [done..|congruence|congruence|].
    intros x y. rewrite He', He1. split.
    + intros [[?|[-> ->]]|(p' & Hin & ? & ?)]; [by left| |].
      * right. exists p. split_and!; [set_solver|done..].
      * right. exists p'. split_and!; [set_solver|done..].
    + intros [?|(p' & [[= -> ->]|Hin]%elem_of_cons & Hpx & Hx)]; [by left; left| |].
      * left. right. done.
      * right. by exists p'.
  - cbn [mbind result_bind].
    destruct (IH g Hwf) as (g' & -> & Hwf' & Hn' & Hpr' & He').
    { intros k' p' Hin. apply HL. set_solver. }
    exists g'. split_and!; [done..|].
    intros x y. rewrite He'. split.
    + intros [?|(p' & Hin & ? & ?)]; [by left|]. right. exists p'. split_and!; [set_solver|done..].
    + intros [?|(p' & [[= -> ->]|Hin]%elem_of_cons & Hpx & Hx)]; [by left| |].
      * destruct Heq. congruence.
      * right. by exists p'.
Qed.

(** [dfs_forest] after [dfs]: the forest has the nodes and the printer of
    the graph and, as edges, the pairs of a parent other than [NodeType()]
    and its child. *)
Lemma dfs_forest_post comparator g :
  wf g →
  (∀ x y, x ∈ node_set_ g → y ∈ node_set_ g → ∃ r : bool, comparator x y = Ok r) →
  ∃ m f, dfs comparator g = Ok m ∧ dfs_forest comparator g = Ok f ∧
    wf f ∧ node_set_ f = node_set_ g ∧ node_printer_ f = node_printer_ g ∧
    ∀ x y, has_succ f x y ↔
      ∃ p, m !! y = Some p ∧ parent p = x ∧ x ≠ node_default.
Proof.
  intros Hwf Hcomp.
  destruct (dfs_post comparator g Hwf Hcomp) as (m & Hrun & Hinv & Hw).
  exists m. unfold dfs_forest. rewrite Hrun. cbn [mbind result_bind].
  destruct (forest_nodes_loop (map_iter m) (Graph_new (node_printer_ g)))
    as (g1 & -> & Hwf1 & Hn1 & Hpr1 & He1).
  { apply wf_new. }
  { rewrite map_iter_keys. apply set_iter_NoDup. }
  { intros k _. unfold Graph_new. cbn [node_set_]. set_solver. }
  cbn [mbind result_bind].
  assert (node_set_ g1 = node_set_ g) as Hn1'.
  { rewrite Hn1, map_iter_keys. unfold Graph_new. cbn [node_set_].
    apply set_eq. intros k.
    rewrite elem_of_union, elem_of_list_to_set, elem_of_set_iter, (di_dom _ _ _ Hinv).
    set_solver. }
  destruct (forest_edges_loop (map_iter m) g1 Hwf1) as (f & -> & Hwf' & Hn' & Hpr' & He').
  { intros k p Hkp%elem_of_map_iter. rewrite Hn1'. split.
    - rewrite <- (di_dom _ _ _ Hinv). by apply elem_of_dom.
    - destruct (di_entries _ _ _ Hinv k p Hkp) as [->|(_ & _ & _ & _ & [?|Hedge])];
        [by left|by left|].
      right. by apply (has_succ_nodes g _ k Hwf). }
  exists f. split_and!; [done..|congruence| |].
  - rewrite Hpr', Hpr1. done.
  - intros x y. rewrite He', He1. split.
    + intros [(l & Hl & _)|(p & Hin%elem_of_map_iter & ? & ?)]; [done|]. by exists p.
    + intros (p & Hp & ? & ?). right. exists p. by rewrite elem_of_map_iter.
Qed.



(** *** The loop of [scc] *)

Lemma elem_of_erase_remove_all (vs nv : list NodeType) x :
  x ∈ foldl (λ nv visited, erase_remove visited nv) nv vs ↔ x ∈ nv ∧ x ∉ vs.
Proof.
  revert nv. induction vs as [|v vs IH]; intros nv; cbn [foldl].
  { split; [intros ?; split; [done|apply not_elem_of_nil]|by intros [? _]]. }
  rewrite IH. unfold erase_remove. rewrite list_elem_of_filter, not_elem_of_cons.
  naive_solver.
Qed.

(** What the loop of [scc] appends: for every round the sequence of a
    visit from a node of the vector, which starts with that node, has no
    repetition and holds the nodes the forest reaches from it; and every
    node of the vector is in one of the sequences. *)
Lemma scc_loop_post (this forest : Graph (NodeType:=NodeType)) :
  wf forest → node_set_ forest = node_set_ this →
  ∀ (fuel : nat) nv sccs,
    (length nv ≤ fuel)%nat → (∀ x, x ∈ nv → x ∈ node_set_ forest) →
    ∃ comps, scc_loop fuel this forest nv sccs = Ok (sccs ++ comps) ∧
      (∀ c, c ∈ comps → ∃ r vs, c = r :: vs ∧ r ∈ nv ∧ NoDup c ∧
                                 ∀ k, k ∈ c ↔ reachable forest r k) ∧
      (∀ x, x ∈ nv → ∃ c, c ∈ comps ∧ x ∈ c) ∧
      (∀ x, x ∈ nv → (∀ y, ¬ has_succ forest y x) →
            ∃ vs, x :: vs ∈ comps ∧ ∀ k, k ∈ x :: vs ↔ reachable forest x k).
Proof.
  intros Hwf Hnodes fuel.
  induction fuel as [|fuel IH]; intros [|x l] sccs Hlen Hnv.
  - exists []. rewrite scc_loop_nil, app_nil_r.
    split_and!; [done|by intros c ?%elem_of_nil..].
  - simpl in Hlen; lia.
  - exists []. rewrite scc_loop_nil, app_nil_r.
    split_and!; [done|by intros c ?%elem_of_nil..].
  - rewrite scc_loop_cons.
    destruct (dfs_visit_fresh forest this x) as (t' & ret & m' & -> & Hnd & [vs ->] & Hreach).
    { done. }
    { apply Hnv. set_solver. }
    { done. }
    cbn [mbind result_bind].
    destruct (IH (foldl (λ nv visited, erase_remove visited nv) (x :: l) (x :: vs))
                 (sccs ++ [x :: vs])) as (comps & -> & Hcomps & Hcover & Hroots).
    { cbn [foldl]. etrans; [apply erase_remove_all_length|].
      unfold erase_remove. rewrite filter_cons_False by (intros Hne; by apply Hne).
      etrans; [apply length_filter|]. simpl in Hlen. lia. }
    { intros y Hy%erase_remove_all_elem. by apply Hnv. }
    exists ((x :: vs) :: comps). split_and!.
    + by rewrite <- app_assoc.
    + intros c [->|Hc]%elem_of_cons.
      * exists x, vs. split_and!; [done|set_solver|done..].
      * destruct (Hcomps c Hc) as (r & vs' & -> & Hr & Hc').
        exists r, vs'. split_and!; [done| |apply Hc'..].
        by apply erase_remove_all_elem in Hr.
    + intros y Hy. destruct (decide (y ∈ x :: vs)) as [Hin|Hout].
      * exists (x :: vs). split; [set_solver|done].
      * destruct (Hcover y) as (c & Hc & Hyc).
        { by apply elem_of_erase_remove_all. }
        exists c. split; [set_solver|done].
    + intros y Hy Hroot. destruct (decide (y = x)) as [->|Hne].
      { exists vs. split; [set_solver|done]. }
      destruct (Hroots y) as (vs' & Hc & Hvs'); [|done|].
      { apply elem_of_erase_remove_all. split; [done|]. intros Hin%Hreach.
        destruct (rtc_inv_r _ _ Hin) as [?|(z & _ & Hzy)]; [done|]. by destruct (Hroot z). }
      exists vs'. split; [set_solver|done].
Qed.

Lemma rtc_flip_subrel {X} (R S : relation X) (u v : X) :
  (∀ c d : X, R c d → S d c) → rtc R u v → rtc S v u.
Proof.
  intros HRS Huv. induction Huv as [|u w v Huw _ IH]; [done|].
  eapply rtc_r; [done|]. by apply HRS.
Qed.

Lemma std_less_returns (x y : NodeType) : ∃ r : bool, std_less x y = Ok r.
Proof. by eexists. Qed.

Lemma by_finish_time_returns m x y :
  x ∈ dom m → y ∈ dom m → ∃ r : bool, by_finish_time m x y = Ok r.
Proof.
  intros [p1 H1]%elem_of_dom [p2 H2]%elem_of_dom. unfold by_finish_time.
  rewrite (map_at_Some _ _ _ H1). cbn [mbind result_bind].
  rewrite (map_at_Some _ _ _ H2). cbn [mbind result_bind]. by eexists.
Qed.

(** *** The second search of [scc] *)

Lemma finish_order_refl m a : finish_order m a a.
Proof. intros pr px Hr Hx. assert (px = pr) as -> by congruence. lia. Qed.

(** The comparator of [scc] sorts the nodes by decreasing finish time. *)
Lemma by_finish_time_sorted m (l nv : list NodeType) :
  (∀ x, x ∈ l → x ∈ dom m) →
  std_sort_with (by_finish_time m) l = Ok nv → StronglySorted (finish_order m) nv.
Proof.
  intros Hl. apply (std_sort_with_sorted _ (finish_order m) (λ x, x ∈ dom m)).
  - intros u v [pu Hu]%elem_of_dom [pv Hv]%elem_of_dom. unfold by_finish_time.
    rewrite (map_at_Some _ _ _ Hu). cbn [mbind result_bind].
    rewrite (map_at_Some _ _ _ Hv). cbn [mbind result_bind].
    eexists. split; [done|].
    case_bool_decide; intros pr px Hr Hx; simplify_eq; lia.
  - intros u v w _ [pv Hv]%elem_of_dom _ Huv Hvw pu pw Hu Hw.
    specialize (Huv pu pv Hu Hv). specialize (Hvw pv pw Hv Hw). lia.
  - by apply Forall_forall.
Qed.

(** The heart of Kosaraju's algorithm.  In the map [m1] of a finished
    search of [g], let [r] finish no earlier than any node of [W]; then a
    node that reaches [r] along nodes of [W] has its interval inside that
    of [r]. *)
Lemma kosaraju_inside g m1 t (W : gset NodeType) r k pr :
  wf g → dfs_inv g t m1 → whites m1 = ∅ → dfs_times g m1 →
  m1 !! r = Some pr → (∀ x, x ∈ W → finish_order m1 r x) →
  rtc (λ u v, has_succ g v u ∧ v ∈ W) r k →
  ∃ pk, m1 !! k = Some pk ∧ stamps_inside pr pk.
Proof.
  intros Hwf Hinv Hw Hdt Hr Hmax. revert k.
  apply (rtc_ind_r (λ k, ∃ pk, m1 !! k = Some pk ∧ stamps_inside pr pk)).
  { exists pr. split; [done|]. unfold stamps_inside. lia. }
  intros y z _ [Hedge Hz] (py & Hy & [Hdy Hfy]).
  destruct (has_succ_nodes g z y Hwf Hedge) as [Hzn _].
  rewrite <- (di_dom _ _ _ Hinv) in Hzn. apply elem_of_dom in Hzn as [pz Hpz].
  exists pz. split; [done|].
  pose proof (Hmax z Hz pr pz Hr Hpz) as Hfz.
  pose proof (dfs_inv_black g t m1 z pz Hinv Hw Hpz) as Hcz.
  pose proof (dfs_inv_black g t m1 r pr Hinv Hw Hr) as Hcr.
  pose proof (dfs_inv_black g t m1 y py Hinv Hw Hy) as Hcy.
  assert (discovery_time pz < finish_time pz) as Hdz.
  { destruct (di_entries _ _ _ Hinv z pz Hpz) as [->|(_ & _ & ? & _)]; [done|lia]. }
  assert (discovery_time py < finish_time py) as Hdfy.
  { destruct (di_entries _ _ _ Hinv y py Hy) as [->|(_ & _ & ? & _)]; [done|lia]. }
  destruct (dt_edges _ _ Hdt z y pz Hedge Hpz Hcz) as (py' & Hy' & _ & Hrel).
  assert (py' = py) as -> by congruence.
  unfold stamps_inside in *.
  destruct Hrel as [Hlt|[? ?]]; [|lia].
  destruct (dt_paren _ _ Hdt z r pz pr Hpz Hr Hcz Hcr) as [[? ?]|[[? ?]|[?|?]]]; [|lia..].
  assert (z = r) as -> by (apply (di_finish_inj _ _ _ Hinv z r pz pr); [done..|lia]).
  assert (pz = pr) as -> by congruence. lia.
Qed.

(** ... and is therefore reachable from [r], which it reaches. *)
Lemma kosaraju_tree g m1 t (W : gset NodeType) r k :
  wf g → dfs_inv g t m1 → whites m1 = ∅ → dfs_times g m1 →
  r ∈ node_set_ g → (∀ x, x ∈ W → finish_order m1 r x) →
  rtc (λ u v, has_succ g v u ∧ v ∈ W) r k →
  reachable g r k ∧ reachable g k r.
Proof.
  intros Hwf Hinv Hw Hdt Hr Hmax Hpath.
  rewrite <- (di_dom _ _ _ Hinv) in Hr. apply elem_of_dom in Hr as [pr Hr].
  destruct (kosaraju_inside g m1 t W r k pr) as (pk & Hk & Hin); [done..|].
  split.
  - apply (dt_desc _ _ Hdt r k pr pk); [done..| | |done].
    + by apply (dfs_inv_black g t m1 r pr).
    + by apply (dfs_inv_black g t m1 k pk).
  - eapply rtc_flip_subrel; [|done]. by intros c d [? _].
Qed.

(** When the edges into [W] come from [W], a node of [W] reaches through
    [W] every node it shares a cycle with. *)
Lemma white_path_of_cycle g (W : gset NodeType) r :
  (∀ x y, has_succ g x y → y ∈ W → x ∈ W) → r ∈ W →
  ∀ k, rtc (has_succ g) r k → rtc (has_succ g) k r →
       rtc (white_step g (W ∖ {[r]})) r k.
Proof.
  intros Hclosed Hr.
  assert (∀ z, rtc (has_succ g) z r → z ∈ W) as Hin.
  { intros z Hz. induction Hz as [|z z' r' Hzz' _ IH]; [done|].
    eapply Hclosed; [done|]. by apply IH. }
  apply (rtc_ind_r (λ k, rtc (has_succ g) k r → rtc (white_step g (W ∖ {[r]})) r k)); [done|].
  intros y z _ Hyz IH Hzr.
  destruct (decide (z = r)) as [->|Hne]; [done|].
  eapply rtc_r; [apply IH; by eapply rtc_l|].
  split; [done|]. apply elem_of_difference. split; [by apply Hin|set_solver].
Qed.

(** The stages of [scc] on a well-formed graph: the first search, the
    forest of the second search on the transpose, and the loop over the
    forest; the two ends of an edge of the forest reach each other in the
    graph; and, when [NodeType()] is not a node, every node has a root in
    the forest from which the forest reaches exactly the nodes that share
    a cycle with the node. *)
Lemma scc_stages g :
  wf g →
  ∃ m forest,
    dfs std_less g = Ok m ∧
    dfs_forest (by_finish_time m)
      (mkGraph (node_set_ g) (pred_map_ g) (succ_map_ g) (node_printer_ g)) = Ok forest ∧
    scc g = scc_loop (length (set_iter (node_set_ g))) g forest (set_iter (node_set_ g)) [] ∧
    wf forest ∧ node_set_ forest = node_set_ g ∧
    (∀ x y, has_succ forest x y → has_succ g y x) ∧
    (∀ x y, has_succ forest x y → reachable g x y ∧ reachable g y x) ∧
    ((node_default ∉ node_set_ g) →
     ∀ u, u ∈ node_set_ g →
       ∃ r, r ∈ node_set_ g ∧ (∀ y, ¬ has_succ forest y r) ∧
            ∀ v, reachable forest r v ↔ reachable g u v ∧ reachable g v u).
Proof.
  intros Hwf.
  destruct (dfs_full std_less (λ _ _, True) g Hwf) as (m & Hm & Hinv & Hw & Hdt & _).
  { intros x y _ _. apply std_less_returns. }
  { done. }
  { intros. apply StronglySorted_True. }
  pose proof (wf_exchange g Hwf) as Hwft.
  set (h := mkGraph (node_set_ g) (pred_map_ g) (succ_map_ g) (node_printer_ g)) in *.
  assert (∀ x y, x ∈ node_set_ h → y ∈ node_set_ h →
            ∃ r : bool, by_finish_time m x y = Ok r) as Hcomp.
  { intros x y Hx Hy. apply by_finish_time_returns; by rewrite (di_dom _ _ _ Hinv). }
  destruct (dfs_forest_post (by_finish_time m) h Hwft Hcomp)
    as (m2 & forest & Hm2 & Hf & Hwff & Hnf & _ & Hef).
  destruct (dfs_full (by_finish_time m) (finish_order m) h Hwft Hcomp)
    as (m2' & Hm2' & Hinv2 & Hw2 & _ & Hroots).
  { apply finish_order_refl. }
  { intros nv. apply by_finish_time_sorted.
    intros x Hx%elem_of_set_iter. by rewrite (di_dom _ _ _ Hinv). }
  assert (m2' = m2) as -> by congruence.
  assert (∀ (W : gset NodeType) r k,
            rtc (white_step h (W ∖ {[r]})) r k →
            rtc (λ u v, has_succ g v u ∧ v ∈ W) r k) as Hconv.
  { intros W r k. apply rtc_subrel. intros u v [Huv Hv]. split; [|set_solver].
    by apply (has_succ_exchange g). }
  assert (∀ x y, has_succ forest x y → reachable g x y ∧ reachable g y x) as Hmutual.
  { intros x y (p & Hp & <- & Hne)%Hef.
    pose proof (dfs_inv_black h _ m2 y p Hinv2 Hw2 Hp) as Hc.
    destruct (Hroots y p Hp Hc)
      as (r & W & Hr & Hmax & _ & _ & Hy%Hconv & [?|Hx%Hconv] & _); [done|].
    assert (r ∈ node_set_ g) as Hrn.
    { destruct (rtc_inv _ _ Hy) as [->|(z & [Hrz _] & _)].
      - change (y ∈ node_set_ h). rewrite <- (di_dom _ _ _ Hinv2). by apply elem_of_dom.
      - by apply (has_succ_nodes g z r Hwf). }
    destruct (kosaraju_tree g m _ W r y Hwf Hinv Hw Hdt Hrn Hmax Hy) as [Hry Hyr].
    destruct (kosaraju_tree g m _ W r (parent p) Hwf Hinv Hw Hdt Hrn Hmax Hx) as [Hrx Hxr].
    split; by etrans. }
  assert (∀ r k, reachable forest r k → reachable g r k ∧ reachable g k r) as Hboth.
  { intros r. apply (rtc_ind_r (λ k, reachable g r k ∧ reachable g k r)); [done|].
    intros y z _ [Hyz Hzy]%Hmutual [Hry Hyr]. split; by etrans. }
  exists m, forest. split_and!; [done..| |done|done| |done|].
  - unfold scc. rewrite Hm. cbn [mbind result_bind].
    rewrite transpose_wf by done. cbn [mbind result_bind]. fold h.
    rewrite Hf. cbn [mbind result_bind]. by rewrite Hnf.
  - intros x y (p & Hp & <- & Hne)%Hef.
    destruct (di_entries _ _ _ Hinv2 y p Hp) as [->|(_ & _ & _ & _ & [?|Hedge])]; [done..|].
    by apply (has_succ_exchange g) in Hedge.
  - intros Hdefault u Hu.
    assert (u ∈ dom m2) as [pu Hpu]%elem_of_dom by (by rewrite (di_dom _ _ _ Hinv2)).
    pose proof (dfs_inv_black h _ m2 u pu Hinv2 Hw2 Hpu) as Hcu.
    destruct (Hroots u pu Hpu Hcu)
      as (r & W & Hr & Hmax & Hclosed & (pr & Hpr & Hcr & Hparr) & Hru & _ & Hall).
    assert (r ∈ node_set_ g) as Hrn.
    { change (r ∈ node_set_ h). rewrite <- (di_dom _ _ _ Hinv2). by apply elem_of_dom. }
    destruct (kosaraju_tree g m _ W r u Hwf Hinv Hw Hdt Hrn Hmax (Hconv _ _ _ Hru))
      as [Hgru Hgur].
    exists r. split_and!; [done| |].
    + intros y (p & Hp & Hpy & Hne)%Hef. congruence.
    + intros v. split.
      * intros [Hrv Hvr]%Hboth. split; by etrans.
      * intros [Huv Hvu].
        assert (reachable g v r) as Hgvr by (by etrans).
        assert (reachable g r v) as Hgrv by (by etrans).
        assert (rtc (has_succ h) r v) as Hhrv.
        { eapply rtc_flip_subrel; [|exact Hgvr].
          intros c d Hcd. by apply (has_succ_exchange g). }
        assert (rtc (has_succ h) v r) as Hhvr.
        { eapply rtc_flip_subrel; [|exact Hgrv].
          intros c d Hcd. by apply (has_succ_exchange g). }
        pose proof (Hall v (white_path_of_cycle h W r Hclosed Hr v Hhrv Hhvr)) as Htree.
        clear -Htree Hef Hdefault Hrn Hinv2.
        assert (reachable forest r v ∧ v ∈ node_set_ g) as [? _]; [|done].
        revert v Htree.
        apply (rtc_ind_r (λ v, reachable forest r v ∧ v ∈ node_set_ g)); [done|].
        intros y z _ (pz & Hpz & _ & Hpar) [Hry Hyn]. split.
        -- eapply rtc_r; [done|]. apply Hef. exists pz. split_and!; [done..|].
           intros ->. done.
        -- change (z ∈ node_set_ h). rewrite <- (di_dom _ _ _ Hinv2). by apply elem_of_dom.
Qed.

(** X19: on a well-formed graph [scc] returns; every component it returns
    is a sequence of nodes without repetition, headed by a node that every
    node of the component reaches in the graph; and the nodes of the graph
    are exactly the nodes that occur in some component. *)
Theorem scc_components g :
  wf g →
  ∃ sccs, scc g = Ok sccs ∧
    (∀ c, c ∈ sccs → ∃ r vs, c = r :: vs ∧ NoDup c ∧
       ∀ k, k ∈ c → k ∈ node_set_ g ∧ reachable g k r) ∧
    (∀ x, x ∈ node_set_ g ↔ ∃ c, c ∈ sccs ∧ x ∈ c).
Proof.
  intros Hwf.
  destruct (scc_stages g Hwf) as (m & forest & _ & _ & -> & Hwff & Hnf & Hef & _ & _).
  destruct (scc_loop_post g forest Hwff Hnf (length (set_iter (node_set_ g)))
              (set_iter (node_set_ g)) []) as (comps & -> & Hcomps & Hcover & _).
  { done. }
  { intros x Hx%elem_of_set_iter. by rewrite Hnf. }
  exists comps. split_and!; [done| |].
  - intros c Hc. destruct (Hcomps c Hc) as (r & vs & -> & Hr%elem_of_set_iter & Hnd & Hreach).
    exists r, vs. split_and!; [done..|]. intros k Hk%Hreach.
    assert (reachable g k r) as Hkr by (by eapply rtc_flip_subrel).
    split; [|done]. destruct (rtc_inv _ _ Hkr) as [<-|(z & Hkz & _)]; [done|].
    by apply (has_succ_nodes g k z Hwf).
  - intros x. split.
    + intros Hx. apply Hcover. by apply elem_of_set_iter.
    + intros (c & Hc & Hx).
      destruct (Hcomps c Hc) as (r & vs & -> & Hr%elem_of_set_iter & Hnd & Hreach).
      apply Hreach in Hx. assert (reachable g x r) as Hxr by (by eapply rtc_flip_subrel).
      destruct (rtc_inv _ _ Hxr) as [<-|(z & Hxz & _)]; [done|].
      by apply (has_succ_nodes g x z Hwf).
Qed.

(** Without edges in the forest, every round of the loop of [scc] gives the
    front node alone. *)
Lemma scc_loop_edgeless (this forest : Graph (NodeType:=NodeType)) :
  wf forest → node_set_ forest = node_set_ this →
  (∀ x y, ¬ has_succ forest x y) →
  ∀ nv sccs, NoDup nv → (∀ x, x ∈ nv → x ∈ node_set_ forest) →
    scc_loop (length nv) this forest nv sccs = Ok (sccs ++ map (λ n, [n]) nv).
Proof.
  intros Hwf Hnodes Hnone nv.
  induction nv as [|x l IH]; intros sccs Hnd Hnv.
  { by rewrite scc_loop_nil, app_nil_r. }
  cbn [length]. rewrite scc_loop_cons.
  destruct (dfs_visit_fresh forest this x) as (t' & ret & m' & -> & Hndr & [vs ->] & Hreach).
  { done. }
  { apply Hnv. set_solver. }
  { done. }
  assert (vs = []) as ->.
  { destruct vs as [|v vs]; [done|]. exfalso.
    assert (v = x) as ->.
    { assert (reachable forest x v) as Hxv by (apply Hreach; set_solver).
      destruct (rtc_inv _ _ Hxv) as [<-|(z & Hxz & _)]; [done|]. by destruct (Hnone x z). }
    apply NoDup_cons in Hndr as [Hx _]. set_solver. }
  cbn [mbind result_bind foldl]. apply NoDup_cons in Hnd as [Hx Hnd].
  assert (erase_remove x (x :: l) = l) as ->.
  { unfold erase_remove. rewrite filter_cons_False by (intros Hne; by apply Hne).
    clear -Hx. induction l as [|y l IH]; [done|].
    rewrite filter_cons_True by set_solver. f_equal. apply IH. set_solver. }
  rewrite IH; [|done|intros y Hy; apply Hnv; set_solver].
  by rewrite <- app_assoc.
Qed.

(** X20: on a well-formed graph without edges, [scc] returns every node as
    a component of its own, in ascending order of the nodes. *)
Theorem scc_no_edges g :
  wf g → (∀ x y, ¬ has_succ g x y) →
  scc g = Ok (map (λ n, [n]) (set_iter (node_set_ g))).
Proof.
  intros Hwf Hnone.
  destruct (scc_stages g Hwf) as (m & forest & _ & _ & -> & Hwff & Hnf & Hef & _ & _).
  rewrite (scc_loop_edgeless g forest Hwff Hnf); [done| | |].
  - intros x y Hxy%Hef. by destruct (Hnone y x).
  - apply set_iter_NoDup.
  - intros x Hx%elem_of_set_iter. by rewrite Hnf.
Qed.

(** X22: on a well-formed graph, any two nodes of a component [scc] returns
    reach each other: every component lies inside one class of mutual
    reachability. *)
Theorem scc_strongly_connected g :
  wf g →
  ∃ sccs, scc g = Ok sccs ∧
    ∀ c u v, c ∈ sccs → u ∈ c → v ∈ c → reachable g u v.
Proof.
  intros Hwf.
  destruct (scc_stages g Hwf) as (m & forest & _ & _ & -> & Hwff & Hnf & _ & Hef & _).
  destruct (scc_loop_post g forest Hwff Hnf (length (set_iter (node_set_ g)))
              (set_iter (node_set_ g)) []) as (comps & -> & Hcomps & _).
  { done. }
  { intros x Hx%elem_of_set_iter. by rewrite Hnf. }
  exists comps. split; [done|]. intros c u v Hc Hu Hv.
  destruct (Hcomps c Hc) as (r & vs & -> & _ & _ & Hreach).
  assert (∀ k, reachable forest r k → reachable g r k ∧ reachable g k r) as Hboth.
  { apply (rtc_ind_r (λ k, reachable g r k ∧ reachable g k r)); [done|].
    intros y z _ [Hyz Hzy]%Hef [Hry Hyr]. split; by etrans. }
  destruct (Hboth u) as [_ Hur]; [by apply Hreach|].
  destruct (Hboth v) as [Hrv _]; [by apply Hreach|].
  by etrans.
Qed.

(** X26: on a well-formed graph that does not have [NodeType()] as a node,
    [scc] returns, among its components, every class of mutual
    reachability: for every node there is a component that holds exactly
    the nodes that reach the node and are reached from it. *)
Theorem scc_classes_present g :
  wf g → (node_default ∉ node_set_ g) →
  ∃ sccs, scc g = Ok sccs ∧
    ∀ u, u ∈ node_set_ g →
      ∃ c, c ∈ sccs ∧ ∀ v, v ∈ c ↔ reachable g u v ∧ reachable g v u.
Proof.
  intros Hwf Hdefault.
  destruct (scc_stages g Hwf) as (m & forest & _ & _ & -> & Hwff & Hnf & _ & _ & Hclasses).
  destruct (scc_loop_post g forest Hwff Hnf (length (set_iter (node_set_ g)))
              (set_iter (node_set_ g)) []) as (comps & -> & _ & _ & Hroots).
  { done. }
  { intros x Hx%elem_of_set_iter. by rewrite Hnf. }
  exists comps. split; [done|]. intros u Hu.
  destruct (Hclasses Hdefault u Hu) as (r & Hr & Hroot & Hclass).
  destruct (Hroots r) as (vs & Hc & Hvs); [by apply elem_of_set_iter|done|].
  exists (r :: vs). split; [done|]. intros v. by rewrite Hvs.
Qed.
End forest_facts.

(* ================================================================== *)
(** ** The claims at concrete [Graph<int>] values *)
(* ================================================================== *)

Lemma built_graph_of ns es : built (graph_of ns es).
Proof.
  exists pretty. unfold graph_of.
  assert (∀ g0 g, evolves g0 g → evolves g0 (foldl (λ g n, (add_node n g).2) g ns)) as Hns.
  { intros g0. induction ns as [|n ns IH]; intros g Hg; simpl; [done|].
    apply IH. by constructor. }
  assert (∀ g0 g, evolves g0 g →
            evolves g0 (foldl (λ g (e : Z * Z), (add_edge e.1 e.2 g).2) g es)) as Hes.
  { intros g0. induction es as [|e es IH]; intros g Hg; simpl; [done|].
    apply IH. by constructor. }
  apply Hes, Hns. constructor.
Qed.

Lemma int_elem_of (x : Z) (s : gset Z) : bool_decide (x ∈ s) = true → x ∈ s.
Proof. apply bool_decide_eq_true_1. Qed.

Lemma int_not_elem_of (x : Z) (s : gset Z) : bool_decide (x ∈ s) = false → x ∉ s.
Proof. apply bool_decide_eq_false_1. Qed.

Lemma int_set_eq (s1 s2 : gset Z) : bool_decide (s1 = s2) = true → s1 = s2.
Proof. apply bool_decide_eq_true_1. Qed.

Lemma int_map_eq (m1 m2 : gmap Z (list Z)) : bool_decide (m1 = m2) = true → m1 = m2.
Proof. apply bool_decide_eq_true_1. Qed.

Lemma add_edge_idempotent_witness :
  wf tailed_cycle ∧ 1 ∈ node_set_ tailed_cycle ∧ 2 ∈ node_set_ tailed_cycle ∧
  ∃ g1, add_edge 1 2 tailed_cycle = (Ok (), g1) ∧ add_edge 1 2 g1 = (Ok (), g1).
Proof.
  assert (wf tailed_cycle) as Hwf by apply built_wf, built_graph_of.
  assert (1 ∈ node_set_ tailed_cycle) as H1 by (apply int_elem_of; vm_compute; reflexivity).
  assert (2 ∈ node_set_ tailed_cycle) as H2 by (apply int_elem_of; vm_compute; reflexivity).
  split_and!; [done..|].
  exact (add_edge_idempotent tailed_cycle 1 2 Hwf H1 H2).
Defined.

(** C1 (the code departs from the claim): on the graph [1 → 3], [3 ⇄ 2],
    built by [add_node] and [add_edge] calls and free of the node value
    [int()], [scc] returns the three sequences [1], [2] and [3; 2].  Node 2
    is in two of them, so the result is not a partition of the node set
    into the classes of mutual reachability. *)
Theorem scc_tailed_cycle :
  built tailed_cycle ∧ (node_default ∉ node_set_ tailed_cycle) ∧
  scc tailed_cycle = Ok [[1]; [2]; [3; 2]] ∧
  component_count [[1]; [2]; [3; 2]] 2 = 2%nat ∧
  ¬ is_scc_partition tailed_cycle [[1]; [2]; [3; 2]].
Proof.
  assert (component_count [[1]; [2]; [3; 2]] 2 = 2%nat) as Hcount by (vm_compute; reflexivity).
  split_and!.
  - apply built_graph_of.
  - apply int_not_elem_of. vm_compute. reflexivity.
  - vm_compute. reflexivity.
  - exact Hcount.
  - intros [Hone _]. specialize (Hone 2). rewrite Hcount in Hone.
    assert (2 ∈ node_set_ tailed_cycle) as H2 by (apply int_elem_of; vm_compute; reflexivity).
    specialize (Hone H2). discriminate.
Qed.

(** The hypothesis of C2 on [NodeType()] is needed: on the cycle through
    0, 1, 2 the parent pointer of node 2 is 0, which [dfs_forest] reads as
    "no parent", and [scc] returns three sequences. *)
Lemma scc_int_cycle_from_zero :
  scc int_cycle_from_zero = Ok [[0]; [1]; [2; 1]].
Proof. vm_compute. reflexivity. Qed.



Lemma transpose_transpose_witness :
  built tailed_cycle ∧
  ∃ t tt, transpose tailed_cycle = Ok t ∧ transpose t = Ok tt ∧
    graph_eqb tt tailed_cycle = true.
Proof.
  split; [apply built_graph_of|].
  exact (transpose_transpose tailed_cycle (built_graph_of _ _)).
Defined.

Lemma wf_preserved_witness :
  wf int_cycle ∧ ∃ t, transpose int_cycle = Ok t ∧ wf t.
Proof.
  destruct (wf_preserved (NodeType:=Z)) as (Hnew & Hnode & Hedge & Htranspose & _).
  assert (wf int_cycle) as Hwf.
  { unfold int_cycle, graph_of. cbn [foldl]. repeat apply Hedge. repeat apply Hnode.
    apply Hnew. }
  split; [exact Hwf|]. exact (Htranspose int_cycle Hwf).
Defined.

Lemma graph_union_comm_witness :
  wf int_cycle ∧ wf tailed_cycle ∧ node_set_ int_cycle = node_set_ tailed_cycle ∧
  ∃ ab ba, graph_union int_cycle tailed_cycle = Ok ab ∧
    graph_union tailed_cycle int_cycle = Ok ba ∧ graph_eqb ab ba = true.
Proof.
  assert (wf int_cycle) as Hwf1 by apply built_wf, built_graph_of.
  assert (wf tailed_cycle) as Hwf2 by apply built_wf, built_graph_of.
  assert (node_set_ int_cycle = node_set_ tailed_cycle) as Hnodes
    by (apply int_set_eq; vm_compute; reflexivity).
  split_and!; [done..|].
  exact (graph_union_comm int_cycle tailed_cycle Hwf1 Hwf2 Hnodes).
Defined.

Lemma add_node_duplicate_iff_witness :
  (1 ∉ node_set_ (Graph_new (NodeType:=Z) pretty)) ∧
  ∃ g', add_node 1 (Graph_new pretty) = (Ok (), g') ∧
    node_set_ g' = {[1]} ∪ node_set_ (Graph_new pretty) ∧
    succ_map_ g' = <[1 := []]> (succ_map_ (Graph_new pretty)) ∧
    pred_map_ g' = <[1 := []]> (pred_map_ (Graph_new pretty)) ∧
    ∀ g'', evolves g' g'' → add_node 1 g'' = (Throw DuplicateNode, g'').
Proof.
  assert (1 ∉ node_set_ (Graph_new (NodeType:=Z) pretty)) as Hnew
    by (apply int_not_elem_of; vm_compute; reflexivity).
  split; [exact Hnew|].
  exact (proj2 (add_node_duplicate_iff (Graph_new pretty) 1) Hnew).
Defined.

Lemma add_edge_unknown_node_atomic_witness :
  (5 ∉ node_set_ int_cycle) ∧ (add_edge 1 5 int_cycle).2 = int_cycle.
Proof.
  assert (5 ∉ node_set_ int_cycle) as H5
    by (apply int_not_elem_of; vm_compute; reflexivity).
  split; [exact H5|].
  exact (proj2 (proj2 (add_edge_unknown_node_atomic int_cycle 1 5)) (or_intror H5)).
Defined.


Lemma exists_edge_throws_iff_witness :
  wf int_cycle ∧ 1 ∈ node_set_ int_cycle ∧ (5 ∉ node_set_ int_cycle) ∧
  exists_edge 1 5 int_cycle = Ok false.
Proof.
  assert (wf int_cycle) as Hwf by apply built_wf, built_graph_of.
  assert (1 ∈ node_set_ int_cycle) as H1 by (apply int_elem_of; vm_compute; reflexivity).
  assert (5 ∉ node_set_ int_cycle) as H5
    by (apply int_not_elem_of; vm_compute; reflexivity).
  split_and!; [done..|].
  exact (proj2 (exists_edge_throws_iff int_cycle 1 5 Hwf) H1 H5).
Defined.

(* ================================================================== *)
(** ** The further properties at concrete [Graph<int>] values *)
(* ================================================================== *)

Lemma wf_int_cycle : wf int_cycle.
Proof. apply built_wf, built_graph_of. Defined.

Lemma wf_tailed_cycle : wf tailed_cycle.
Proof. apply built_wf, built_graph_of. Defined.

Lemma int_cycle_tailed_cycle_nodes : node_set_ int_cycle = node_set_ tailed_cycle.
Proof. apply int_set_eq; vm_compute; reflexivity. Defined.

Lemma add_edge_exists_edge_witness :
  wf tailed_cycle ∧ 1 ∈ node_set_ tailed_cycle ∧ 2 ∈ node_set_ tailed_cycle ∧
  ∃ g', add_edge 1 2 tailed_cycle = (Ok (), g') ∧
    exists_edge 1 2 g' = Ok true ∧
    ∀ c d, c ∈ node_set_ tailed_cycle → (c, d) ≠ (1, 2) →
           exists_edge c d g' = exists_edge c d tailed_cycle.
Proof.
  assert (1 ∈ node_set_ tailed_cycle) as H1 by (apply int_elem_of; vm_compute; reflexivity).
  assert (2 ∈ node_set_ tailed_cycle) as H2 by (apply int_elem_of; vm_compute; reflexivity).
  split_and!; [exact wf_tailed_cycle|exact H1|exact H2|].
  exact (add_edge_exists_edge tailed_cycle 1 2 wf_tailed_cycle H1 H2).
Defined.

Lemma add_node_isolated_witness :
  wf int_cycle ∧ (5 ∉ node_set_ int_cycle) ∧
  ∃ g', add_node 5 int_cycle = (Ok (), g') ∧
    (∀ x, exists_edge 5 x g' = Ok false) ∧
    (∀ x, x ∈ node_set_ g' → exists_edge x 5 g' = Ok false) ∧
    (∀ x y, x ∈ node_set_ int_cycle → exists_edge x y g' = exists_edge x y int_cycle).
Proof.
  assert (5 ∉ node_set_ int_cycle) as H5
    by (apply int_not_elem_of; vm_compute; reflexivity).
  split_and!; [exact wf_int_cycle|exact H5|].
  exact (add_node_isolated int_cycle 5 wf_int_cycle H5).
Defined.

Lemma add_edge_outcomes_witness :
  wf int_cycle ∧
  ((add_edge 1 5 int_cycle).1 = Ok () ↔
     1 ∈ node_set_ int_cycle ∧ 5 ∈ node_set_ int_cycle) ∧
  ((add_edge 1 5 int_cycle).1 = Ok () ∨
   (add_edge 1 5 int_cycle).1 = Throw UnknownFromNode ∨
   (add_edge 1 5 int_cycle).1 = Throw UnknownToNode).
Proof.
  split; [exact wf_int_cycle|].
  exact (add_edge_outcomes int_cycle 1 5 wf_int_cycle).
Defined.

Lemma add_edge_commute_witness :
  wf int_cycle ∧
  (add_edge 3 2 (add_edge 1 3 int_cycle).2).2 =
  (add_edge 1 3 (add_edge 3 2 int_cycle).2).2.
Proof.
  split; [exact wf_int_cycle|].
  exact (add_edge_commute int_cycle 1 3 3 2 wf_int_cycle).
Defined.

Lemma graph_eqb_nodes_edges_witness :
  wf int_cycle ∧ wf tailed_cycle ∧
  (graph_eqb int_cycle tailed_cycle = true ↔
   node_set_ int_cycle = node_set_ tailed_cycle ∧
   ∀ a b, has_succ int_cycle a b ↔ has_succ tailed_cycle a b).
Proof.
  split_and!; [exact wf_int_cycle|exact wf_tailed_cycle|].
  exact (graph_eqb_nodes_edges int_cycle tailed_cycle wf_int_cycle wf_tailed_cycle).
Defined.

Lemma transpose_exists_edge_witness :
  wf tailed_cycle ∧
  ∃ t, transpose tailed_cycle = Ok t ∧ node_set_ t = node_set_ tailed_cycle ∧
    node_printer_ t = node_printer_ tailed_cycle ∧
    ∀ a b, a ∈ node_set_ tailed_cycle → b ∈ node_set_ tailed_cycle →
           exists_edge a b t = exists_edge b a tailed_cycle.
Proof.
  split; [exact wf_tailed_cycle|].
  exact (transpose_exists_edge tailed_cycle wf_tailed_cycle).
Defined.

Lemma copy_and_clear_no_edges_witness :
  wf tailed_cycle ∧
  ∃ c, copy_and_clear tailed_cycle = Ok c ∧ node_set_ c = node_set_ tailed_cycle ∧
    node_printer_ c = node_printer_ tailed_cycle ∧
    (∀ a b, a ∈ node_set_ tailed_cycle → exists_edge a b c = Ok false) ∧
    copy_and_clear c = Ok c.
Proof.
  split; [exact wf_tailed_cycle|].
  exact (copy_and_clear_no_edges tailed_cycle wf_tailed_cycle).
Defined.

Lemma graph_union_exists_edge_witness :
  wf int_cycle ∧ wf tailed_cycle ∧ node_set_ int_cycle = node_set_ tailed_cycle ∧
  ∃ r, graph_union int_cycle tailed_cycle = Ok r ∧ node_set_ r = node_set_ int_cycle ∧
    node_printer_ r = node_printer_ int_cycle ∧
    ∀ a b, a ∈ node_set_ int_cycle →
      ∃ ea eb, exists_edge a b int_cycle = Ok ea ∧ exists_edge a b tailed_cycle = Ok eb ∧
               exists_edge a b r = Ok (ea || eb).
Proof.
  split_and!; [exact wf_int_cycle|exact wf_tailed_cycle|exact int_cycle_tailed_cycle_nodes|].
  exact (graph_union_exists_edge int_cycle tailed_cycle wf_int_cycle wf_tailed_cycle
           int_cycle_tailed_cycle_nodes).
Defined.

Lemma graph_union_idempotent_witness :
  wf tailed_cycle ∧ graph_union tailed_cycle tailed_cycle = Ok tailed_cycle.
Proof.
  split; [exact wf_tailed_cycle|].
  exact (graph_union_idempotent tailed_cycle wf_tailed_cycle).
Defined.

Lemma graph_union_cleared_witness :
  wf tailed_cycle ∧
  ∃ c, copy_and_clear tailed_cycle = Ok c ∧
    graph_union tailed_cycle c = Ok tailed_cycle ∧
    graph_union c tailed_cycle = Ok tailed_cycle.
Proof.
  split; [exact wf_tailed_cycle|].
  exact (graph_union_cleared tailed_cycle wf_tailed_cycle).
Defined.

Lemma graph_union_assoc_witness :
  wf int_cycle ∧ wf tailed_cycle ∧
  node_set_ int_cycle = node_set_ tailed_cycle ∧
  node_set_ tailed_cycle = node_set_ int_cycle ∧
  ∃ ab bc r, graph_union int_cycle tailed_cycle = Ok ab ∧
    graph_union tailed_cycle int_cycle = Ok bc ∧
    graph_union ab int_cycle = Ok r ∧ graph_union int_cycle bc = Ok r.
Proof.
  split_and!; [exact wf_int_cycle|exact wf_tailed_cycle|
               exact int_cycle_tailed_cycle_nodes|
               exact (eq_sym int_cycle_tailed_cycle_nodes)|].
  exact (graph_union_assoc int_cycle tailed_cycle int_cycle
           wf_int_cycle wf_tailed_cycle wf_int_cycle
           int_cycle_tailed_cycle_nodes (eq_sym int_cycle_tailed_cycle_nodes)).
Defined.

Lemma transpose_graph_union_witness :
  wf int_cycle ∧ wf tailed_cycle ∧ node_set_ int_cycle = node_set_ tailed_cycle ∧
  ∃ ab ta tb r, graph_union int_cycle tailed_cycle = Ok ab ∧
    transpose int_cycle = Ok ta ∧ transpose tailed_cycle = Ok tb ∧
    transpose ab = Ok r ∧ graph_union ta tb = Ok r.
Proof.
  split_and!; [exact wf_int_cycle|exact wf_tailed_cycle|exact int_cycle_tailed_cycle_nodes|].
  exact (transpose_graph_union int_cycle tailed_cycle wf_int_cycle wf_tailed_cycle
           int_cycle_tailed_cycle_nodes).
Defined.

Lemma graph_union_outcomes_witness :
  wf int_cycle ∧ wf (graph_of [1; 2] []) ∧
  (graph_union int_cycle (graph_of [1; 2] []) = Throw IncompatibleNodeSets ↔
     node_set_ int_cycle ≠ node_set_ (graph_of [1; 2] [])) ∧
  ((∃ r, graph_union int_cycle (graph_of [1; 2] []) = Ok r) ↔
     node_set_ int_cycle = node_set_ (graph_of [1; 2] [])).
Proof.
  assert (wf (graph_of [1; 2] [])) as Hwf by apply built_wf, built_graph_of.
  split_and!; [exact wf_int_cycle|exact Hwf|..];
    apply (graph_union_outcomes int_cycle (graph_of [1; 2] []) wf_int_cycle Hwf).
Defined.

Lemma int_cycle_node_1 : 1 ∈ node_set_ int_cycle.
Proof. apply int_elem_of; vm_compute; reflexivity. Defined.

Lemma int_cycle_init_dom : dom (init_dfs_map int_cycle) = node_set_ int_cycle.
Proof. apply int_set_eq; vm_compute; reflexivity. Defined.


Lemma dfs_visit_white_paths_witness :
  wf int_cycle ∧ 1 ∈ node_set_ int_cycle ∧
  dom (init_dfs_map int_cycle) = node_set_ int_cycle ∧
  ∃ t' ret m', dfs_visit int_cycle 1 (init_dfs_map int_cycle) 0 = Ok (t', ret, m') ∧
    ∀ k, k ∈ ret ↔
      rtc (white_step int_cycle (whites (init_dfs_map int_cycle) ∖ {[1]})) 1 k.
Proof.
  split_and!; [exact wf_int_cycle|exact int_cycle_node_1|exact int_cycle_init_dom|].
  exact (dfs_visit_white_paths int_cycle 1 (init_dfs_map int_cycle) 0
           wf_int_cycle int_cycle_node_1 int_cycle_init_dom).
Defined.


Lemma tailed_cycle_node_3 : 3 ∈ node_set_ tailed_cycle.
Proof. apply int_elem_of; vm_compute; reflexivity. Defined.

Lemma dfs_visit_reachable_witness :
  wf tailed_cycle ∧ 3 ∈ node_set_ tailed_cycle ∧
  node_set_ int_cycle = node_set_ tailed_cycle ∧
  ∃ t' ret m', dfs_visit tailed_cycle 3 (init_dfs_map int_cycle) 0 = Ok (t', ret, m') ∧
    NoDup ret ∧ (∃ vs, ret = 3 :: vs) ∧ ∀ k, k ∈ ret ↔ reachable tailed_cycle 3 k.
Proof.
  split_and!; [exact wf_tailed_cycle|exact tailed_cycle_node_3|
               exact int_cycle_tailed_cycle_nodes|].
  exact (dfs_visit_reachable tailed_cycle int_cycle 3 wf_tailed_cycle tailed_cycle_node_3
           int_cycle_tailed_cycle_nodes).
Defined.





Lemma scc_components_witness :
  wf tailed_cycle ∧
  ∃ sccs, scc tailed_cycle = Ok sccs ∧
    (∀ c, c ∈ sccs → ∃ r vs, c = r :: vs ∧ NoDup c ∧
       ∀ k, k ∈ c → k ∈ node_set_ tailed_cycle ∧ reachable tailed_cycle k r) ∧
    (∀ x, x ∈ node_set_ tailed_cycle ↔ ∃ c, c ∈ sccs ∧ x ∈ c).
Proof.
  split; [exact wf_tailed_cycle|].
  exact (scc_components tailed_cycle wf_tailed_cycle).
Defined.

Lemma scc_strongly_connected_witness :
  wf tailed_cycle ∧
  ∃ sccs, scc tailed_cycle = Ok sccs ∧
    ∀ c u v, c ∈ sccs → u ∈ c → v ∈ c → reachable tailed_cycle u v.
Proof.
  split; [exact wf_tailed_cycle|].
  exact (scc_strongly_connected tailed_cycle wf_tailed_cycle).
Defined.

Lemma scc_classes_present_witness :
  wf tailed_cycle ∧ (node_default ∉ node_set_ tailed_cycle) ∧
  ∃ sccs, scc tailed_cycle = Ok sccs ∧
    ∀ u, u ∈ node_set_ tailed_cycle →
      ∃ c, c ∈ sccs ∧
        ∀ v, v ∈ c ↔ reachable tailed_cycle u v ∧ reachable tailed_cycle v u.
Proof.
  assert (node_default ∉ node_set_ tailed_cycle) as Hdefault
    by (apply int_not_elem_of; vm_compute; reflexivity).
  split_and!; [exact wf_tailed_cycle|exact Hdefault|].
  exact (scc_classes_present tailed_cycle wf_tailed_cycle Hdefault).
Defined.

Lemma graph_of_no_edges (x y : Z) : ¬ has_succ (graph_of [2; 1] []) x y.
Proof.
  intros (l & Hl & Hy).
  assert (succ_map_ (graph_of [2; 1] []) = <[1 := []]> (<[2 := []]> ∅)) as Hsucc
    by (apply int_map_eq; vm_compute; reflexivity).
  rewrite Hsucc in Hl. clear Hsucc.
  apply lookup_insert_Some in Hl as [[_ <-]|[_ Hl]]; [by apply elem_of_nil in Hy|].
  apply lookup_insert_Some in Hl as [[_ <-]|[_ Hl]]; [by apply elem_of_nil in Hy|].
  by rewrite lookup_empty in Hl.
Defined.

Lemma scc_no_edges_witness :
  wf (graph_of [2; 1] []) ∧ (∀ x y, ¬ has_succ (graph_of [2; 1] []) x y) ∧
  scc (graph_of [2; 1] []) = Ok (map (λ n, [n]) (set_iter (node_set_ (graph_of [2; 1] [])))).
Proof.
  assert (wf (graph_of [2; 1] [])) as Hwf by apply built_wf, built_graph_of.
  split_and!; [exact Hwf|exact graph_of_no_edges|].
  exact (scc_no_edges (graph_of [2; 1] []) Hwf graph_of_no_edges).
Defined.
